(** * CrowdSense: identity tracker, crowd aggregation and ad manager

    A shallow embedding of [tracker.py] (class [EuclideanDistTracker]),
    of the boxes, the frame loop and the counting loop of [camera.py]
    ([VideoCamera]), of [ad_manager.py] (class [AdManager]) and of the
    analytics and the advertisement logic of the background thread of
    [app.py], with the properties of the natural-language specification
    and further properties of the code stated over it.

    Conventions of the embedding.
    - Python [dict] / [OrderedDict] objects are insertion-ordered; they are
      association lists with unique keys ([Dict]): assignment to an existing
      key keeps its position, assignment to a new key appends, [del] of a
      missing key raises [KeyError].
    - Python exceptions are values of [exn]; fallible code lives in the
      error monad [res].
    - Pixel coordinates, identifiers and counters are unbounded integers.
    - Wall-clock readings ([time.time()]) and confidences are rationals;
      the rounding of floating-point subtraction is not modelled.
    - [random.choice], the clock, [datetime.now().isoformat()], the
      analytics store and the truth test of its handle, the file system,
      the capture and the detection networks are inputs of the operations
      that consult them.
    - The order numpy's [argsort] gives to equal values and the order in
      which Python iterates a set are inputs of [update_by]; [update] is
      [update_by] with equal values in index order and sets in ascending
      order.
    - Strings are ASCII text. *)

From Stdlib Require Import String Ascii Bool Arith ZArith QArith Qminmax Lia Lqa.
From Stdlib Require Import List Permutation Sorted.
Import ListNotations.
Local Open Scope string_scope.
Local Open Scope list_scope.
Local Open Scope nat_scope.

(** ** Exceptions *)

Inductive exn : Type :=
| KeyError
| IndexError
| ValueError
| StoreError.

Definition res (A : Type) : Type := (exn + A)%type.

Definition ret {A} (a : A) : res A := inr a.
Definition raise {A} (e : exn) : res A := inl e.

Definition bind {A B} (m : res A) (k : A -> res B) : res B :=
  match m with
  | inl e => inl e
  | inr a => k a
  end.

Notation "x <- m ;; k" := (bind m (fun x => k))
  (at level 61, m at next level, right associativity).
Notation "' p <- m ;; k" := (bind m (fun x => match x with p => k end))
  (at level 61, p pattern, m at next level, right associativity).

(** [try: m except: h] is Python's [try: m  except Exception: h]. *)
Definition try_except {A} (m : res A) (h : exn -> res A) : res A :=
  match m with
  | inl e => h e
  | inr a => inr a
  end.

(** A [for] loop whose body may raise. *)
Fixpoint for_each {A S} (body : A -> S -> res S) (l : list A) (s : S) : res S :=
  match l with
  | [] => ret s
  | a :: l' => s' <- body a s ;; for_each body l' s'
  end.

(** Indexing a Python list. *)
Definition index {A} (l : list A) (i : nat) : res A :=
  match nth_error l i with
  | Some a => ret a
  | None => raise IndexError
  end.

(** ** Insertion-ordered dictionaries *)

Class KeyEq (K : Type) := {
  keqb : K -> K -> bool;
  keqb_spec : forall x y, reflect (x = y) (keqb x y)
}.

#[global] Instance KeyEq_nat : KeyEq nat :=
  {| keqb := Nat.eqb; keqb_spec := Nat.eqb_spec |}.

#[global] Instance KeyEq_string : KeyEq string :=
  {| keqb := String.eqb; keqb_spec := String.eqb_spec |}.

Module Dict.
Section Ops.
Context {K V : Type} `{KeyEq K}.

Definition t := list (K * V).

Definition keys (d : t) : list K := map fst d.
Definition values (d : t) : list V := map snd d.

(** [d.get(k)] *)
Fixpoint get (k : K) (d : t) : option V :=
  match d with
  | [] => None
  | (k', v) :: r => if keqb k k' then Some v else get k r
  end.

(** [k in d] *)
Definition mem (k : K) (d : t) : bool :=
  match get k d with Some _ => true | None => false end.

(** [d[k]] *)
Definition item (k : K) (d : t) : res V :=
  match get k d with
  | Some v => ret v
  | None => raise KeyError
  end.

(** [d[k] = v] *)
Fixpoint set (k : K) (v : V) (d : t) : t :=
  match d with
  | [] => [(k, v)]
  | (k', v') :: r => if keqb k k' then (k, v) :: r else (k', v') :: set k v r
  end.

(** [del d[k]] *)
Fixpoint del (k : K) (d : t) : res t :=
  match d with
  | [] => raise KeyError
  | (k', v') :: r =>
      if keqb k k' then ret r else r' <- del k r ;; ret ((k', v') :: r')
  end.

End Ops.
Arguments t : clear implicits.
Arguments t K V : assert.
End Dict.

(** [remove1 k l] removes the first occurrence of [k] in a list of keys. *)
Fixpoint remove1 {K} `{KeyEq K} (k : K) (l : list K) : list K :=
  match l with
  | [] => []
  | x :: r => if keqb k x then r else x :: remove1 k r
  end.

(** * Part I: the program *)

(** ** tracker.py *)

Module Tracker.

Definition Point := (Z * Z)%type.
Definition BBox := (Z * Z * Z * Z)%type.

(** One element of [rects]:
    [{'bbox': (x, y, w, h), 'gender': str, 'confidence': float}]. *)
Record Rect := mkRect {
  rect_bbox : BBox;
  rect_gender : string;
  rect_confidence : Q
}.

(** One value of [self.objects]. *)
Record Obj := mkObj {
  centroid : Point;
  bbox : BBox;
  gender : string;
  confidence : Q;
  gender_history : list string;
  hits : nat
}.

Record EuclideanDistTracker := mkTracker {
  next_object_id : nat;
  objects : Dict.t nat Obj;
  disappeared : Dict.t nat nat;
  history : Dict.t nat (list Point);
  max_disappeared : nat;
  max_distance : Z
}.

(** [__init__(self, max_disappeared=40, max_distance=50)] *)
Definition init (max_disappeared : nat) (max_distance : Z) : EuclideanDistTracker :=
  {| next_object_id := 0;
     objects := [];
     disappeared := [];
     history := [];
     max_disappeared := max_disappeared;
     max_distance := max_distance |}.

Definition default_tracker : EuclideanDistTracker := init 40 50.

Definition register (c : Point) (b : BBox) (g : string) (conf : Q)
  (t : EuclideanDistTracker) : EuclideanDistTracker :=
  {| next_object_id := S (next_object_id t);
     objects :=
       Dict.set (next_object_id t)
         {| centroid := c; bbox := b; gender := g; confidence := conf;
            gender_history := [g]; hits := 1 |}
         (objects t);
     disappeared := Dict.set (next_object_id t) 0 (disappeared t);
     history := Dict.set (next_object_id t) [c] (history t);
     max_disappeared := max_disappeared t;
     max_distance := max_distance t |}.

Definition deregister (object_id : nat) (t : EuclideanDistTracker)
  : res EuclideanDistTracker :=
  o <- Dict.del object_id (objects t) ;;
  d <- Dict.del object_id (disappeared t) ;;
  h <- Dict.del object_id (history t) ;;
  ret {| next_object_id := next_object_id t;
         objects := o;
         disappeared := d;
         history := h;
         max_disappeared := max_disappeared t;
         max_distance := max_distance t |}.

(** [self.disappeared[object_id] += 1] followed by the threshold test. *)
Definition age (object_id : nat) (t : EuclideanDistTracker)
  : res EuclideanDistTracker :=
  d <- Dict.item object_id (disappeared t) ;;
  let t1 :=
    {| next_object_id := next_object_id t;
       objects := objects t;
       disappeared := Dict.set object_id (S d) (disappeared t);
       history := history t;
       max_disappeared := max_disappeared t;
       max_distance := max_distance t |} in
  if max_disappeared t <? S d then deregister object_id t1 else ret t1.

(** [cX = int(x + w / 2.0)]: [int] truncates towards zero. *)
Definition centroid_of (b : BBox) : Point :=
  let '(x, y, w, h) := b in
  (Z.quot (2 * x + w) 2, Z.quot (2 * y + h) 2).

(** [_dist]: the matrix of pairwise distances.  The embedding keeps the
    squared distance, an integer: the code only compares distances with
    each other and with [max_distance], and the square root is strictly
    increasing on the integers met here. *)
Definition dist2 (a b : Point) : Z :=
  (fst a - fst b) * (fst a - fst b) + (snd a - snd b) * (snd a - snd b).

Definition dist (a b : list Point) : list (list Z) :=
  map (fun p => map (dist2 p) b) a.

(** [d > self.max_distance] on the squared distance [d2]. *)
Definition exceeds (max_distance d2 : Z) : bool :=
  (max_distance <? 0)%Z || (max_distance * max_distance <? d2)%Z.

(** [row.min()] *)
Definition amin (l : list Z) : res Z :=
  match l with
  | [] => raise ValueError
  | x :: r => ret (fold_left Z.min r x)
  end.

(** [row.argmin()]: the first index of the minimum. *)
Fixpoint argmin_from (best_i : nat) (best : Z) (i : nat) (l : list Z) : nat :=
  match l with
  | [] => best_i
  | x :: r =>
      if (x <? best)%Z then argmin_from i x (S i) r
      else argmin_from best_i best (S i) r
  end.

Definition argmin (l : list Z) : res nat :=
  match l with
  | [] => raise ValueError
  | x :: r => ret (argmin_from 0 x 1 r)
  end.

Fixpoint map_res {A B} (f : A -> res B) (l : list A) : res (list B) :=
  match l with
  | [] => ret []
  | a :: l' => b <- f a ;; bs <- map_res f l' ;; ret (b :: bs)
  end.

(** [a.argsort()]: the indices of [a] in ascending order of value.  The
    embedding puts equal values in index order; numpy's default sort
    leaves the order of equal values open. *)
Fixpoint insert_by (key : nat -> Z) (i : nat) (l : list nat) : list nat :=
  match l with
  | [] => [i]
  | j :: r => if (key i <=? key j)%Z then i :: l else j :: insert_by key i r
  end.

Definition argsort (a : list Z) : list nat :=
  fold_right (insert_by (fun i => nth i a 0%Z)) [] (seq 0 (length a)).

(** [collections.Counter(l)]: counts in order of first occurrence. *)
Definition count_element (c : Dict.t string nat) (x : string) : Dict.t string nat :=
  Dict.set x (S (match Dict.get x c with Some n => n | None => 0 end)) c.

Definition Counter (l : list string) : Dict.t string nat :=
  fold_left count_element l [].

(** [max(items, key=itemgetter(1))]: the first item of maximal count. *)
Fixpoint max_by_count (best : string * nat) (l : list (string * nat))
  : string * nat :=
  match l with
  | [] => best
  | x :: r => max_by_count (if snd best <? snd x then x else best) r
  end.

(** [counts.most_common(1)] *)
Definition most_common_1 (c : Dict.t string nat) : list (string * nat) :=
  match c with
  | [] => []
  | x :: r => [max_by_count x r]
  end.

(** Python's [max(a, b)] returns [b] only when [b > a]. *)
Definition pymax (a b : Q) : Q :=
  if Qle_bool b a then a else b.

(** Lines 73-82: the gender vote of a matched track. *)
Definition vote (g : string) (o : Obj) : res Obj :=
  if String.eqb g "Unknown" then ret o
  else
    let h := gender_history o ++ [g] in
    let h := if 20 <? length h then tl h else h in
    top <- index (most_common_1 (Counter h)) 0 ;;
    ret {| centroid := centroid o; bbox := bbox o; gender := fst top;
           confidence := confidence o; gender_history := h;
           hits := hits o |}.

(** Lines 69-88: the body of the matching loop once a pair is accepted. *)
Definition apply_match (c : Point) (r : Rect) (o : Obj) : res Obj :=
  o1 <- vote (rect_gender r)
          {| centroid := c; bbox := rect_bbox r; gender := gender o;
             confidence := confidence o;
             gender_history := gender_history o; hits := hits o |} ;;
  ret {| centroid := centroid o1; bbox := bbox o1; gender := gender o1;
         confidence := pymax (confidence o1) (rect_confidence r);
         gender_history := gender_history o1; hits := S (hits o1) |}.

Definition in_set (x : nat) (s : list nat) : bool := existsb (Nat.eqb x) s.

Definition MatchState := (EuclideanDistTracker * list nat * list nat)%type.

(** Lines 62-90: one iteration of [for (row, col) in zip(rows, cols)]. *)
Definition match_step (rects : list Rect) (input_centroids : list Point)
  (D : list (list Z)) (object_ids : list nat)
  (rc : nat * nat) (s : MatchState) : res MatchState :=
  let '(t, used_rows, used_cols) := s in
  let (row, col) := rc in
  if in_set row used_rows || in_set col used_cols then ret s
  else
    Drow <- index D row ;;
    d <- index Drow col ;;
    if exceeds (max_distance t) d then ret s
    else
      object_id <- index object_ids row ;;
      c <- index input_centroids col ;;
      r <- index rects col ;;
      o <- Dict.item object_id (objects t) ;;
      o' <- apply_match c r o ;;
      ret ({| next_object_id := next_object_id t;
              objects := Dict.set object_id o' (objects t);
              disappeared := Dict.set object_id 0 (disappeared t);
              history := history t;
              max_disappeared := max_disappeared t;
              max_distance := max_distance t |},
           row :: used_rows, col :: used_cols).

Definition register_rect (rects : list Rect) (input_centroids : list Point)
  (i : nat) (t : EuclideanDistTracker) : res EuclideanDistTracker :=
  c <- index input_centroids i ;;
  r <- index rects i ;;
  ret (register c (rect_bbox r) (rect_gender r) (rect_confidence r) t).

(** [set(range(0, n)).difference(used)]: the members of the set, listed
    in ascending order.  The order in which Python iterates the set is
    left to [update_by] below. *)
Definition unused (n : nat) (used : list nat) : list nat :=
  filter (fun i => negb (in_set i used)) (seq 0 n).

(** [update(self, rects)] when [argsort] puts equal values in index order
    and the sets [unused_rows] and [unused_cols] are iterated in
    ascending order ([update_by] below leaves both open); the returned
    dictionary is [objects] of the resulting tracker. *)
Definition update (rects : list Rect) (t : EuclideanDistTracker)
  : res EuclideanDistTracker :=
  match rects with
  | [] => for_each age (Dict.keys (disappeared t)) t
  | _ :: _ =>
      let input_centroids := map (fun r => centroid_of (rect_bbox r)) rects in
      match objects t with
      | [] =>
          for_each (register_rect rects input_centroids)
            (seq 0 (length rects)) t
      | _ :: _ =>
          let object_ids := Dict.keys (objects t) in
          let object_centroids := map centroid (Dict.values (objects t)) in
          let D := dist object_centroids input_centroids in
          mins <- map_res amin D ;;
          let rows := argsort mins in
          argmins <- map_res argmin D ;;
          cols <- map_res (index argmins) rows ;;
          '(t1, used_rows, used_cols) <-
            for_each (match_step rects input_centroids D object_ids)
              (combine rows cols) (t, [], []) ;;
          let unused_rows := unused (length D) used_rows in
          let unused_cols := unused (length rects) used_cols in
          t2 <- for_each
                  (fun row t => object_id <- index object_ids row ;;
                                age object_id t)
                  unused_rows t1 ;;
          for_each (register_rect rects input_centroids) unused_cols t2
      end
  end.

(** Feeding a sequence of frames, first frame first. *)
Fixpoint run (frames : list (list Rect)) (t : EuclideanDistTracker)
  : res EuclideanDistTracker :=
  match frames with
  | [] => ret t
  | rects :: frames' => t' <- update rects t ;; run frames' t'
  end.

(** What numpy and Python leave open in [update]: the order [argsort]
    gives to equal values, and the order in which the sets [unused_rows]
    and [unused_cols] are iterated (CPython iterates a set of integers in
    the order of its hash table, which need not be ascending). *)
Record Choices := mkChoices {
  argsort_of : list Z -> list nat;
  rows_order : list nat -> list nat;
  cols_order : list nat -> list nat
}.

(** [update(self, rects)] under the choices [ch]: [unused n used] lists
    the members of the set, [rows_order] and [cols_order] give the order
    of their iteration. *)
Definition update_by (ch : Choices) (rects : list Rect)
  (t : EuclideanDistTracker) : res EuclideanDistTracker :=
  match rects with
  | [] => for_each age (Dict.keys (disappeared t)) t
  | _ :: _ =>
      let input_centroids := map (fun r => centroid_of (rect_bbox r)) rects in
      match objects t with
      | [] =>
          for_each (register_rect rects input_centroids)
            (seq 0 (length rects)) t
      | _ :: _ =>
          let object_ids := Dict.keys (objects t) in
          let object_centroids := map centroid (Dict.values (objects t)) in
          let D := dist object_centroids input_centroids in
          mins <- map_res amin D ;;
          let rows := argsort_of ch mins in
          argmins <- map_res argmin D ;;
          cols <- map_res (index argmins) rows ;;
          '(t1, used_rows, used_cols) <-
            for_each (match_step rects input_centroids D object_ids)
              (combine rows cols) (t, [], []) ;;
          let unused_rows := rows_order ch (unused (length D) used_rows) in
          let unused_cols := cols_order ch (unused (length rects) used_cols) in
          t2 <- for_each
                  (fun row t => object_id <- index object_ids row ;;
                                age object_id t)
                  unused_rows t1 ;;
          for_each (register_rect rects input_centroids) unused_cols t2
      end
  end.

(** The choices [update] above is written with: equal values in index
    order, sets in ascending order. *)
Definition ascending : Choices :=
  mkChoices argsort (fun s => s) (fun s => s).

End Tracker.

(** ** camera.py *)

Module Camera.
Import Tracker.

(** [self.tracker = EuclideanDistTracker(max_disappeared=50, max_distance=150)] *)
Definition tracker : EuclideanDistTracker := Tracker.init 50 150.

(** Lines 314-330 of [get_frame]: the counting loop over
    [objects.items()]; the state of the loop is [(male, female)]. *)
Definition count_step (mf : Z * Z) (entry : nat * Obj) : Z * Z :=
  let (male, female) := mf in
  let (obj_id, obj) := entry in
  if 10 <=? hits obj then
    if String.eqb (gender obj) "Male" then ((male + 1)%Z, female)
    else if String.eqb (gender obj) "Female" then (male, (female + 1)%Z)
    else (male, female)
  else (male, female).

(** [counts = {'total': total, 'male': male, 'female': female}] *)
Definition count_objects (objects : Dict.t nat Obj) : Dict.t string Z :=
  let (male, female) := fold_left count_step objects (0%Z, 0%Z) in
  let total := (male + female)%Z in
  [("total", total); ("male", male); ("female", female)].

End Camera.

(** ** Python string methods, on ASCII text *)

Module PyStr.

Definition is_lower (c : ascii) : bool :=
  (97 <=? nat_of_ascii c) && (nat_of_ascii c <=? 122).

Definition is_upper (c : ascii) : bool :=
  (65 <=? nat_of_ascii c) && (nat_of_ascii c <=? 90).

Definition upper_char (c : ascii) : ascii :=
  if is_lower c then ascii_of_nat (nat_of_ascii c - 32) else c.

Definition lower_char (c : ascii) : ascii :=
  if is_upper c then ascii_of_nat (nat_of_ascii c + 32) else c.

Fixpoint map_chars (f : ascii -> ascii) (s : string) : string :=
  match s with
  | EmptyString => EmptyString
  | String c r => String (f c) (map_chars f r)
  end.

(** [s.upper()], [s.lower()] *)
Definition upper : string -> string := map_chars upper_char.
Definition lower : string -> string := map_chars lower_char.

(** [s.startswith(p)] *)
Definition startswith (p s : string) : bool := String.prefix p s.

(** [s.endswith(p)] *)
Definition endswith (p s : string) : bool :=
  (String.length p <=? String.length s) &&
  String.eqb (String.substring (String.length s - String.length p)
                (String.length p) s) p.

(** [s.endswith((p1, ..., pn))] *)
Definition endswith_any (ps : list string) (s : string) : bool :=
  existsb (fun p => endswith p s) ps.

(** [s.replace(old, new)] for a non-empty [old]: occurrences are replaced
    from the left, without overlap. *)
Fixpoint replace_aux (old new : string) (skip : nat) (s : string) : string :=
  match s with
  | EmptyString => EmptyString
  | String c r =>
      match skip with
      | S k => replace_aux old new k r
      | O =>
          if String.prefix old s
          then (new ++ replace_aux old new (String.length old - 1) r)%string
          else String c (replace_aux old new 0 r)
      end
  end.

Definition replace (old new s : string) : string := replace_aux old new 0 s.

(** [s.title()]: a cased character is upper-cased when the character
    before it is not cased, lower-cased otherwise. *)
Fixpoint title_aux (previous_is_cased : bool) (s : string) : string :=
  match s with
  | EmptyString => EmptyString
  | String c r =>
      if is_lower c then
        String (if previous_is_cased then c else upper_char c) (title_aux true r)
      else if is_upper c then
        String (if previous_is_cased then lower_char c else c) (title_aux true r)
      else String c (title_aux false r)
  end.

Definition title (s : string) : string := title_aux false s.

(** The strings on which the methods above are those of Python: beyond
    ASCII, [upper], [lower] and [title] follow Unicode in Python (and can
    change the length of a string), and leave the character as it is
    here. *)
Definition is_ascii (s : string) : bool :=
  forallb (fun c => nat_of_ascii c <? 128) (list_ascii_of_string s).

End PyStr.

(** ** config.py *)

Module Config.

(** [AD_DISPLAY_DURATION] and [AD_TRIGGER_DELAY], at their defaults. *)
Definition AD_DISPLAY_DURATION : Q := 15.
Definition AD_TRIGGER_DELAY : Q := 2.

End Config.

(** ** ad_manager.py *)

Module AdManager.

(** An advertisement is a dictionary of strings: keys ['id'], ['path'],
    ['type'], ['name'], ['description'], and, once selected, ['gender']
    and ['timestamp']. *)
Definition Ad := Dict.t string string.

(** One analytics document, of the store or of [local_analytics].  The
    fields the code reads with [.get(key, default)] are optional. *)
Record Doc := mkDoc {
  doc_ad_id : option string;
  doc_ad_name : string;
  doc_ad_path : string;
  doc_ad_type : string;
  doc_gender : option string;
  doc_display_count : option Z;
  doc_last_displayed : string;
  doc_created_at : string
}.

(** One element of [ad_history]: [{'ad': ..., 'timestamp': ...}]. *)
Record HistoryEntry := mkHistoryEntry {
  history_ad : Ad;
  history_timestamp : string
}.

(** The handle of the analytics database. *)
Inductive Mongo : Type := MongoDatabase.

Record State := mkState {
  current_ad : option Ad;
  ad_start_time : option Q;
  last_majority_gender : option string;
  last_ad_change_time : Dict.t string Q;
  ad_history : list HistoryEntry;
  mongo_db : option Mongo;
  local_analytics : Dict.t string Doc;
  demo_male_ads : list Ad;
  demo_female_ads : list Ad;
  demo_neutral_ads : list Ad;
  male_ads : list Ad;
  female_ads : list Ad;
  neutral_ads : list Ad;
  ads_dir : string
}.

(** The methods run in a state monad over [State] with exceptions: the
    state written before an exception is raised stays written. *)
Definition M (A : Type) : Type := State -> res A * State.

Definition mret {A} (a : A) : M A := fun s => (inr a, s).
Definition mraise {A} (e : exn) : M A := fun s => (inl e, s).

Definition mbind {A B} (m : M A) (k : A -> M B) : M B :=
  fun s =>
    match m s with
    | (inl e, s') => (inl e, s')
    | (inr a, s') => k a s'
    end.

Definition mtry {A} (m : M A) (h : exn -> M A) : M A :=
  fun s =>
    match m s with
    | (inl e, s') => h e s'
    | (inr a, s') => (inr a, s')
    end.

Definition self : M State := fun s => (inr s, s).
Definition modify (f : State -> State) : M unit := fun s => (inr tt, f s).
Definition lift {A} (r : res A) : M A := fun s => (r, s).

Notation "x <~ m ;; k" := (mbind m (fun x => k))
  (at level 61, m at next level, right associativity).
Notation "' p <~ m ;; k" := (mbind m (fun x => match x with p => k end))
  (at level 61, p pattern, m at next level, right associativity).
Notation "m ;;; k" := (mbind m (fun _ => k))
  (at level 61, right associativity).

(** Field assignments. *)
Definition set_current_ad (v : option Ad) (s : State) : State :=
  mkState v (ad_start_time s) (last_majority_gender s)
    (last_ad_change_time s) (ad_history s) (mongo_db s) (local_analytics s)
    (demo_male_ads s) (demo_female_ads s) (demo_neutral_ads s)
    (male_ads s) (female_ads s) (neutral_ads s) (ads_dir s).

Definition set_ad_start_time (v : option Q) (s : State) : State :=
  mkState (current_ad s) v (last_majority_gender s)
    (last_ad_change_time s) (ad_history s) (mongo_db s) (local_analytics s)
    (demo_male_ads s) (demo_female_ads s) (demo_neutral_ads s)
    (male_ads s) (female_ads s) (neutral_ads s) (ads_dir s).

Definition set_last_majority_gender (v : option string) (s : State) : State :=
  mkState (current_ad s) (ad_start_time s) v
    (last_ad_change_time s) (ad_history s) (mongo_db s) (local_analytics s)
    (demo_male_ads s) (demo_female_ads s) (demo_neutral_ads s)
    (male_ads s) (female_ads s) (neutral_ads s) (ads_dir s).

Definition set_last_ad_change_time (v : Dict.t string Q) (s : State) : State :=
  mkState (current_ad s) (ad_start_time s) (last_majority_gender s)
    v (ad_history s) (mongo_db s) (local_analytics s)
    (demo_male_ads s) (demo_female_ads s) (demo_neutral_ads s)
    (male_ads s) (female_ads s) (neutral_ads s) (ads_dir s).

Definition set_ad_history (v : list HistoryEntry) (s : State) : State :=
  mkState (current_ad s) (ad_start_time s) (last_majority_gender s)
    (last_ad_change_time s) v (mongo_db s) (local_analytics s)
    (demo_male_ads s) (demo_female_ads s) (demo_neutral_ads s)
    (male_ads s) (female_ads s) (neutral_ads s) (ads_dir s).

Definition set_mongo_db (v : option Mongo) (s : State) : State :=
  mkState (current_ad s) (ad_start_time s) (last_majority_gender s)
    (last_ad_change_time s) (ad_history s) v (local_analytics s)
    (demo_male_ads s) (demo_female_ads s) (demo_neutral_ads s)
    (male_ads s) (female_ads s) (neutral_ads s) (ads_dir s).

Definition set_local_analytics (v : Dict.t string Doc) (s : State) : State :=
  mkState (current_ad s) (ad_start_time s) (last_majority_gender s)
    (last_ad_change_time s) (ad_history s) (mongo_db s) v
    (demo_male_ads s) (demo_female_ads s) (demo_neutral_ads s)
    (male_ads s) (female_ads s) (neutral_ads s) (ads_dir s).

(** The six catalogues an advertisement can be drawn from. *)
Inductive Catalog : Type :=
| MaleAds | FemaleAds | NeutralAds
| DemoMaleAds | DemoFemaleAds | DemoNeutralAds.

Definition catalog (c : Catalog) (s : State) : list Ad :=
  match c with
  | MaleAds => male_ads s
  | FemaleAds => female_ads s
  | NeutralAds => neutral_ads s
  | DemoMaleAds => demo_male_ads s
  | DemoFemaleAds => demo_female_ads s
  | DemoNeutralAds => demo_neutral_ads s
  end.

Definition set_catalog (c : Catalog) (v : list Ad) (s : State) : State :=
  match c with
  | MaleAds =>
      mkState (current_ad s) (ad_start_time s) (last_majority_gender s)
        (last_ad_change_time s) (ad_history s) (mongo_db s) (local_analytics s)
        (demo_male_ads s) (demo_female_ads s) (demo_neutral_ads s)
        v (female_ads s) (neutral_ads s) (ads_dir s)
  | FemaleAds =>
      mkState (current_ad s) (ad_start_time s) (last_majority_gender s)
        (last_ad_change_time s) (ad_history s) (mongo_db s) (local_analytics s)
        (demo_male_ads s) (demo_female_ads s) (demo_neutral_ads s)
        (male_ads s) v (neutral_ads s) (ads_dir s)
  | NeutralAds =>
      mkState (current_ad s) (ad_start_time s) (last_majority_gender s)
        (last_ad_change_time s) (ad_history s) (mongo_db s) (local_analytics s)
        (demo_male_ads s) (demo_female_ads s) (demo_neutral_ads s)
        (male_ads s) (female_ads s) v (ads_dir s)
  | DemoMaleAds =>
      mkState (current_ad s) (ad_start_time s) (last_majority_gender s)
        (last_ad_change_time s) (ad_history s) (mongo_db s) (local_analytics s)
        v (demo_female_ads s) (demo_neutral_ads s)
        (male_ads s) (female_ads s) (neutral_ads s) (ads_dir s)
  | DemoFemaleAds =>
      mkState (current_ad s) (ad_start_time s) (last_majority_gender s)
        (last_ad_change_time s) (ad_history s) (mongo_db s) (local_analytics s)
        (demo_male_ads s) v (demo_neutral_ads s)
        (male_ads s) (female_ads s) (neutral_ads s) (ads_dir s)
  | DemoNeutralAds =>
      mkState (current_ad s) (ad_start_time s) (last_majority_gender s)
        (last_ad_change_time s) (ad_history s) (mongo_db s) (local_analytics s)
        (demo_male_ads s) (demo_female_ads s) v
        (male_ads s) (female_ads s) (neutral_ads s) (ads_dir s)
  end.

(** Truth values: [None], an empty container and [0.0] are false. *)
Definition truthy_ad (a : option Ad) : bool :=
  match a with
  | Some (_ :: _) => true
  | _ => false
  end.

Definition truthy_time (t : option Q) : bool :=
  match t with
  | Some q => negb (Qeq_bool q 0)
  | None => false
  end.

Definition truthy_list {A} (l : list A) : bool :=
  match l with
  | [] => false
  | _ :: _ => true
  end.

Definition Qltb (x y : Q) : bool := negb (Qle_bool y x).

Definition get_default {V} (k : string) (dflt : V) (d : Dict.t string V) : V :=
  match Dict.get k d with
  | Some v => v
  | None => dflt
  end.

(** The second component returned by [should_show_ad]: [None], a gender
    or the current advertisement. *)
Inductive Target : Type :=
| TNone
| TGender (gender : string)
| TAd (ad : option Ad).

(** [should_show_ad(self, gender, counts)]; [current_time] is the reading
    of [time.time()]. *)
Definition should_show_ad (gender : string) (counts : Dict.t string Z)
  (current_time : Q) : M (bool * Target) :=
  s <~ self ;;
  let total := get_default "total" 0%Z counts in
  let male := get_default "male" 0%Z counts in
  let female := get_default "female" 0%Z counts in
  if (total =? 0)%Z then mret (false, TNone)
  else
    let cooldown :=
      match Dict.get gender (last_ad_change_time s) with
      | Some last =>
          let time_since := (current_time - last)%Q in
          if Qltb time_since Config.AD_TRIGGER_DELAY
          then mret (false, TNone)
          else mret (true, TGender gender)
      | None => mret (true, TGender gender)
      end in
    if truthy_ad (current_ad s) && truthy_time (ad_start_time s) then
      match ad_start_time s with
      | Some start =>
          let elapsed := (current_time - start)%Q in
          if Qltb elapsed Config.AD_DISPLAY_DURATION then
            if negb (match last_majority_gender s with
                     | Some g => String.eqb gender g
                     | None => false
                     end)
            then mret (true, TGender gender)
            else mret (false, TAd (current_ad s))
          else cooldown
      | None => cooldown
      end
    else cooldown.

(** The readings an operation takes from its environment, one per call
    site. *)
Inductive ClockSite : Type := AtAdStart | AtAdChange.

Inductive IsoSite : Type :=
| IsoCurrentAd
| IsoStoreLastDisplayed | IsoStoreCreatedAt
| IsoLocalNewLastDisplayed | IsoLocalNewCreatedAt
| IsoLocalLastDisplayed
| IsoHistory.

Record Env := mkEnv {
  randbelow : nat -> nat;          (* the draw of [random.choice] *)
  clock : ClockSite -> Q;          (* [time.time()] *)
  isoformat : IsoSite -> string;   (* [datetime.now().isoformat()] *)
  update_one : res unit            (* outcome of the store's [update_one] *)
}.

(** [random.choice(seq)] *)
Definition choice {A} (env : Env) (l : list A) : M (nat * A) :=
  match l with
  | [] => mraise IndexError
  | _ :: _ =>
      let i := Nat.modulo (randbelow env (List.length l)) (List.length l) in
      a <~ lift (index l i) ;; mret (i, a)
  end.

Fixpoint list_set {A} (l : list A) (i : nat) (a : A) : list A :=
  match l, i with
  | [], _ => []
  | _ :: r, O => a :: r
  | x :: r, S j => x :: list_set r j a
  end.

(** Lines 283-297 of [_track_ad_display]: the display is counted in
    [local_analytics]. *)
Definition track_in_memory (env : Env) (ad : Ad) : M unit :=
  let ad_id := get_default "id" "UNKNOWN" ad in
  let gender := get_default "gender" "neutral" ad in
  s <~ self ;;
  (if Dict.mem ad_id (local_analytics s) then mret tt
   else
     modify (fun s =>
       set_local_analytics
         (Dict.set ad_id
            {| doc_ad_id := Some ad_id;
               doc_ad_name := get_default "name" "Unknown" ad;
               doc_ad_path := get_default "path" "" ad;
               doc_ad_type := get_default "type" "image" ad;
               doc_gender := Some gender;
               doc_display_count := Some 0%Z;
               doc_last_displayed := isoformat env IsoLocalNewLastDisplayed;
               doc_created_at := isoformat env IsoLocalNewCreatedAt |}
            (local_analytics s)) s)) ;;;
  s <~ self ;;
  d <~ lift (Dict.item ad_id (local_analytics s)) ;;
  let count := match doc_display_count d with Some n => n | None => 0%Z end in
  modify (fun s =>
    set_local_analytics
      (Dict.set ad_id
         (mkDoc (doc_ad_id d) (doc_ad_name d) (doc_ad_path d)
            (doc_ad_type d) (doc_gender d) (Some (count + 1)%Z)
            (isoformat env IsoLocalLastDisplayed) (doc_created_at d))
         (local_analytics s)) s).

(** [_track_ad_display(self, ad)]: the store first, the memory when
    there is no store or when the store fails. *)
Definition track_ad_display (env : Env) (ad : Ad) : M unit :=
  mtry
    (s <~ self ;;
     stored <~
       match mongo_db s with
       | Some _ =>
           mtry (lift (update_one env) ;;; mret true)
                (fun mongo_error => mret false)
       | None => mret false
       end ;;
     if stored : bool then mret tt else track_in_memory env ad)
    (fun e => mret tt).

(** The first part of [select_ad]: which catalogue the draw is made
    from. *)
Definition choose_catalog (gender : string) (s : State) : Catalog :=
  let c :=
    if String.eqb gender "male" then
      if truthy_list (male_ads s) then MaleAds else DemoMaleAds
    else if String.eqb gender "female" then
      if truthy_list (female_ads s) then FemaleAds else DemoFemaleAds
    else
      if truthy_list (neutral_ads s) then NeutralAds else DemoNeutralAds in
  if truthy_list (catalog c s) then c else DemoNeutralAds.

(** [select_ad(self, gender)].  An entry without ['id'] receives one in
    place, in the catalogue it was drawn from. *)
Definition select_ad (env : Env) (gender : string) : M Ad :=
  s <~ self ;;
  let c := choose_catalog gender s in
  '(i, selected) <~ choice env (catalog c s) ;;
  selected <~
    (if Dict.mem "id" selected then mret selected
     else
       let ad_name_clean :=
         PyStr.upper
           (PyStr.replace "'" ""
              (PyStr.replace " " "_" (get_default "name" "UNKNOWN" selected))) in
       let selected' :=
         Dict.set "id" (PyStr.upper gender ++ "_" ++ ad_name_clean)%string selected in
       modify (fun s => set_catalog c (list_set (catalog c s) i selected') s) ;;;
       mret selected') ;;
  let ad :=
    Dict.set "timestamp" (isoformat env IsoCurrentAd)
      (Dict.set "gender" gender selected) in
  modify (set_current_ad (Some ad)) ;;;
  modify (set_ad_start_time (Some (clock env AtAdStart))) ;;;
  modify (fun s =>
    set_last_ad_change_time
      (Dict.set gender (clock env AtAdChange) (last_ad_change_time s)) s) ;;;
  modify (set_last_majority_gender (Some gender)) ;;;
  mtry (track_ad_display env ad) (fun e => mret tt) ;;;
  modify (fun s =>
    set_ad_history
      (ad_history s ++ [mkHistoryEntry ad (isoformat env IsoHistory)]) s) ;;;
  modify (fun s =>
    if 100 <? List.length (ad_history s)
    then set_ad_history (tl (ad_history s)) s else s) ;;;
  mret ad.

(** [get_current_ad(self)]; [now] is the reading of [time.time()]. *)
Definition get_current_ad (now : Q) : M (option Ad) :=
  s <~ self ;;
  let fall_through := (s <~ self ;; mret (current_ad s)) in
  if truthy_ad (current_ad s) && truthy_time (ad_start_time s) then
    match ad_start_time s with
    | Some start =>
        let elapsed := (now - start)%Q in
        if Qltb elapsed Config.AD_DISPLAY_DURATION then mret (current_ad s)
        else
          modify (set_current_ad None) ;;;
          modify (set_ad_start_time None) ;;;
          fall_through
    | None => fall_through
    end
  else fall_through.

(** [clear_ad(self)] *)
Definition clear_ad : M unit :=
  modify (set_current_ad None) ;;;
  modify (set_ad_start_time None).

(** [get_ad_history(self, limit=20)]: [self.ad_history[-limit:]]. *)
Definition get_ad_history (limit : nat) (s : State) : list HistoryEntry :=
  match limit with
  | O => ad_history s
  | S _ => skipn (List.length (ad_history s) - limit) (ad_history s)
  end.

Record Stats := mkStats {
  total_ads_shown : nat;
  male_ads_shown : nat;
  female_ads_shown : nat;
  available_male_ads : nat;
  available_female_ads : nat;
  available_neutral_ads : nat;
  stats_current_ad : option Ad
}.

Definition history_gender_is (g : string) (h : HistoryEntry) : bool :=
  String.eqb (PyStr.lower (get_default "gender" "" (history_ad h))) g.

(** [get_stats(self)] *)
Definition get_stats (s : State) : Stats :=
  {| total_ads_shown := List.length (ad_history s);
     male_ads_shown := List.length (filter (history_gender_is "male") (ad_history s));
     female_ads_shown := List.length (filter (history_gender_is "female") (ad_history s));
     available_male_ads := List.length (male_ads s);
     available_female_ads := List.length (female_ads s);
     available_neutral_ads := List.length (neutral_ads s);
     stats_current_ad := current_ad s |}.

(** *** Analytics read *)

Definition display_count (d : Doc) : Z :=
  match doc_display_count d with
  | Some n => n
  | None => 0%Z
  end.

Definition set_display_count (n : Z) (d : Doc) : Doc :=
  mkDoc (doc_ad_id d) (doc_ad_name d) (doc_ad_path d) (doc_ad_type d)
    (doc_gender d) (Some n) (doc_last_displayed d) (doc_created_at d).

Definition doc_key (d : Doc) : string :=
  match doc_ad_id d with
  | Some k => k
  | None => "UNKNOWN"
  end.

(** Lines 357-359: the documents read from the store, keyed by ad id. *)
Definition add_store_doc (all_ads_dict : Dict.t string Doc) (ad : Doc)
  : Dict.t string Doc :=
  Dict.set (doc_key ad) ad all_ads_dict.

(** Lines 362-370: one entry of [local_analytics.items()]. *)
Definition merge_local (all_ads_dict : Dict.t string Doc)
  (item : string * Doc) : Dict.t string Doc :=
  let (ad_id, ad_data) := item in
  match Dict.get ad_id all_ads_dict with
  | Some ad =>
      Dict.set ad_id
        (set_display_count (Z.max (display_count ad) (display_count ad_data)) ad)
        all_ads_dict
  | None => Dict.set ad_id ad_data all_ads_dict
  end.

Definition merged (mongo_ads : list Doc) (local : Dict.t string Doc)
  : Dict.t string Doc :=
  fold_left merge_local local (fold_left add_store_doc mongo_ads []).

Definition doc_gender_is (g : string) (d : Doc) : bool :=
  String.eqb
    (PyStr.lower (match doc_gender d with Some x => x | None => "" end)) g.

(** [l.sort(key=lambda x: x.get('display_count', 0), reverse=True)]: a
    stable sort, largest count first. *)
Fixpoint insert_desc (x : Doc) (l : list Doc) : list Doc :=
  match l with
  | [] => [x]
  | y :: r =>
      if (display_count y <=? display_count x)%Z then x :: l
      else y :: insert_desc x r
  end.

Definition sort_desc (l : list Doc) : list Doc :=
  fold_right insert_desc [] l.

Definition sum_counts (l : list Doc) : Z :=
  fold_left (fun acc d => (acc + display_count d)%Z) l 0%Z.

(** Lines 392-394: a missing count is written as [0]. *)
Definition ensure_count (d : Doc) : Doc :=
  match doc_display_count d with
  | Some _ => d
  | None => set_display_count 0 d
  end.

Record Analytics := mkAnalytics {
  analytics_male_ads : list Doc;
  analytics_female_ads : list Doc;
  analytics_neutral_ads : list Doc;
  total_displays : Z;
  male_total : Z;
  female_total : Z;
  most_displayed : list Doc
}.

(** The report of the outer [except] (lines 405-414). *)
Definition empty_analytics : Analytics :=
  {| analytics_male_ads := [];
     analytics_female_ads := [];
     analytics_neutral_ads := [];
     total_displays := 0%Z;
     male_total := 0%Z;
     female_total := 0%Z;
     most_displayed := [] |}.

(** Lines 346-352: the documents read from the store.  [truth] is the
    outcome of the truth test of the handle in [if self.mongo_db:]:
    pymongo's [Database] raises there and asks to be compared with
    [None], which lines 27 and 260 do and line 347 does not; [None]
    itself is false.  [find] is the outcome of
    [self.mongo_db.ad_analytics.find()], whose exceptions the inner
    [try] catches. *)
Definition read_store (truth : res bool) (find : res (list Doc)) (s : State)
  : res (list Doc) :=
  present <- match mongo_db s with
             | Some _ => truth
             | None => ret false
             end ;;
  if present then
    ret (match find with
         | inr docs => docs
         | inl e => []
         end)
  else ret [].

(** Lines 354-403: the report over the documents read. *)
Definition report (mongo_ads : list Doc) (s : State) : Analytics :=
  let all_ads_dict := merged mongo_ads (local_analytics s) in
  let all_ads_list := Dict.values all_ads_dict in
  let male_ads := sort_desc (filter (doc_gender_is "male") all_ads_list) in
  let female_ads := sort_desc (filter (doc_gender_is "female") all_ads_list) in
  let neutral_ads := sort_desc (filter (doc_gender_is "neutral") all_ads_list) in
  {| analytics_male_ads := map ensure_count male_ads;
     analytics_female_ads := map ensure_count female_ads;
     analytics_neutral_ads := map ensure_count neutral_ads;
     total_displays := sum_counts all_ads_list;
     male_total := sum_counts male_ads;
     female_total := sum_counts female_ads;
     most_displayed := map ensure_count (firstn 10 (sort_desc all_ads_list)) |}.

(** [get_ad_analytics(self)]: an exception that escapes the inner [try]
    reaches the outer one, which returns the empty report. *)
Definition get_ad_analytics (truth : res bool) (find : res (list Doc))
  (s : State) : Analytics :=
  match read_store truth find s with
  | inr mongo_ads => report mongo_ads s
  | inl e => empty_analytics
  end.

(** *** Construction *)

Definition demo_ad (id path name description : string) : Ad :=
  [("id", id); ("path", path); ("type", "image"); ("name", name);
   ("description", description)].

Definition builtin_demo_male_ads : list Ad :=
  [ demo_ad "MALE_001"
      "https://images.unsplash.com/photo-1542291026-7eec264c27ff?w=800"
      "Men's Premium Shoes Collection"
      "Sports shoes, formal shoes, sneakers - Up to 50% OFF";
    demo_ad "MALE_002"
      "https://images.unsplash.com/photo-1521572163474-6864f9cf17ab?w=800"
      "Men's Fashion Pants & Jeans"
      "Denim, chinos, formal trousers - Latest styles";
    demo_ad "MALE_003"
      "https://images.unsplash.com/photo-1523381294911-8d3cead13475?ixlib=rb-4.1.0&ixid=M3wxMjA3fDB8MHxzZWFyY2h8OHx8TWVuJTVDJ3MlMjBTaGlydHMlMjAlMjYlMjBULVNoaXJ0c3xlbnwwfHwwfHx8MA%3D%3D&fm=jpg&q=60&w=3000"
      "Men's Shirts & T-Shirts"
      "Casual shirts, formal shirts, polo tees - All sizes available";
    demo_ad "MALE_004"
      "https://images.unsplash.com/photo-1523275335684-37898b6baf30?w=800"
      "Men's Watches & Accessories"
      "Premium watches, belts, wallets - Luxury collection" ].

Definition builtin_demo_female_ads : list Ad :=
  [ demo_ad "FEMALE_001"
      "https://images.unsplash.com/photo-1548036328-c9fa89d128fa?w=800"
      "Women's Handbags & Purses"
      "Designer bags, clutches, totes - Fashion collection";
    demo_ad "FEMALE_002"
      "https://images.unsplash.com/photo-1515562141207-7a88fb7ce338?w=800"
      "Women's Jewelry Collection"
      "Necklaces, earrings, bracelets - Elegant pieces";
    demo_ad "FEMALE_003"
      "https://images.unsplash.com/photo-1543163521-1bf539c55dd2?w=800"
      "Women's Footwear"
      "Heels, flats, sandals, boots - Latest trends";
    demo_ad "FEMALE_004"
      "https://images.unsplash.com/photo-1596462502278-27bfdc403348?w=800"
      "Beauty & Cosmetics"
      "Makeup, skincare, perfumes - Premium brands";
    demo_ad "FEMALE_005"
      "https://images.unsplash.com/photo-1594633312681-425c7b97ccd1?w=800"
      "Women's Fashion Accessories"
      "Scarves, sunglasses, fashion jewelry - Complete collection" ].

Definition builtin_demo_neutral_ads : list Ad :=
  [ demo_ad "NEUTRAL_001"
      "https://images.unsplash.com/photo-1557683316-973673baf926?w=800"
      "Mall Special Promotions"
      "Weekend sales, special discounts - Shop now!";
    demo_ad "NEUTRAL_002"
      "https://images.unsplash.com/photo-1441986300917-64674bd600d8?w=800"
      "Food Court Offers"
      "Special meals, discounts on dining - Visit now!" ].

(** What [_load_ads] sees of the file system. *)
Record FsView := mkFsView {
  ads_dir_exists : bool;                    (* [os.path.exists(self.ads_dir)] *)
  gender_dir_exists : string -> bool;       (* [os.path.exists(gender_path)] *)
  listdir : string -> res (list string);    (* [os.listdir(gender_path)] *)
  makedirs : string -> res unit             (* [os.makedirs(..., exist_ok=True)] *)
}.

Definition media_suffixes : list string :=
  [".mp4"; ".webm"; ".jpg"; ".jpeg"; ".png"; ".gif"].

(** Lines 148-158: the advertisement built from one file name, if any. *)
Definition load_file (gender_dir file : string) : option Ad :=
  if PyStr.startswith "." file
     || PyStr.endswith_any [".txt"; ".md"] (PyStr.lower file)
  then None
  else if PyStr.endswith_any media_suffixes (PyStr.lower file) then
    Some
      [("id",
        (PyStr.upper gender_dir ++ "_" ++
         PyStr.upper (PyStr.replace " " "_" (PyStr.replace "." "_" file)))%string);
       ("path", ("/static/ads/" ++ gender_dir ++ "/" ++ file)%string);
       ("type",
        if PyStr.endswith_any [".mp4"; ".webm"] (PyStr.lower file)
        then "video" else "image");
       ("name",
        PyStr.title
          (PyStr.replace ".jpg" ""
             (PyStr.replace ".webm" ""
                (PyStr.replace ".mp4" "" (PyStr.replace "_" " " file)))))]
  else None.

Definition load_files (gender_dir : string) (files : list string) : list Ad :=
  flat_map (fun file => match load_file gender_dir file with
                        | Some ad => [ad]
                        | None => []
                        end) files.

Definition load_gender_dir (fs : FsView) (gender_dir : string) : M unit :=
  if gender_dir_exists fs gender_dir then
    files <~ lift (listdir fs gender_dir) ;;
    let ads := load_files gender_dir files in
    if String.eqb gender_dir "male" then modify (set_catalog MaleAds ads)
    else if String.eqb gender_dir "female" then modify (set_catalog FemaleAds ads)
    else modify (set_catalog NeutralAds ads)
  else mret tt.

(** [_load_ads(self)] *)
Definition load_ads (fs : FsView) : M unit :=
  mtry
    (if ads_dir_exists fs then
       load_gender_dir fs "male" ;;;
       load_gender_dir fs "female" ;;;
       load_gender_dir fs "neutral"
     else
       lift (makedirs fs "male") ;;;
       lift (makedirs fs "female") ;;;
       lift (makedirs fs "neutral"))
    (fun e => mret tt).

(** [__init__(self, mongo_db=None)]; [find_one] is the outcome of the
    connection check, [config_ads_dir] is [config.ADS_DIR]. *)
Definition init (mongo_db : option Mongo) (find_one : res unit)
  (config_ads_dir : string) (fs : FsView) : State :=
  let s0 :=
    {| current_ad := None;
       ad_start_time := None;
       last_majority_gender := None;
       last_ad_change_time := [];
       ad_history := [];
       mongo_db :=
         match mongo_db with
         | Some db =>
             match find_one with
             | inr _ => Some db
             | inl e => None
             end
         | None => None
         end;
       local_analytics := [];
       demo_male_ads := builtin_demo_male_ads;
       demo_female_ads := builtin_demo_female_ads;
       demo_neutral_ads := builtin_demo_neutral_ads;
       male_ads := [];
       female_ads := [];
       neutral_ads := [];
       ads_dir := config_ads_dir |} in
  let s1 := snd (load_ads fs s0) in
  let s2 := if truthy_list (male_ads s1) then s1
            else set_catalog MaleAds (demo_male_ads s1) s1 in
  let s3 := if truthy_list (female_ads s2) then s2
            else set_catalog FemaleAds (demo_female_ads s2) s2 in
  if truthy_list (neutral_ads s3) then s3
  else set_catalog NeutralAds (demo_neutral_ads s3) s3.

End AdManager.

(** ** app.py *)

Module App.
Import AdManager.

(** Lines 101-112 of [background_thread]: the majority gender, when
    somebody is counted. *)
Definition majority_gender (counts : Dict.t string Z) : option string :=
  let total := get_default "total" 0%Z counts in
  let male := get_default "male" 0%Z counts in
  let female := get_default "female" 0%Z counts in
  if (0 <? total)%Z then
    if (female <? male)%Z then Some "male"
    else if (male <? female)%Z then Some "female"
    else if (0 <? male)%Z then Some "male" else Some "neutral"
  else None.

(** Lines 114-116: the decision and, on a positive signal, the
    selection. *)
Definition ad_logic (env : Env) (current_time : Q) (counts : Dict.t string Z)
  : M (option Ad) :=
  match majority_gender counts with
  | Some ad_gender =>
      '(should_show, target) <~ should_show_ad ad_gender counts current_time ;;
      match should_show, target with
      | true, TGender g =>
          if negb (String.eqb g "") then
            ad <~ select_ad env g ;; mret (Some ad)
          else mret None
      | _, _ => mret None
      end
  | None => mret None
  end.

End App.

(** ** camera.py: boxes and frames *)

Module VideoCamera.
Import Tracker.

(** Lines 146-155 of [_detect_faces_dnn]: the face kept for a detection
    whose confidence passes the threshold.  [box] is
    [(startX, startY, endX, endY)], scaled to the [w] x [h] image and
    truncated by [astype("int")]. *)
Definition face_of_box (w h : Z) (box : Z * Z * Z * Z) : option BBox :=
  let '(startX, startY, endX, endY) := box in
  let startX := Z.max 0 startX in
  let startY := Z.max 0 startY in
  let endX := Z.min w endX in
  let endY := Z.min h endY in
  if ((10 <? endX - startX) && (10 <? endY - startY))%Z
  then Some (startX, startY, endX - startX, endY - startY)%Z
  else None.

(** Lines 141-156: the faces of the confident detections, in the order of
    the detections. *)
Definition detect_faces_dnn (w h : Z) (boxes : list (Z * Z * Z * Z))
  : list BBox :=
  flat_map (fun box => match face_of_box w h box with
                       | Some face => [face]
                       | None => []
                       end) boxes.




Definition Counts := Dict.t string Z.

(** The fields of [VideoCamera] that [get_frame] reads and writes, the
    capture apart. *)
Record VideoCamera := mkCamera {
  tracker : EuclideanDistTracker;
  frame_skip_counter : nat;
  last_detection_counts : Counts
}.

(** [self.detection_frame_skip = 2], assigned once in [__init__]. *)
Definition detection_frame_skip : nat := 2.

(** [__init__] *)
Definition init : VideoCamera :=
  mkCamera Camera.tracker 0 [("total", 0%Z); ("male", 0%Z); ("female", 0%Z)].

(** [reinitialize(self)]: counter, counts and tracker start afresh. *)
Definition reinitialize (c : VideoCamera) : VideoCamera :=
  mkCamera (Tracker.init 50 150) 0
    [("total", 0%Z); ("male", 0%Z); ("female", 0%Z)].

(** What the capture and the networks deliver to one call of
    [get_frame]: no opened capture, no frame, or a frame with the
    detections lines 201-307 compute on it (or the exception they
    raise) and its JPEG encoding (if it succeeds). *)
Inductive Shot : Type :=
| NoCapture
| NoFrame
| Frame (detections : res (list Rect)) (jpeg : option string).

(** [get_frame(self)]: the bytes and the counts returned, or the
    exception raised, and the camera afterwards.  The boxes and labels
    drawn on the frame belong to the image and are left out.  [update]
    works on the tracker in place; the embedding keeps the tracker as it
    was when [update] raises, which it does not on a tracker it built
    itself ([update_ok]). *)
Definition get_frame (shot : Shot) (c : VideoCamera)
  : res (option string * Counts) * VideoCamera :=
  match shot with
  | NoCapture => (ret (None, []), c)
  | NoFrame => (ret (None, []), c)
  | Frame detections jpeg =>
      let c1 := mkCamera (tracker c) (S (frame_skip_counter c))
                  (last_detection_counts c) in
      let should_detect :=
        Nat.modulo (frame_skip_counter c1) detection_frame_skip =? 0 in
      if should_detect then
        match detections with
        | inl e => (raise e, c1)
        | inr rects =>
            match update rects (tracker c1) with
            | inl e => (raise e, c1)
            | inr t' =>
                let counts := Camera.count_objects (objects t') in
                (ret (jpeg, counts),
                 mkCamera t' (frame_skip_counter c1) counts)
            end
        end
      else (ret (jpeg, last_detection_counts c1), c1)
  end.

End VideoCamera.

(** ** app.py: the analytics of the background thread *)

Module Background.
Import AdManager.

(** One element of [analytics_data['detection_history']]. *)
Record Detection := mkDetection {
  detection_total : Z;
  detection_male : Z;
  detection_female : Z;
  detection_timestamp : string
}.

Record AnalyticsData := mkAnalyticsData {
  total_detections : Z;
  male_detections : Z;
  female_detections : Z;
  peak_count : Z;
  detection_history : list Detection
}.

(** The module-level [analytics_data]. *)
Definition analytics_data : AnalyticsData := mkAnalyticsData 0 0 0 0 [].

(** Lines 82-95 of [background_thread]: the analytics of one frame;
    [now] is [datetime.now().isoformat()]. *)
Definition update_analytics (counts : Dict.t string Z) (now : string)
  (a : AnalyticsData) : AnalyticsData :=
  let history :=
    detection_history a
    ++ [mkDetection (get_default "total" 0%Z counts)
          (get_default "male" 0%Z counts)
          (get_default "female" 0%Z counts) now] in
  mkAnalyticsData
    (total_detections a + 1)
    (male_detections a + get_default "male" 0%Z counts)
    (female_detections a + get_default "female" 0%Z counts)
    (Z.max (peak_count a) (get_default "total" 0%Z counts))
    (if 50 <? List.length history then tl history else history).

End Background.

(** * Specification vocabulary *)

Module TrackerSpec.
Import Tracker.

(** The three dictionaries of the tracker hold the same identifiers, in
    the same order. *)
Definition in_sync (t : EuclideanDistTracker) : Prop :=
  Dict.keys (disappeared t) = Dict.keys (objects t)
  /\ Dict.keys (history t) = Dict.keys (objects t).

(** Live identifiers are pairwise distinct and below the next identifier
    to be handed out. *)
Definition wf (t : EuclideanDistTracker) : Prop :=
  in_sync t
  /\ NoDup (Dict.keys (objects t))
  /\ Forall (fun k => k < next_object_id t) (Dict.keys (objects t)).

(** [wf], a property [P] of every live track and the ageing bound. *)
Definition Inv (P : Obj -> Prop) (t : EuclideanDistTracker) : Prop :=
  wf t
  /\ Forall (fun e => P (snd e)) (objects t)
  /\ Forall (fun e => snd e <= max_disappeared t) (disappeared t).

(** What an operation may do to the set of identifiers: keep the
    parameters, never lower the next identifier, and add only
    identifiers that were not handed out before. *)
Definition extends (t t' : EuclideanDistTracker) : Prop :=
  max_disappeared t' = max_disappeared t
  /\ max_distance t' = max_distance t
  /\ next_object_id t <= next_object_id t'
  /\ (forall k, In k (Dict.keys (objects t')) ->
                In k (Dict.keys (objects t)) \/ next_object_id t <= k).

Definition live (id : nat) (t : EuclideanDistTracker) : Prop :=
  In id (Dict.keys (objects t)).

(** *** Data association *)

(** The distance matrix [update] computes for a frame: one row per live
    track, one column per observation, squared distances. *)
Definition distances (t : EuclideanDistTracker) (rects : list Rect)
  : list (list Z) :=
  dist (map centroid (Dict.values (objects t)))
       (map (fun r => centroid_of (rect_bbox r)) rects).

Definition entry (D : list (list Z)) (r c : nat) : Z :=
  nth c (nth r D []) 0%Z.

(** The greedy processing of a list of candidate pairs, in the order of
    the list: a pair is accepted when neither its track nor its
    observation is matched yet and the distance does not exceed
    [max_distance]. *)
Fixpoint greedy (max_distance : Z) (D : list (list Z))
  (candidates : list (nat * nat)) (used_rows used_cols : list nat)
  : list (nat * nat) :=
  match candidates with
  | [] => []
  | (r, c) :: rest =>
      if in_set r used_rows || in_set c used_cols
      then greedy max_distance D rest used_rows used_cols
      else if exceeds max_distance (entry D r c)
      then greedy max_distance D rest used_rows used_cols
      else (r, c) :: greedy max_distance D rest (r :: used_rows) (c :: used_cols)
  end.

(** The candidates of the specification: all (track, observation) pairs,
    sorted ascending by distance. *)
Definition all_pairs (D : list (list Z)) : list (nat * nat) :=
  flat_map (fun r => map (pair r) (seq 0 (List.length (nth r D []))))
           (seq 0 (List.length D)).

Fixpoint insert_pair (D : list (list Z)) (p : nat * nat) (l : list (nat * nat))
  : list (nat * nat) :=
  match l with
  | [] => [p]
  | q :: r =>
      if (entry D (fst p) (snd p) <=? entry D (fst q) (snd q))%Z
      then p :: l else q :: insert_pair D p r
  end.

Definition sorted_pairs (D : list (list Z)) : list (nat * nat) :=
  fold_right (insert_pair D) [] (all_pairs D).

Definition spec_association (max_distance : Z) (D : list (list Z))
  : list (nat * nat) :=
  greedy max_distance D (sorted_pairs D) [] [].

(** The candidates of the code: every track paired with its nearest
    observation (the first one, among equally near ones), tracks in
    ascending order of that distance (in dictionary order, among equally
    distant ones). *)
Definition row_min (row : list Z) : Z :=
  match amin row with
  | inr m => m
  | inl _ => 0%Z
  end.

Definition nearest_in (row : list Z) : nat :=
  match argmin row with
  | inr c => c
  | inl _ => 0
  end.

Definition nearest (D : list (list Z)) (r : nat) : nat :=
  nearest_in (nth r D []).

Definition nearest_pairs (D : list (list Z)) : list (nat * nat) :=
  map (fun r => (r, nearest D r)) (argsort (map row_min D)).

Definition code_association (max_distance : Z) (D : list (list Z))
  : list (nat * nat) :=
  greedy max_distance D (nearest_pairs D) [] [].

(** The track a newly registered observation becomes. *)
Definition new_track (r : Rect) : Obj :=
  mkObj (centroid_of (rect_bbox r)) (rect_bbox r) (rect_gender r)
        (rect_confidence r) [rect_gender r] 1.

(** What [update] does to the track of row [r] when the pair [(r, c)]
    is accepted. *)
Definition track_updated (t : EuclideanDistTracker) (rects : list Rect)
  (t' : EuclideanDistTracker) (r c : nat) : Prop :=
  exists id o rect o',
    nth_error (Dict.keys (objects t)) r = Some id
    /\ Dict.get id (objects t) = Some o
    /\ nth_error rects c = Some rect
    /\ apply_match (centroid_of (rect_bbox rect)) rect o = inr o'
    /\ Dict.get id (objects t') = Some o'
    /\ Dict.get id (disappeared t') = Some 0.

(** What [update] does to an unmatched track. *)
Definition track_aged (t t' : EuclideanDistTracker) (id : nat) : Prop :=
  exists d,
    Dict.get id (disappeared t) = Some d
    /\ if max_disappeared t <? S d
       then ~ live id t'
       else Dict.get id (objects t') = Dict.get id (objects t)
            /\ Dict.get id (disappeared t') = Some (S d).

(** The unmatched observations, in the order they are registered. *)
Definition unmatched_cols (rects : list Rect) (M : list (nat * nat))
  : list nat :=
  unused (List.length rects) (map snd M).

(** What [update] does with the unmatched observations: the [k]-th one
    becomes the track of identifier [next_object_id + k]. *)
Definition observations_registered (t : EuclideanDistTracker)
  (rects : list Rect) (t' : EuclideanDistTracker) (M : list (nat * nat))
  : Prop :=
  next_object_id t'
  = next_object_id t + List.length (unmatched_cols rects M)
  /\ forall k c,
       nth_error (unmatched_cols rects M) k = Some c ->
       exists rect,
         nth_error rects c = Some rect
         /\ Dict.get (next_object_id t + k) (objects t') = Some (new_track rect)
         /\ Dict.get (next_object_id t + k) (disappeared t') = Some 0.

(** Two people side by side, then the left one a step to the right and
    the right one well to the right. *)
Definition side_by_side : list Rect :=
  [mkRect (0, 0, 10, 10)%Z "Male" (9 # 10);
   mkRect (20, 0, 10, 10)%Z "Female" (9 # 10)].

Definition moved_apart : list Rect :=
  [mkRect (5, 0, 10, 10)%Z "Male" (9 # 10);
   mkRect (95, 0, 10, 10)%Z "Female" (9 # 10)].

(** The tracker of the camera after the frame [side_by_side]. *)
Definition tracked_side_by_side : EuclideanDistTracker :=
  mkTracker 2
    [(0, mkObj (5, 5)%Z (0, 0, 10, 10)%Z "Male" (9 # 10) ["Male"] 1);
     (1, mkObj (25, 5)%Z (20, 0, 10, 10)%Z "Female" (9 # 10) ["Female"] 1)]
    [(0, 0); (1, 0)]
    [(0, [(5, 5)%Z]); (1, [(25, 5)%Z])]
    50 150.

(** *** The gender vote *)

(** Number of occurrences of a label in a history. *)
Definition count (x : string) (h : list string) : nat :=
  count_occ string_dec h x.

(** The label the code votes for: [Counter(h).most_common(1)[0][0]]. *)
Definition voted (h : list string) : option string :=
  option_map fst (hd_error (most_common_1 (Counter h))).

(** The labels of a history in order of first occurrence. *)
Fixpoint dedup (h : list string) : list string :=
  match h with
  | [] => []
  | x :: r => x :: filter (fun y => negb (String.eqb y x)) (dedup r)
  end.

(** [g] is the mode of [h], ties going to the label that occurs first:
    no label occurs more often than [g], and every label met before the
    first occurrence of [g] occurs strictly less often. *)
Definition is_mode (g : string) (h : list string) : Prop :=
  (forall x, count x h <= count g h)
  /\ exists pre post,
       h = pre ++ g :: post
       /\ ~ In g pre
       /\ forall x, In x pre -> count x h < count g h.

(** The tie-break of the specification, "first to reach the maximal
    count": scanning the history, the label whose running count first
    equals the largest count of the whole history. *)
Definition max_count (h : list string) : nat :=
  fold_right (fun x acc => Nat.max (count x h) acc) 0 h.

Fixpoint first_to_reach_from (m : nat) (seen rest : list string)
  : option string :=
  match rest with
  | [] => None
  | x :: r =>
      if count x (x :: seen) =? m then Some x
      else first_to_reach_from m (x :: seen) r
  end.

Definition mode_first_to_reach (h : list string) : option string :=
  first_to_reach_from (max_count h) [] h.

(** A track is counted under label [g] when it is confirmed by at least
    10 hits and currently carries that label. *)
Definition confirmed_as (g : string) (o : Obj) : bool :=
  (10 <=? hits o) && String.eqb (gender o) g.

Definition confirmed_count (g : string) (objs : Dict.t nat Obj) : Z :=
  Z.of_nat (List.length (filter (fun e => confirmed_as g (snd e)) objs)).

(** The property of a live track that the vote maintains. *)
Definition voted_track (o : Obj) : Prop :=
  List.length (gender_history o) <= 20
  /\ voted (gender_history o) = Some (gender o).

End TrackerSpec.

Module AdManagerSpec.
Import AdManager.

(** An advertisement that carries an ['id'] carries a non-empty one. *)
Definition id_ok (ad : Ad) : bool :=
  match Dict.get "id" ad with
  | Some id => negb (String.eqb id "")
  | None => true
  end.

Definition all_catalogs : list Catalog :=
  [MaleAds; FemaleAds; NeutralAds; DemoMaleAds; DemoFemaleAds; DemoNeutralAds].

(** The condition under which a draw is possible: no catalogue entry has
    an empty ['id'] and the neutral demo catalogue is not empty. *)
Definition selectable (s : State) : bool :=
  forallb (fun c => forallb id_ok (catalog c s)) all_catalogs
  && truthy_list (demo_neutral_ads s).

(** The index [random.choice] draws in a non-empty list. *)
Definition drawn {A} (env : Env) (l : list A) : nat :=
  Nat.modulo (randbelow env (List.length l)) (List.length l).

(** The identifier [select_ad] gives to an entry that has none. *)
Definition generated_id (gender : string) (selected : Ad) : string :=
  (PyStr.upper gender ++ "_" ++
   PyStr.upper
     (PyStr.replace "'" ""
        (PyStr.replace " " "_" (get_default "name" "UNKNOWN" selected))))%string.

Definition with_id (gender : string) (selected : Ad) : Ad :=
  if Dict.mem "id" selected then selected
  else Dict.set "id" (generated_id gender selected) selected.

(** The record [select_ad] returns for a catalogue entry. *)
Definition shown (env : Env) (gender : string) (selected : Ad) : Ad :=
  Dict.set "timestamp" (isoformat env IsoCurrentAd)
    (Dict.set "gender" gender (with_id gender selected)).

(** The fallback chain of a gender: local inventory, demo catalogue of
    the gender, neutral demo catalogue. *)
Definition fallback_chain (gender : string) : list Catalog :=
  if String.eqb gender "male" then [MaleAds; DemoMaleAds; DemoNeutralAds]
  else if String.eqb gender "female" then [FemaleAds; DemoFemaleAds; DemoNeutralAds]
  else [NeutralAds; DemoNeutralAds; DemoNeutralAds].

Definition first_nonempty (chain : list Catalog) (s : State) : option Catalog :=
  find (fun c => truthy_list (catalog c s)) chain.

(** The current advertisement and its start time are set and cleared
    together; an advertisement is never the empty dictionary and the
    clock reads a positive time. *)
Definition coherent (s : State) : Prop :=
  match current_ad s, ad_start_time s with
  | None, None => True
  | Some ad, Some start => ad <> [] /\ (0 < start)%Q
  | _, _ => False
  end.

(** [local_analytics] files every document under its own ['ad_id']. *)
Definition local_ok (s : State) : Prop :=
  NoDup (Dict.keys (local_analytics s))
  /\ Forall (fun e => doc_ad_id (snd e) = Some (fst e)) (local_analytics s).

Definition positive_clock (env : Env) : Prop :=
  forall site, (0 < clock env site)%Q.

(** The states the manager can be in: built by [__init__], then changed
    by its methods; the clock reads positive times. *)
Inductive reachable : State -> Prop :=
| reach_init mongo find_one dir fs :
    reachable (init mongo find_one dir fs)
| reach_should_show_ad s gender counts now :
    reachable s -> reachable (snd (should_show_ad gender counts now s))
| reach_select_ad s env gender :
    reachable s -> positive_clock env ->
    reachable (snd (select_ad env gender s))
| reach_get_current_ad s now :
    reachable s -> reachable (snd (get_current_ad now s))
| reach_clear_ad s :
    reachable s -> reachable (snd (clear_ad s)).

(** The public operations of the manager, with their inputs. *)
Inductive Op : Type :=
| OpShouldShowAd (gender : string) (counts : Dict.t string Z) (now : Q)
| OpSelectAd (env : Env) (gender : string)
| OpGetCurrentAd (now : Q)
| OpClearAd
| OpGetAdHistory (limit : nat)
| OpGetStats
| OpGetAdAnalytics (find : res (list Doc)).

Definition is_select_ad (op : Op) : bool :=
  match op with
  | OpSelectAd _ _ => true
  | _ => false
  end.

(** The state an operation leaves. *)
Definition state_after (op : Op) (s : State) : State :=
  match op with
  | OpShouldShowAd gender counts now => snd (should_show_ad gender counts now s)
  | OpSelectAd env gender => snd (select_ad env gender s)
  | OpGetCurrentAd now => snd (get_current_ad now s)
  | OpClearAd => snd (clear_ad s)
  | OpGetAdHistory _ => s
  | OpGetStats => s
  | OpGetAdAnalytics _ => s
  end.

(** The documents an analytics read shows. *)
Definition reported (a : Analytics) : list Doc :=
  analytics_male_ads a ++ analytics_female_ads a ++ analytics_neutral_ads a
  ++ most_displayed a.

(** The merged documents of an analytics read: those of the store and of
    the memory, and none when the read gives up. *)
Definition merged_docs (truth : res bool) (find : res (list Doc)) (s : State)
  : list Doc :=
  match read_store truth find s with
  | inr docs => Dict.values (merged docs (local_analytics s))
  | inl _ => []
  end.

(** The list of an analytics read that shows the documents of a
    gender. *)
Definition bucket (g : string) (a : Analytics) : list Doc :=
  if String.eqb g "male" then analytics_male_ads a
  else if String.eqb g "female" then analytics_female_ads a
  else analytics_neutral_ads a.

(** A document of the store: ad [id] of [gender], displayed [n] times. *)
Definition persisted (id gender : string) (n : Z) : Doc :=
  mkDoc (Some id) "" "" "image" (Some gender) (Some n)
        "2025-12-31T00:00:00" "2025-12-01T00:00:00".

(** An index in which every document is filed under its own key. *)
Definition filed (d : Dict.t string Doc) : Prop :=
  NoDup (Dict.keys d) /\ Forall (fun e => doc_key (snd e) = fst e) d.

(** [counts.get('total', 0)] *)
Definition total_of (counts : Dict.t string Z) : Z :=
  get_default "total" 0%Z counts.

(** A computation keeps a property of the state, also when it raises. *)
Definition preserves {A} (J : State -> Prop) (m : M A) : Prop :=
  forall s, J s -> J (snd (m s)).

(** The invariant of the reachable states. *)
Definition sound (s : State) : Prop :=
  coherent s /\ selectable s = true /\ local_ok s.

(** *** A concrete run *)

(** No inventory on disk: the three catalogues are the demo ones. *)
Definition no_inventory : FsView :=
  mkFsView false (fun _ => false) (fun _ => inr []) (fun _ => inr tt).

Definition fresh_manager : State :=
  init None (inr tt) "static/ads" no_inventory.

(** An environment whose clock reads [t] and whose store fails. *)
Definition env_at (t : Q) : Env :=
  mkEnv (fun _ => 0) (fun _ => t) (fun _ => "2026-01-01T00:00:00")
        (inl StoreError).

(** A manager whose male inventory and male demo catalogue are both
    empty. *)
Definition nothing_for_men : State :=
  set_catalog MaleAds [] (set_catalog DemoMaleAds [] fresh_manager).

(** A manager with a store, after [n] selections for [gender] at time
    [t] while the store fails. *)
Fixpoint after_selections (n : nat) (gender : string) (t : Q) : State :=
  match n with
  | O => init (Some MongoDatabase) (inr tt) "static/ads" no_inventory
  | S k => snd (select_ad (env_at t) gender (after_selections k gender t))
  end.

Definition somebody (male female : Z) : Dict.t string Z :=
  [("total", (male + female)%Z); ("male", male); ("female", female)].

End AdManagerSpec.

(** ** Tracks from frame to frame *)

Module TrackLife.
Import Tracker TrackerSpec.

(** A track that is live after [update rects] and was live before: it is
    as it was, or it was matched with an observation of the frame. *)
Definition carried_over (t : EuclideanDistTracker) (rects : list Rect)
  (id : nat) (o' : Obj) : Prop :=
  exists o,
    Dict.get id (objects t) = Some o
    /\ (o' = o
        \/ exists rect,
             In rect rects
             /\ apply_match (centroid_of (rect_bbox rect)) rect o = inr o').

(** A track registered by [update rects] for an observation of the
    frame. *)
Definition registered_now (t : EuclideanDistTracker) (rects : list Rect)
  (id : nat) (o' : Obj) : Prop :=
  next_object_id t <= id
  /\ exists rect, In rect rects /\ o' = new_track rect.

(** The history of a track is never empty and never longer than the
    number of its hits, and [Unknown] can only be its oldest entry. *)
Definition history_shape (o : Obj) : Prop :=
  1 <= List.length (gender_history o) <= hits o
  /\ ~ In "Unknown" (tl (gender_history o)).

(** The counts of a frame in which nobody is confirmed. *)
Definition nobody : Dict.t string Z :=
  [("total", 0%Z); ("male", 0%Z); ("female", 0%Z)].

End TrackLife.

(** ** The tracker under any order of ties and of set iteration *)

Module TrackerChoices.
Import Tracker TrackerSpec.

(** The choices numpy and Python can make: [argsort] returns the indices
    of its argument, each once, in ascending order of value; the
    iteration of a set meets the members of the set, each once. *)
Definition lawful (ch : Choices) : Prop :=
  (forall a,
     Permutation (argsort_of ch a) (seq 0 (List.length a))
     /\ StronglySorted (fun i j => (nth i a 0 <= nth j a 0)%Z)
          (argsort_of ch a))
  /\ (forall s, Permutation (rows_order ch s) s)
  /\ (forall s, Permutation (cols_order ch s) s).

(** The trackers a tracker can become: by calls of [update], on any
    frames, under any lawful choices. *)
Inductive evolves : EuclideanDistTracker -> EuclideanDistTracker -> Prop :=
| evolves_refl t : evolves t t
| evolves_step ch rects t t1 t' :
    lawful ch -> update_by ch rects t = inr t1 -> evolves t1 t' ->
    evolves t t'.

(** The trackers the camera can hold. *)
Definition tracked (t : EuclideanDistTracker) : Prop :=
  evolves Camera.tracker t.

(** The order in which the matching loop meets the tracks (rows). *)
Definition processing_order (ch : Choices) (D : list (list Z)) : list nat :=
  argsort_of ch (map row_min D).

(** The candidates of the matching loop: every track with its nearest
    observation, in processing order. *)
Definition candidates (ch : Choices) (D : list (list Z)) : list (nat * nat) :=
  map (fun r => (r, nearest D r)) (processing_order ch D).

Definition association (ch : Choices) (max_distance : Z) (D : list (list Z))
  : list (nat * nat) :=
  greedy max_distance D (candidates ch D) [] [].

(** [r] comes before [r'] in the list [rows]. *)
Definition earlier (rows : list nat) (r r' : nat) : Prop :=
  exists l1 l2, rows = l1 ++ r' :: l2 /\ In r l1.

(** The observations of [order], one after the other, become the tracks
    of the next identifiers. *)
Definition registered_in (order : list nat) (t : EuclideanDistTracker)
  (rects : list Rect) (t' : EuclideanDistTracker) : Prop :=
  next_object_id t' = next_object_id t + List.length order
  /\ forall k c,
       nth_error order k = Some c ->
       exists rect,
         nth_error rects c = Some rect
         /\ Dict.get (next_object_id t + k) (objects t') = Some (new_track rect)
         /\ Dict.get (next_object_id t + k) (disappeared t') = Some 0.

(** What [update] does to the tracker, given the association [M] and the
    order in which the unmatched observations are met: the track of
    every pair of [M] is updated, every other track ages, every other
    observation is registered. *)
Definition effect (ch : Choices) (t : EuclideanDistTracker)
  (rects : list Rect) (t' : EuclideanDistTracker) (M : list (nat * nat))
  : Prop :=
  (forall r c, In (r, c) M -> track_updated t rects t' r c)
  /\ (forall r id,
        nth_error (Dict.keys (objects t)) r = Some id ->
        ~ In r (map fst M) -> track_aged t t' id)
  /\ registered_in (cols_order ch (unmatched_cols rects M)) t rects t'.

(** What one call of [update] does to a live track with object [o] and
    counter [d]: matched with an observation, it is updated and its
    counter is reset; unseen, its counter goes up by one, and the track
    is removed when the counter was 50. *)
Definition seen (rects : list Rect) (o : Obj) (id : nat)
  (t' : EuclideanDistTracker) : Prop :=
  exists rect o',
    In rect rects
    /\ apply_match (centroid_of (rect_bbox rect)) rect o = inr o'
    /\ Dict.get id (objects t') = Some o'
    /\ Dict.get id (disappeared t') = Some 0.

Definition unseen (o : Obj) (d : nat) (id : nat)
  (t' : EuclideanDistTracker) : Prop :=
  (d < 50
   /\ Dict.get id (objects t') = Some o
   /\ Dict.get id (disappeared t') = Some (S d))
  \/ (d = 50 /\ ~ live id t').

(** [n] frames without observations. *)
Definition empty_frames (n : nat) : list (list Rect) := repeat [] n.

End TrackerChoices.

(** ** Frames of the camera and of the background thread *)

Module FrameSpec.
Import Tracker VideoCamera Background.

(** [l[-n:]] for a positive [n]: the last [n] elements of [l]. *)
Definition lastn {A} (n : nat) (l : list A) : list A :=
  skipn (List.length l - n) l.

(** A box [(x, y, w, h)] of positive size inside an image of
    [width] x [height]. *)
Definition inside (width height : Z) (b : BBox) : Prop :=
  let '(x, y, w, h) := b in
  (0 <= x /\ 0 <= y /\ 0 < w /\ 0 < h /\ x + w <= width /\ y + h <= height)%Z.

(** The calls of [get_frame] for a sequence of shots: what each call
    returns or raises, and the camera at the end. *)
Fixpoint play (shots : list Shot) (c : VideoCamera)
  : list (res (option string * Counts)) * VideoCamera :=
  match shots with
  | [] => ([], c)
  | shot :: rest =>
      let (r, c1) := get_frame shot c in
      let (rs, c2) := play rest c1 in
      (r :: rs, c2)
  end.

(** The frames the capture delivered. *)
Definition frames_read (shots : list Shot) : list (res (list Rect)) :=
  flat_map (fun shot => match shot with
                        | Frame detections _ => [detections]
                        | _ => []
                        end) shots.

(** The detections of every second frame, the first one included when
    [now] holds, leaving out the frames on which detection raises. *)
Fixpoint every_second (now : bool) (reads : list (res (list Rect)))
  : list (list Rect) :=
  match reads with
  | [] => []
  | d :: rest =>
      (if now then match d with inr rects => [rects] | inl _ => [] end
       else [])
      ++ every_second (negb now) rest
  end.

(** The counts a call may return before anybody is counted: none, or
    zeros. *)
Definition reports_nobody (r : res (option string * Counts)) : Prop :=
  match r with
  | inr (_, counts) => counts = [] \/ counts = TrackLife.nobody
  | inl _ => True
  end.

(** The frames of the background thread, each with its counts and its
    time stamp, fed to [update_analytics], first frame first. *)
Definition record_frames (frames : list (Dict.t string Z * string))
  (a : AnalyticsData) : AnalyticsData :=
  fold_left (fun a f => update_analytics (fst f) (snd f) a) frames a.

Definition detection_of (f : Dict.t string Z * string) : Detection :=
  mkDetection (AdManager.get_default "total" 0%Z (fst f))
    (AdManager.get_default "male" 0%Z (fst f))
    (AdManager.get_default "female" 0%Z (fst f)) (snd f).

Definition sum_of (key : string) (frames : list (Dict.t string Z * string)) : Z :=
  fold_right (fun f acc => (AdManager.get_default key 0%Z (fst f) + acc)%Z)
    0%Z frames.

End FrameSpec.

(** ** The manager from call to call *)

Module ManagerLife.
Import AdManager AdManagerSpec.

Definition has_id (ad : Ad) : bool := Dict.mem "id" ad.

(** Every catalogue entry carries an ['id']. *)
Definition identified (s : State) : Prop :=
  forall c ad, In ad (catalog c s) -> has_id ad = true.

(** The three catalogues of the manager hold something. *)
Definition stocked (s : State) : Prop :=
  male_ads s <> [] /\ female_ads s <> [] /\ neutral_ads s <> [].

Definition builtin_demos (s : State) : Prop :=
  demo_male_ads s = builtin_demo_male_ads
  /\ demo_female_ads s = builtin_demo_female_ads
  /\ demo_neutral_ads s = builtin_demo_neutral_ads.

Definition settled (s : State) : Prop :=
  identified s /\ stocked s /\ builtin_demos s
  /\ List.length (ad_history s) <= 100.

(** What loading keeps: the entries carry an ['id'], the demo catalogues
    are the built-in ones and nothing was shown yet. *)
Definition loading (s : State) : Prop :=
  identified s /\ builtin_demos s /\ ad_history s = [].

(** A character of a generated identifier: no dot, no space, no
    lower-case letter. *)
Definition id_char (c : ascii) : Prop :=
  c <> "."%char /\ c <> " "%char /\ PyStr.is_lower c = false.





(** The record [select_ad] returns for a catalogue entry that carries an
    ['id']. *)
Definition record_of (env : Env) (gender : string) (selected : Ad) : Ad :=
  Dict.set "timestamp" (isoformat env IsoCurrentAd)
    (Dict.set "gender" gender selected).

(** The history entry of a selection. *)
Definition entry_of (env : Env) (ad : Ad) : HistoryEntry :=
  mkHistoryEntry ad (isoformat env IsoHistory).

(** The displays of an advertisement counted in memory so far. *)
Definition counted_so_far (ad_id : string) (L : Dict.t string Doc) : Z :=
  match Dict.get ad_id L with
  | Some d => display_count d
  | None => 0%Z
  end.

(** The display of [ad] is counted once: by the store when there is one
    and it accepts the update, and in memory otherwise, where the count
    of the advertisement goes up by one and nothing else changes. *)
Definition counted (env : Env) (ad : Ad) (store : option Mongo)
  (L L' : Dict.t string Doc) : Prop :=
  let ad_id := get_default "id" "UNKNOWN" ad in
  match store, update_one env with
  | Some _, inr _ => L' = L
  | _, _ =>
      (exists d',
         Dict.get ad_id L' = Some d'
         /\ doc_display_count d' = Some (counted_so_far ad_id L + 1)%Z)
      /\ (forall k, k <> ad_id -> Dict.get k L' = Dict.get k L)
      /\ sum_counts (Dict.values L') = (sum_counts (Dict.values L) + 1)%Z
  end.

(** The documents of an analytics read whose gender is none of the three
    reported ones. *)
Definition other_gender (d : Doc) : bool :=
  negb (doc_gender_is "male" d) && negb (doc_gender_is "female" d)
  && negb (doc_gender_is "neutral" d).

(** Largest count first. *)
Definition ranked (l : list Doc) : Prop :=
  StronglySorted (fun a b => (display_count b <= display_count a)%Z) l.

End ManagerLife.

(** * Part II: properties *)

(** ** The error monad *)

Lemma bind_inr {A B} (m : res A) (k : A -> res B) (b : B) :
  bind m k = inr b -> exists a, m = inr a /\ k a = inr b.
Proof.
  destruct m as [e | a]; simpl; intros Hb; [discriminate | eauto].
Qed.

Lemma index_inr {A} (l : list A) (i : nat) (a : A) :
  index l i = inr a <-> nth_error l i = Some a.
Proof.
  unfold index. destruct (nth_error l i); split; intros E;
    try discriminate; inversion E; reflexivity.
Qed.

Lemma index_lt {A} (l : list A) (i : nat) :
  i < List.length l -> exists a, index l i = inr a.
Proof.
  intros Hi. unfold index.
  destruct (nth_error l i) eqn:E; eauto.
  apply nth_error_None in E. lia.
Qed.

(** ** Dictionaries *)

Section DictFacts.
Context {K V : Type} `{KeyEq K}.
Implicit Types (d : Dict.t K V) (k : K) (v : V).

Lemma keqb_refl k : keqb k k = true.
Proof. destruct (keqb_spec k k); congruence. Qed.

Lemma keqb_neq k k' : k <> k' -> keqb k k' = false.
Proof. destruct (keqb_spec k k'); congruence. Qed.

Lemma keqb_true k k' : keqb k k' = true -> k = k'.
Proof. destruct (keqb_spec k k'); congruence. Qed.

Lemma get_Some_In k v d : Dict.get k d = Some v -> In (k, v) d.
Proof.
  induction d as [| [k' v'] r IH]; simpl; [discriminate |].
  destruct (keqb_spec k k') as [-> | Hne]; intros E.
  - inversion E. now left.
  - right. auto.
Qed.

Lemma get_Some_key k v d : Dict.get k d = Some v -> In k (Dict.keys d).
Proof.
  intros E. apply get_Some_In in E.
  change k with (fst (k, v)). now apply in_map.
Qed.

Lemma get_None_iff k d : Dict.get k d = None <-> ~ In k (Dict.keys d).
Proof.
  induction d as [| [k' v'] r IH]; simpl.
  - tauto.
  - destruct (keqb_spec k k') as [-> | Hne].
    + split; [discriminate | intros N; exfalso; apply N; now left].
    + rewrite IH. split; intros N; [intros [E | E]; congruence | tauto].
Qed.

Lemma key_In_get k d : In k (Dict.keys d) -> exists v, Dict.get k d = Some v.
Proof.
  intros Hin. destruct (Dict.get k d) eqn:E; eauto.
  apply get_None_iff in E. contradiction.
Qed.

Lemma In_get_NoDup k v d :
  NoDup (Dict.keys d) -> In (k, v) d -> Dict.get k d = Some v.
Proof.
  induction d as [| [k' v'] r IH]; simpl; [tauto |].
  intros Hnd [E | Hin].
  - inversion E; subst. now rewrite keqb_refl.
  - inversion Hnd as [| ? ? Hnotin Hnd']; subst.
    destruct (keqb_spec k k') as [-> | Hne].
    + exfalso. apply Hnotin. change k' with (fst (k', v)). now apply in_map.
    + auto.
Qed.

Lemma get_set_same k v d : Dict.get k (Dict.set k v d) = Some v.
Proof.
  induction d as [| [k' v'] r IH]; simpl.
  - now rewrite keqb_refl.
  - destruct (keqb_spec k k') as [-> | Hne]; simpl.
    + now rewrite keqb_refl.
    + now rewrite (keqb_neq _ _ Hne).
Qed.

Lemma get_set_other k k' v d :
  k' <> k -> Dict.get k' (Dict.set k v d) = Dict.get k' d.
Proof.
  intros Hne. induction d as [| [k0 v0] r IH]; simpl.
  - now rewrite (keqb_neq _ _ Hne).
  - destruct (keqb_spec k k0) as [-> | Hne0]; simpl.
    + now rewrite (keqb_neq _ _ Hne).
    + destruct (keqb k' k0); auto.
Qed.

Lemma keys_set_in k v d :
  In k (Dict.keys d) -> Dict.keys (Dict.set k v d) = Dict.keys d.
Proof.
  induction d as [| [k0 v0] r IH]; simpl; [tauto |].
  intros Hin. destruct (keqb_spec k k0) as [-> | Hne]; simpl; [reflexivity |].
  f_equal. apply IH. destruct Hin; congruence.
Qed.

Lemma set_notin k v d :
  ~ In k (Dict.keys d) -> Dict.set k v d = d ++ [(k, v)].
Proof.
  induction d as [| [k0 v0] r IH]; simpl; [reflexivity |].
  intros Hnot. destruct (keqb_spec k k0) as [-> | Hne].
  - exfalso. apply Hnot. now left.
  - f_equal. apply IH. tauto.
Qed.

Lemma keys_set_notin k v d :
  ~ In k (Dict.keys d) -> Dict.keys (Dict.set k v d) = Dict.keys d ++ [k].
Proof.
  intros Hnot. rewrite (set_notin _ _ _ Hnot).
  unfold Dict.keys. now rewrite map_app.
Qed.

Lemma keys_set_incl k v d x :
  In x (Dict.keys (Dict.set k v d)) <-> x = k \/ In x (Dict.keys d).
Proof.
  induction d as [| [k0 v0] r IH]; simpl.
  - intuition congruence.
  - destruct (keqb_spec k k0) as [-> | Hne]; simpl.
    + intuition congruence.
    + rewrite IH. intuition congruence.
Qed.

Lemma NoDup_keys_set k v d :
  NoDup (Dict.keys d) -> NoDup (Dict.keys (Dict.set k v d)).
Proof.
  intros Hnd. destruct (in_dec (fun x y => reflect_dec _ _ (keqb_spec x y))
                          k (Dict.keys d)) as [Hin | Hnot].
  - now rewrite keys_set_in.
  - rewrite keys_set_notin by assumption.
    apply NoDup_app; [assumption | repeat constructor; simpl; tauto |].
    intros x Hx [-> | []]. contradiction.
Qed.

Lemma In_remove1 k x (l : list K) : In x (remove1 k l) -> In x l.
Proof.
  induction l as [| y r IH]; simpl; [tauto |].
  destruct (keqb k y); simpl; intuition.
Qed.

Lemma In_remove1_other k x (l : list K) :
  x <> k -> In x l -> In x (remove1 k l).
Proof.
  intros Hne. induction l as [| y r IH]; simpl; [tauto |].
  destruct (keqb_spec k y) as [-> | Hny]; simpl; intuition congruence.
Qed.

Lemma NoDup_remove1 k (l : list K) : NoDup l -> NoDup (remove1 k l).
Proof.
  induction 1 as [| y r Hnot Hnd IH]; simpl; [constructor |].
  destruct (keqb k y); [assumption |].
  constructor; [| assumption].
  intros Hin. apply Hnot. eapply In_remove1; eauto.
Qed.

Lemma remove1_NoDup_notin k (l : list K) : NoDup l -> ~ In k (remove1 k l).
Proof.
  induction 1 as [| y r Hnot Hnd IH]; simpl; [tauto |].
  destruct (keqb_spec k y) as [-> | Hne]; [assumption |].
  simpl. intuition congruence.
Qed.

Lemma remove1_notin k (l : list K) : ~ In k l -> remove1 k l = l.
Proof.
  induction l as [| y r IH]; simpl; [reflexivity |].
  intros Hnot. destruct (keqb_spec k y) as [-> | Hne]; [tauto |].
  f_equal. apply IH. tauto.
Qed.

Lemma del_In k d :
  In k (Dict.keys d) ->
  exists d', Dict.del k d = inr d'
             /\ Dict.keys d' = remove1 k (Dict.keys d)
             /\ (forall k', k' <> k -> Dict.get k' d' = Dict.get k' d).
Proof.
  induction d as [| [k0 v0] r IH]; simpl; [tauto |].
  intros Hin. destruct (keqb_spec k k0) as [-> | Hne].
  - exists r. repeat split; auto.
    intros k' Hk'. now rewrite (keqb_neq _ _ Hk').
  - destruct IH as (r' & Hdel & Hkeys & Hget); [destruct Hin; congruence |].
    exists ((k0, v0) :: r'). rewrite Hdel. simpl. repeat split.
    + now rewrite Hkeys.
    + intros k' Hk'. destruct (keqb k' k0); auto.
Qed.

Lemma del_inr k d d' :
  Dict.del k d = inr d' ->
  In k (Dict.keys d)
  /\ Dict.keys d' = remove1 k (Dict.keys d)
  /\ (forall k', k' <> k -> Dict.get k' d' = Dict.get k' d).
Proof.
  intros Hdel.
  assert (Hin : In k (Dict.keys d)).
  { revert d' Hdel. induction d as [| [k0 v0] r IH]; simpl; intros d' Hdel;
      [discriminate |].
    destruct (keqb_spec k k0) as [-> | Hne]; [now left |].
    apply bind_inr in Hdel. destruct Hdel as (r' & Hr' & _). right. eauto. }
  destruct (del_In k d Hin) as (d'' & E & ?).
  rewrite Hdel in E. inversion E; subst. tauto.
Qed.

Lemma values_set_in k v d x :
  In x (Dict.values (Dict.set k v d)) -> x = v \/ In x (Dict.values d).
Proof.
  induction d as [| [k0 v0] r IH]; simpl.
  - intuition.
  - destruct (keqb k k0); simpl; intuition.
Qed.

Lemma In_set k v d k' v' :
  In (k', v') (Dict.set k v d) -> (k' = k /\ v' = v) \/ In (k', v') d.
Proof.
  induction d as [| [k0 v0] r IH]; simpl.
  - intros [E | []]. inversion E. auto.
  - destruct (keqb k k0); simpl.
    + intros [E | Hin]; [inversion E; auto | auto].
    + intros [E | Hin]; [auto | ]. destruct (IH Hin); auto.
Qed.

Lemma In_del k d d' k' v' :
  Dict.del k d = inr d' -> In (k', v') d' -> In (k', v') d.
Proof.
  revert d'. induction d as [| [k0 v0] r IH]; simpl; intros d' Hdel;
    [discriminate |].
  destruct (keqb k k0).
  - inversion Hdel; subst. auto.
  - apply bind_inr in Hdel. destruct Hdel as (r' & Hr' & E).
    inversion E; subst. simpl. intros [E' | Hin]; eauto.
Qed.

End DictFacts.

(** ** Loops *)

Lemma for_each_inv {A S} (body : A -> S -> res S) (J : list A -> S -> Prop) :
  (forall a l s, J (a :: l) s -> exists s', body a s = inr s' /\ J l s') ->
  forall l s, J l s -> exists s', for_each body l s = inr s' /\ J [] s'.
Proof.
  intros Hstep l. induction l as [| a l IH]; simpl; intros s HJ.
  - eauto.
  - destruct (Hstep _ _ _ HJ) as (s' & Hb & HJ').
    rewrite Hb. simpl. auto.
Qed.

(** ** The tracker: well-formedness *)

Section TrackerInvariant.
Import Tracker TrackerSpec.

Variable P : Obj -> Prop.
Hypothesis P_register :
  forall c b g conf, P (mkObj c b g conf [g] 1).
Hypothesis P_apply_match :
  forall c r o o', P o -> apply_match c r o = inr o' -> P o'.

Lemma extends_refl t : extends t t.
Proof. unfold extends. auto. Qed.

Lemma extends_trans t1 t2 t3 : extends t1 t2 -> extends t2 t3 -> extends t1 t3.
Proof.
  unfold extends. intros (A1 & B1 & C1 & D1) (A2 & B2 & C2 & D2).
  repeat split; try congruence; try lia.
  intros k Hk. destruct (D2 k Hk) as [Hin | Hle]; [auto | right; lia].
Qed.

Lemma register_Inv c b g conf t :
  Inv P t ->
  Inv P (register c b g conf t) /\ extends t (register c b g conf t).
Proof.
  destruct t as [nid objs dis hist md mx].
  unfold Inv, wf, in_sync, extends, register; simpl.
  intros (((Sd & Sh) & Hnd & Hlt) & HP & Hd).
  assert (Hfresh : ~ In nid (Dict.keys objs)).
  { intros Hin. rewrite Forall_forall in Hlt. apply Hlt in Hin. lia. }
  assert (Hfd : ~ In nid (Dict.keys dis)) by now rewrite Sd.
  assert (Hfh : ~ In nid (Dict.keys hist)) by now rewrite Sh.
  rewrite !keys_set_notin by assumption.
  rewrite (set_notin _ _ objs Hfresh), (set_notin _ _ dis Hfd).
  repeat split; try congruence; try lia.
  - apply NoDup_app; [assumption | repeat constructor; simpl; tauto |].
    intros x Hx [-> | []]. contradiction.
  - apply Forall_app. split.
    + eapply Forall_impl; [| exact Hlt]. simpl. intros; lia.
    + repeat constructor.
  - apply Forall_app. split; [assumption |]. repeat constructor. apply P_register.
  - apply Forall_app. split; [assumption |]. repeat constructor. simpl. lia.
  - intros k Hk. apply in_app_or in Hk. destruct Hk as [Hk | [<- | []]]; auto.
Qed.

Lemma deregister_ok id t :
  wf t -> live id t ->
  exists t', deregister id t = inr t'
    /\ next_object_id t' = next_object_id t
    /\ max_disappeared t' = max_disappeared t
    /\ max_distance t' = max_distance t
    /\ Dict.keys (objects t') = remove1 id (Dict.keys (objects t))
    /\ Dict.keys (disappeared t') = remove1 id (Dict.keys (disappeared t))
    /\ Dict.keys (history t') = remove1 id (Dict.keys (history t))
    /\ (forall e, In e (objects t') -> In e (objects t))
    /\ (forall e, In e (disappeared t') -> In e (disappeared t) /\ fst e <> id)
    /\ (forall k, k <> id -> Dict.get k (objects t') = Dict.get k (objects t))
    /\ (forall k, k <> id ->
                  Dict.get k (disappeared t') = Dict.get k (disappeared t)).
Proof.
  destruct t as [nid objs dis hist md mx].
  unfold wf, in_sync, live, deregister; simpl.
  intros ((Sd & Sh) & Hnd & Hlt) Hin.
  destruct (del_In id objs Hin) as (o' & Ho & Hko & Hgo).
  destruct (del_In id dis) as (d' & Hd & Hkd & Hgd); [now rewrite Sd |].
  destruct (del_In id hist) as (h' & Hh & Hkh & Hgh); [now rewrite Sh |].
  rewrite Ho, Hd, Hh. simpl. eexists. split; [reflexivity |]. simpl.
  repeat split; auto.
  - destruct e as [k v]. eapply In_del; eauto.
  - destruct e as [k v]. eapply In_del; eauto.
  - destruct e as [k v]. simpl. intros ->.
    apply (remove1_NoDup_notin id (Dict.keys dis)); [now rewrite Sd |].
    rewrite <- Hkd. change id with (fst (id, v)). now apply in_map.
Qed.

Lemma age_ok id t :
  Inv P t -> live id t ->
  exists t', age id t = inr t' /\ Inv P t' /\ extends t t'
    /\ next_object_id t' = next_object_id t
    /\ (forall k, live k t' -> live k t)
    /\ (forall k, k <> id -> live k t -> live k t')
    /\ (forall k, k <> id -> Dict.get k (objects t') = Dict.get k (objects t))
    /\ (forall k, k <> id ->
                  Dict.get k (disappeared t') = Dict.get k (disappeared t))
    /\ (forall d, Dict.get id (disappeared t) = Some d ->
          if max_disappeared t <? S d
          then ~ live id t'
          else Dict.get id (objects t') = Dict.get id (objects t)
               /\ Dict.get id (disappeared t') = Some (S d)).
Proof.
  intros (Hwf & HP & Hd) Hin.
  pose proof Hwf as ((Sd & Sh) & Hnd & Hlt).
  unfold live in Hin.
  assert (Hind : In id (Dict.keys (disappeared t))) by now rewrite Sd.
  destruct (key_In_get _ _ Hind) as (d & Hget).
  unfold age, Dict.item. rewrite Hget. simpl.
  set (t1 := {| next_object_id := next_object_id t; objects := objects t;
                disappeared := Dict.set id (S d) (disappeared t);
                history := history t;
                max_disappeared := max_disappeared t;
                max_distance := max_distance t |}).
  assert (Hwf1 : wf t1).
  { unfold wf, in_sync, t1; simpl. rewrite keys_set_in by assumption. auto. }
  destruct (max_disappeared t <? S d) eqn:Hcmp.
  - apply Nat.ltb_lt in Hcmp.
    destruct (deregister_ok id t1 Hwf1 Hin)
      as (t' & Hder & Hn & Hmd & Hmx & Hko & Hkd & Hkh & Hio & Hid & Hgo & Hgd).
    exists t'. split; [assumption |]. unfold t1 in Hn, Hmd, Hmx, Hko, Hkd, Hkh, Hio, Hid, Hgo, Hgd; simpl in Hn, Hmd, Hmx, Hko, Hkd, Hkh, Hio, Hid, Hgo, Hgd.
    assert (Hnot : ~ In id (Dict.keys (objects t'))).
    { rewrite Hko. now apply remove1_NoDup_notin. }
    repeat split.
    + rewrite Hkd, Hko. unfold t1; simpl.
      rewrite keys_set_in by assumption. now rewrite Sd.
    + rewrite Hkh, Hko. now rewrite Sh.
    + rewrite Hko. now apply NoDup_remove1.
    + rewrite Hn, Hko. rewrite Forall_forall in *. intros k Hk.
      apply Hlt. eapply In_remove1; eauto.
    + rewrite Forall_forall in *. intros e He. apply HP. auto.
    + rewrite Forall_forall in *. intros [k v] He.
      destruct (Hid _ He) as [He' Hne]. simpl in *.
      apply In_set in He'. destruct He' as [[-> _] | He']; [congruence |].
      rewrite Hmd. apply (Hd _ He').
    + assumption.
    + assumption.
    + lia.
    + intros k Hk. left. rewrite Hko in Hk. eapply In_remove1; eauto.
    + assumption.
    + intros k Hk. unfold live in *. rewrite Hko in Hk. eapply In_remove1; eauto.
    + intros k Hne Hk. unfold live. rewrite Hko. now apply In_remove1_other.
    + assumption.
    + intros k Hne. rewrite Hgd by assumption. simpl.
      now apply get_set_other.
    + intros d0 Hd0. inversion Hd0; subst d0.
      apply Nat.ltb_lt in Hcmp. rewrite Hcmp. assumption.
  - apply Nat.ltb_ge in Hcmp.
    exists t1. split; [reflexivity |]. repeat split; try apply Hwf1; simpl; auto.
    + rewrite Forall_forall in *. intros [k v] He.
      apply In_set in He. destruct He as [[-> ->] | He]; simpl; [lia |].
      apply (Hd _ He).
    + intros k Hne. now apply get_set_other.
    + intros d0 Hd0. inversion Hd0; subst d0.
      apply Nat.ltb_ge in Hcmp. rewrite Hcmp.
      split; [reflexivity | apply get_set_same].
Qed.

End TrackerInvariant.

(** ** Sorting and minima *)

Section Numpy.
Import Tracker.

Lemma insert_by_perm key i l : Permutation (insert_by key i l) (i :: l).
Proof.
  induction l as [| j r IH]; simpl; [reflexivity |].
  destruct (key i <=? key j)%Z; [reflexivity |].
  rewrite IH. apply perm_swap.
Qed.

Lemma fold_insert_by_perm key l :
  Permutation (fold_right (insert_by key) [] l) l.
Proof.
  induction l as [| i r IH]; simpl; [reflexivity |].
  rewrite insert_by_perm. now constructor.
Qed.

Lemma argsort_perm a : Permutation (argsort a) (seq 0 (List.length a)).
Proof. apply fold_insert_by_perm. Qed.

Lemma argsort_lt a i : In i (argsort a) -> i < List.length a.
Proof.
  intros Hin. apply (Permutation_in _ (argsort_perm a)) in Hin.
  apply in_seq in Hin. lia.
Qed.

Lemma argsort_NoDup a : NoDup (argsort a).
Proof.
  apply (Permutation_NoDup (Permutation_sym (argsort_perm a))), seq_NoDup.
Qed.

Lemma argmin_from_lt l : forall bi b i,
  bi < i -> argmin_from bi b i l < i + List.length l.
Proof.
  induction l as [| x r IH]; simpl; intros bi b i Hlt; [lia |].
  destruct (x <? b)%Z.
  - specialize (IH i x (S i)). lia.
  - specialize (IH bi b (S i)). lia.
Qed.

Lemma argmin_ok l :
  l <> [] -> exists i, argmin l = inr i /\ i < List.length l.
Proof.
  destruct l as [| x r]; [congruence | intros _].
  simpl. eexists. split; [reflexivity |].
  pose proof (argmin_from_lt r 0 x 1). lia.
Qed.

Lemma amin_ok l : l <> [] -> exists m, amin l = inr m.
Proof. destruct l; [congruence | simpl; eauto]. Qed.

Lemma map_res_ok {A B} (f : A -> res B) (Q : A -> B -> Prop) l :
  (forall a, In a l -> exists b, f a = inr b /\ Q a b) ->
  exists bs, map_res f l = inr bs /\ Forall2 Q l bs.
Proof.
  induction l as [| a r IH]; simpl; intros Hf.
  - exists []. split; [reflexivity | constructor].
  - destruct (Hf a) as (b & Hb & Hq); [now left |].
    destruct IH as (bs & Hbs & Hall); [intros; apply Hf; now right |].
    exists (b :: bs). rewrite Hb, Hbs. split; [reflexivity | now constructor].
Qed.

Lemma map_res_inr {A B} (f : A -> res B) l : forall bs,
  map_res f l = inr bs -> Forall2 (fun a b => f a = inr b) l bs.
Proof.
  induction l as [| a r IH]; simpl; intros bs E.
  - inversion E. constructor.
  - apply bind_inr in E. destruct E as (b & Hb & E).
    apply bind_inr in E. destruct E as (bs' & Hbs & E).
    inversion E; subst. constructor; auto.
Qed.

Lemma dist_length a b : List.length (dist a b) = List.length a.
Proof. unfold dist. apply length_map. Qed.

Lemma dist_row a b row :
  In row (dist a b) -> List.length row = List.length b.
Proof.
  unfold dist. intros Hin. apply in_map_iff in Hin.
  destruct Hin as (p & <- & _). apply length_map.
Qed.

Lemma Counter_nonempty_aux l : forall c,
  c <> [] -> fold_left count_element l c <> [].
Proof.
  induction l as [| x r IH]; simpl; intros c Hc; [assumption |].
  apply IH. unfold count_element.
  destruct c as [| [k v] c']; [congruence |]. cbn [Dict.set].
  destruct (keqb x k); discriminate.
Qed.

Lemma Counter_nonempty l : l <> [] -> Counter l <> [].
Proof.
  destruct l as [| x r]; [congruence | intros _].
  unfold Counter. simpl. apply Counter_nonempty_aux. discriminate.
Qed.

Lemma vote_ok g o : exists o', vote g o = inr o'.
Proof.
  unfold vote. destruct (String.eqb g "Unknown"); [eauto |].
  set (h := if 20 <? List.length (gender_history o ++ [g])
            then tl (gender_history o ++ [g]) else gender_history o ++ [g]).
  assert (Hh : h <> []).
  { unfold h. destruct (20 <? List.length (gender_history o ++ [g])) eqn:E.
    - apply Nat.ltb_lt in E.
      destruct (gender_history o ++ [g]) as [| a [| b r]]; simpl in *;
        try lia; discriminate.
    - destruct (gender_history o); discriminate. }
  apply Counter_nonempty in Hh. unfold most_common_1. fold h.
  destruct (Counter h) as [| x c']; [congruence |]. simpl. eauto.
Qed.

Lemma apply_match_ok c r o : exists o', apply_match c r o = inr o'.
Proof.
  unfold apply_match.
  destruct (vote_ok (rect_gender r)
              {| centroid := c; bbox := rect_bbox r; gender := gender o;
                 confidence := confidence o;
                 gender_history := gender_history o; hits := hits o |})
    as (o1 & E).
  rewrite E. simpl. eauto.
Qed.

End Numpy.

(** ** The tracker: [update] returns and keeps the invariant *)

Section TrackerUpdate.
Import Tracker TrackerSpec.

Variable P : Obj -> Prop.
Hypothesis P_register :
  forall c b g conf, P (mkObj c b g conf [g] 1).
Hypothesis P_apply_match :
  forall c r o o', P o -> apply_match c r o = inr o' -> P o'.

Lemma match_step_ok rects ics D object_ids row col t ur uc :
  Inv P t ->
  Dict.keys (objects t) = object_ids ->
  (exists Drow, nth_error D row = Some Drow /\ col < List.length Drow) ->
  row < List.length object_ids ->
  col < List.length ics ->
  col < List.length rects ->
  exists t' ur' uc',
    match_step rects ics D object_ids (row, col) (t, ur, uc)
    = inr (t', ur', uc')
    /\ Inv P t' /\ extends t t' /\ Dict.keys (objects t') = object_ids.
Proof.
  intros HInv Hkeys (Drow & HD & Hcol) Hrow Hic Hrc.
  unfold match_step.
  destruct (in_set row ur || in_set col uc).
  { exists t, ur, uc. repeat split; auto; try apply HInv; apply extends_refl. }
  unfold index at 1. rewrite HD. simpl.
  destruct (index_lt Drow col Hcol) as (d & Hd). rewrite Hd. simpl.
  destruct (exceeds (max_distance t) d).
  { exists t, ur, uc. repeat split; auto; try apply HInv; apply extends_refl. }
  destruct (index_lt object_ids row Hrow) as (id & Hid). rewrite Hid. simpl.
  destruct (index_lt ics col Hic) as (c & Hc). rewrite Hc. simpl.
  destruct (index_lt rects col Hrc) as (r & Hr). rewrite Hr. simpl.
  assert (Hlive : In id (Dict.keys (objects t))).
  { rewrite Hkeys. apply index_inr in Hid. eapply nth_error_In; eauto. }
  destruct (key_In_get _ _ Hlive) as (o & Ho).
  unfold Dict.item. rewrite Ho. simpl.
  destruct (apply_match_ok c r o) as (o' & Ho'). rewrite Ho'. simpl.
  destruct HInv as (((Sd & Sh) & Hnd & Hlt) & HP & Hdis).
  do 3 eexists. split; [reflexivity |].
  unfold Inv, wf, in_sync, extends; simpl.
  rewrite !keys_set_in by (try rewrite Sd; assumption).
  repeat split; auto.
  - rewrite Forall_forall in *. intros [k v] He.
    apply In_set in He. destruct He as [[-> ->] | He]; simpl.
    + apply (P_apply_match c r o o'); [| exact Ho'].
      apply (HP (id, o)). now apply get_Some_In.
    + apply (HP _ He).
  - rewrite Forall_forall in *. intros [k v] He.
    apply In_set in He. destruct He as [[-> ->] | He]; simpl; [lia |].
    apply (Hdis _ He).
Qed.

Lemma register_rect_ok rects ics i t :
  Inv P t -> i < List.length rects -> i < List.length ics ->
  exists t', register_rect rects ics i t = inr t' /\ Inv P t' /\ extends t t'.
Proof.
  intros HInv Hr Hc. unfold register_rect.
  destruct (index_lt ics i Hc) as (c & ->). simpl.
  destruct (index_lt rects i Hr) as (r & ->). simpl.
  eexists. split; [reflexivity |]. now apply register_Inv.
Qed.

Lemma register_loop_ok rects ics l t :
  Inv P t -> List.length ics = List.length rects ->
  Forall (fun i => i < List.length rects) l ->
  exists t', for_each (register_rect rects ics) l t = inr t'
             /\ Inv P t' /\ extends t t'.
Proof.
  intros HInv Hlen Hl.
  destruct (for_each_inv (register_rect rects ics)
              (fun l s => Inv P s /\ extends t s
                          /\ Forall (fun i => i < List.length rects) l))
    with (l := l) (s := t) as (t' & Hrun & HI & HE & _).
  - intros a l' s (HI & HE & Hall). inversion Hall; subst.
    destruct (register_rect_ok rects ics a s HI) as (s' & Hs & HI' & HE');
      [assumption | lia |].
    exists s'. split; [assumption |].
    split; [assumption |]. split; [eapply extends_trans; eauto | assumption].
  - split; [assumption |]. split; [apply extends_refl | assumption].
  - eauto.
Qed.

(** The ageing loop over pairwise distinct live identifiers. *)
Lemma age_ids_effect l : forall t,
  Inv P t -> NoDup l -> (forall id, In id l -> live id t) ->
  exists t', for_each age l t = inr t' /\ Inv P t' /\ extends t t'
    /\ next_object_id t' = next_object_id t
    /\ (forall k, live k t' -> live k t)
    /\ (forall k, ~ In k l ->
          Dict.get k (objects t') = Dict.get k (objects t)
          /\ Dict.get k (disappeared t') = Dict.get k (disappeared t)
          /\ (live k t -> live k t'))
    /\ (forall k d, In k l -> Dict.get k (disappeared t) = Some d ->
          if max_disappeared t <? S d
          then ~ live k t'
          else Dict.get k (objects t') = Dict.get k (objects t)
               /\ Dict.get k (disappeared t') = Some (S d)).
Proof.
  induction l as [| id l IH]; intros t HInv Hnd Hlive; simpl.
  - exists t. split; [reflexivity |]. split; [assumption |].
    split; [apply extends_refl |]. repeat split; auto. intros k d [].
  - inversion Hnd as [| ? ? Hnotin Hnd']; subst.
    destruct (age_ok P id t HInv) as
      (t1 & Hage & HI1 & HE1 & Hn1 & Hsub1 & Hkeep1 & Hgo1 & Hgd1 & Heff1);
      [apply Hlive; now left |].
    rewrite Hage. simpl.
    destruct (IH t1 HI1 Hnd') as
      (t' & Hrun & HI' & HE' & Hn' & Hsub' & Hout' & Heff').
    { intros k Hk. apply Hkeep1; [| apply Hlive; now right].
      intros ->. contradiction. }
    exists t'. split; [assumption |]. split; [assumption |].
    split; [eapply extends_trans; eauto |].
    split; [congruence |]. split; [auto |]. split.
    + intros k Hk. destruct (Hout' k) as (A & B & C); [tauto |].
      assert (k <> id) by (intros ->; apply Hk; now left).
      rewrite A, B, Hgo1, Hgd1 by assumption. auto.
    + intros k d [-> | Hk] Hd.
      * specialize (Heff1 d Hd). destruct (Hout' k Hnotin) as (A & B & C).
        destruct HE1 as (Hmd & _).
        destruct (max_disappeared t <? S d).
        -- intros Hl. apply Heff1. auto.
        -- rewrite A, B. assumption.
      * assert (k <> id) by (intros ->; contradiction).
        specialize (Heff' k d Hk). rewrite Hgd1 in Heff' by assumption.
        specialize (Heff' Hd). destruct HE1 as (Hmd & _). rewrite Hmd in Heff'.
        destruct (max_disappeared t <? S d); [assumption |].
        rewrite <- (Hgo1 k) by assumption. assumption.
Qed.

(** A loop over row numbers ages the identifiers of these rows. *)
Lemma for_each_rows ids rows : forall t,
  Forall (fun row => row < List.length ids) rows ->
  for_each (fun row t => object_id <- index ids row ;; age object_id t) rows t
  = for_each age (map (fun row => nth row ids 0) rows) t.
Proof.
  induction rows as [| row rows IH]; intros t Hall; simpl; [reflexivity |].
  inversion Hall; subst.
  unfold index at 1. rewrite (nth_error_nth' ids 0) by assumption. simpl.
  destruct (age (nth row ids 0) t); simpl; auto.
Qed.

Lemma NoDup_map_nth (ids rows : list nat) :
  NoDup ids -> NoDup rows ->
  Forall (fun row => row < List.length ids) rows ->
  NoDup (map (fun row => nth row ids 0) rows).
Proof.
  intros Hids Hrows Hall. induction Hrows as [| row rows Hnot Hnd IH]; simpl.
  - constructor.
  - inversion Hall; subst. constructor; auto.
    intros Hin. apply in_map_iff in Hin. destruct Hin as (row' & E & Hin').
    rewrite Forall_forall in H2.
    assert (row' = row).
    { apply (proj1 (NoDup_nth ids 0)); auto. }
    subst. contradiction.
Qed.

Lemma unused_lt n used i : In i (unused n used) -> i < n.
Proof.
  unfold unused. intros Hin. apply filter_In in Hin.
  destruct Hin as [Hin _]. apply in_seq in Hin. lia.
Qed.

Lemma unused_NoDup n used : NoDup (unused n used).
Proof. unfold unused. apply NoDup_filter, seq_NoDup. Qed.

Lemma Forall2_nth_error {A B} (R : A -> B -> Prop) l l' :
  Forall2 R l l' ->
  forall i b, nth_error l' i = Some b ->
              exists a, nth_error l i = Some a /\ R a b.
Proof.
  induction 1 as [| a b l l' Hab Hall IH]; intros i y Hy.
  - destruct i; discriminate.
  - destruct i as [| i]; simpl in *.
    + inversion Hy; subst. eauto.
    + eauto.
Qed.

Lemma Forall2_combine {A B} (R : A -> B -> Prop) l l' :
  Forall2 R l l' -> forall a b, In (a, b) (combine l l') -> In a l /\ R a b.
Proof.
  induction 1 as [| a b l l' Hab Hall IH]; simpl; intros x y Hin; [tauto |].
  destruct Hin as [E | Hin].
  - inversion E; subst. auto.
  - destruct (IH _ _ Hin). auto.
Qed.

(** The candidate pairs of the matching loop index the distance matrix. *)
Lemma candidates_in_range (D : list (list Z)) n :
  n <> 0 ->
  Forall (fun row => List.length row = n) D ->
  exists mins argmins cols,
    map_res amin D = inr mins
    /\ List.length mins = List.length D
    /\ map_res argmin D = inr argmins
    /\ map_res (index argmins) (argsort mins) = inr cols
    /\ Forall2 (fun row i => argmin row = inr i) D argmins
    /\ Forall2 (fun r c => index argmins r = inr c) (argsort mins) cols
    /\ (forall r c, In (r, c) (combine (argsort mins) cols) ->
          r < List.length D
          /\ exists Drow, nth_error D r = Some Drow
                          /\ argmin Drow = inr c /\ c < n).
Proof.
  intros Hn HD. rewrite Forall_forall in HD.
  destruct (map_res_ok amin (fun _ _ => True) D) as (mins & Hmins & Hm2).
  { intros row Hrow. destruct (amin_ok row) as (m & Hm); eauto.
    intros ->. apply HD in Hrow. simpl in Hrow. congruence. }
  destruct (map_res_ok argmin
              (fun row i => argmin row = inr i /\ i < n) D)
    as (argmins & Hargmins & Ha2).
  { intros row Hrow. destruct (argmin_ok row) as (i & Hi & Hlt).
    - intros ->. apply HD in Hrow. simpl in Hrow. congruence.
    - rewrite (HD _ Hrow) in Hlt. eauto. }
  assert (Hlm : List.length mins = List.length D).
  { symmetry. eapply Forall2_length; eauto. }
  assert (Hla : List.length argmins = List.length D).
  { symmetry. eapply Forall2_length; eauto. }
  destruct (map_res_ok (index argmins)
              (fun r c => index argmins r = inr c) (argsort mins))
    as (cols & Hcols & Hc2).
  { intros r Hr. apply argsort_lt in Hr.
    destruct (index_lt argmins r) as (c & Hc); [lia | eauto]. }
  exists mins, argmins, cols. repeat split; auto.
  - eapply Forall2_impl; [| exact Ha2]. simpl. tauto.
  - destruct (Forall2_combine _ _ _ Hc2 _ _ H) as [Hr _].
    apply argsort_lt in Hr. lia.
  - destruct (Forall2_combine _ _ _ Hc2 _ _ H) as [Hr Hc].
    apply index_inr in Hc.
    destruct (Forall2_nth_error _ _ _ Ha2 _ _ Hc) as (Drow & HDrow & Harg & Hlt).
    eauto.
Qed.

Lemma update_ok rects t :
  Inv P t ->
  exists t', update rects t = inr t' /\ Inv P t' /\ extends t t'.
Proof.
  intros HInv. pose proof HInv as (((Sd & Sh) & Hnd & Hlt) & HP & Hdis).
  unfold update. destruct rects as [| r0 rs].
  - (* no observation: every track ages *)
    destruct (age_ids_effect (Dict.keys (disappeared t)) t)
      as (t' & Hrun & HI' & HE' & _); auto.
    + rewrite Sd. assumption.
    + intros id Hid. unfold live. now rewrite <- Sd.
    + eauto.
  - set (rects := r0 :: rs).
    set (ics := map (fun r => centroid_of (rect_bbox r)) rects).
    assert (Hics : List.length ics = List.length rects)
      by (unfold ics; apply length_map).
    destruct (objects t) as [| e0 es] eqn:Hobj.
    + (* no track: every observation is registered *)
      apply register_loop_ok; auto.
      apply Forall_forall. intros i Hi. apply in_seq in Hi. lia.
    + rewrite <- Hobj in *.
      set (ids := Dict.keys (objects t)).
      set (D := dist (map centroid (Dict.values (objects t))) ics).
      assert (HlenD : List.length D = List.length ids).
      { unfold D, ids, Dict.values, Dict.keys.
        now rewrite dist_length, !length_map. }
      destruct (candidates_in_range D (List.length rects))
        as (mins & argmins & cols & Hmins & Hlm & Hargmins & Hcols & _ & _ & Hrange).
      { simpl. discriminate. }
      { apply Forall_forall. intros row Hrow.
        rewrite <- Hics. eapply dist_row; eauto. }
      rewrite Hmins. simpl. rewrite Hargmins. simpl. rewrite Hcols. simpl.
      destruct (for_each_inv (match_step rects ics D ids)
                  (fun l (s : MatchState) =>
                     Inv P (fst (fst s)) /\ extends t (fst (fst s))
                     /\ Dict.keys (objects (fst (fst s))) = ids
                     /\ (forall rc, In rc l ->
                           In rc (combine (argsort mins) cols))))
        with (l := combine (argsort mins) cols) (s := (t, @nil nat, @nil nat))
        as ([[t1 ur] uc] & Hloop & HI1 & HE1 & Hk1 & _).
      { intros [row col] l [[s ur] uc] (HI & HE & Hk & Hsub).
        cbn [fst snd] in *.
        destruct (Hrange row col) as (Hr & Drow & HDrow & _ & Hc);
          [apply Hsub; now left |].
        destruct (match_step_ok rects ics D ids row col s ur uc)
          as (s' & ur' & uc' & Hs & HI' & HE' & Hk'); auto; try lia.
        { exists Drow. split; [assumption |].
          assert (In Drow D) by (eapply nth_error_In; eauto).
          erewrite dist_row by eauto. lia. }
        exists (s', ur', uc'). split; [assumption |]. cbn [fst snd].
        split; [assumption |]. split; [eapply extends_trans; eauto |].
        split; [assumption |]. intros rc Hrc. apply Hsub. now right. }
      { cbn [fst snd]. split; [assumption |]. split; [apply extends_refl |]. auto. }
      rewrite Hloop. cbn [fst snd bind] in *.
      assert (Hrows : Forall (fun row => row < List.length ids)
                        (unused (List.length D) ur)).
      { apply Forall_forall. intros a Ha. apply unused_lt in Ha. lia. }
      rewrite (for_each_rows ids _ t1 Hrows).
      destruct (age_ids_effect
                  (map (fun row => nth row ids 0) (unused (List.length D) ur)) t1)
        as (t2 & Hage & HI2 & HE2 & _); auto.
      { apply NoDup_map_nth; auto. apply unused_NoDup. }
      { intros id Hid. apply in_map_iff in Hid.
        destruct Hid as (row & <- & Hrow).
        unfold live. rewrite Hk1. apply nth_In.
        rewrite Forall_forall in Hrows. auto. }
      rewrite Hage. simpl.
      destruct (register_loop_ok rects ics (unused (List.length rects) uc) t2)
        as (t3 & Hreg & HI3 & HE3); auto.
      { apply Forall_forall. intros i Hi. eapply unused_lt; eauto. }
      exists t3. split; [assumption |]. split; [assumption |].
      eapply extends_trans; [exact HE1 |].
      eapply extends_trans; eauto.
Qed.

Lemma run_ok frames : forall t,
  Inv P t -> exists t', run frames t = inr t' /\ Inv P t' /\ extends t t'.
Proof.
  induction frames as [| rects frames IH]; simpl; intros t HInv.
  - exists t. split; [reflexivity |]. split; [assumption | apply extends_refl].
  - destruct (update_ok rects t HInv) as (t1 & Hu & HI1 & HE1).
    rewrite Hu. simpl.
    destruct (IH t1 HI1) as (t2 & Hr & HI2 & HE2).
    exists t2. split; [assumption |]. split; [assumption |].
    eapply extends_trans; eauto.
Qed.

End TrackerUpdate.

(** ** Track identifiers and ageing *)

Section TrackIdentifiers.
Import Tracker TrackerSpec.

Lemma Inv_init P md mx : Inv P (Tracker.init md mx).
Proof.
  unfold Inv, wf, in_sync, Tracker.init; simpl.
  repeat split; constructor.
Qed.

Lemma run_from_Inv P frames t t' :
  (forall c b g conf, P (mkObj c b g conf [g] 1)) ->
  (forall c r o o', P o -> apply_match c r o = inr o' -> P o') ->
  Inv P t -> run frames t = inr t' -> Inv P t' /\ extends t t'.
Proof.
  intros H1 H2 HInv Hrun.
  destruct (run_ok P H1 H2 frames t HInv) as (t0 & E & HI & HE).
  rewrite Hrun in E. inversion E; subst. auto.
Qed.

Lemma live_lt P t id : Inv P t -> live id t -> id < next_object_id t.
Proof.
  intros ((_ & _ & Hlt) & _) Hl. rewrite Forall_forall in Hlt. auto.
Qed.

End TrackIdentifiers.

(** ** The gender vote *)

Section GenderVote.
Import Tracker TrackerSpec.

Lemma filter_filter {A} (f g : A -> bool) l :
  filter f (filter g l) = filter (fun x => g x && f x) l.
Proof.
  induction l as [| a l IH]; simpl; [reflexivity |].
  destruct (g a); simpl; [destruct (f a) |]; now rewrite IH.
Qed.

Lemma filter_dedup f h : filter f (dedup h) = dedup (filter f h).
Proof.
  induction h as [| x r IH]; simpl; [reflexivity |].
  destruct (f x) eqn:Hfx; simpl.
  - f_equal. rewrite <- IH.
    rewrite !filter_filter. apply filter_ext. intros a. apply andb_comm.
  - rewrite <- IH. rewrite filter_filter.
    apply filter_ext_in. intros a Ha.
    destruct (String.eqb_spec a x) as [-> | Hne]; simpl.
    + now rewrite Hfx.
    + reflexivity.
Qed.

Lemma In_dedup x h : In x (dedup h) <-> In x h.
Proof.
  induction h as [| y r IH]; simpl; [tauto |].
  rewrite filter_In, IH.
  destruct (String.eqb_spec x y) as [-> | Hne]; simpl; intuition congruence.
Qed.

(** What the counting loop computes, from any dictionary [c]. *)
Lemma fold_count_element l : forall c,
  NoDup (Dict.keys c) ->
  fold_left count_element l c
  = map (fun e => (fst e, snd e + count (fst e) l)) c
    ++ map (fun x => (x, count x l))
         (dedup (filter (fun x => negb (Dict.mem x c)) l)).
Proof.
  unfold count.
  induction l as [| x r IH]; intros c Hnd; simpl.
  - rewrite app_nil_r. induction c as [| [k n] c IHc]; simpl; [reflexivity |].
    inversion Hnd; subst. now rewrite Nat.add_0_r, <- IHc.
  - rewrite IH by (apply NoDup_keys_set; assumption).
    unfold count_element, Dict.mem.
    destruct (Dict.get x c) as [n |] eqn:Hget; simpl.
    + (* [x] is already counted *)
      f_equal.
      * clear IH. induction c as [| [k m] c IHc]; simpl in *; [discriminate |].
        inversion Hnd as [| ? ? Hnotin Hnd']; subst.
        destruct (String.eqb_spec x k) as [-> | Hne]; simpl.
        -- inversion Hget; subst. destruct (string_dec k k); [| congruence].
           f_equal; [f_equal; lia |].
           apply map_ext_in. intros [k' m'] Hin. simpl.
           destruct (string_dec k k') as [-> | Hne]; [| reflexivity].
           exfalso. apply Hnotin. change k' with (fst (k', m')).
           now apply in_map.
        -- destruct (string_dec x k); [congruence |].
           f_equal. apply IHc; assumption.
      * assert (E : filter (fun a => negb match Dict.get a (Dict.set x (S n) c) with
                                          | Some _ => true | None => false end) r
                    = filter (fun a => negb match Dict.get a c with
                                            | Some _ => true | None => false end) r).
        { apply filter_ext. intros a.
          destruct (String.eqb_spec a x) as [-> | Hne].
          - now rewrite get_set_same, Hget.
          - now rewrite get_set_other. }
        rewrite E. apply map_ext_in. intros a Ha.
        apply (proj1 (In_dedup _ _)) in Ha. apply filter_In in Ha. destruct Ha as [_ Ha].
        destruct (string_dec x a) as [-> | Hne]; [| reflexivity].
        rewrite Hget in Ha. discriminate.
    + apply get_None_iff in Hget. rewrite (set_notin _ _ _ Hget).
      rewrite map_app, <- app_assoc. simpl. f_equal.
      * apply map_ext_in. intros [k m] Hin. simpl.
        destruct (string_dec x k) as [-> | Hne]; [| reflexivity].
        exfalso. apply Hget. change k with (fst (k, m)). now apply in_map.
      * destruct (string_dec x x); [| congruence]. f_equal.
        rewrite filter_dedup, filter_filter.
        assert (E : filter (fun a => negb match Dict.get a (c ++ [(x, 1)]) with
                                          | Some _ => true | None => false end) r
                    = filter (fun a => negb match Dict.get a c with
                                            | Some _ => true | None => false end
                                       && negb (String.eqb a x)) r).
        { apply filter_ext. intros a. rewrite <- (set_notin _ _ _ Hget).
          destruct (String.eqb_spec a x) as [-> | Hne].
          - rewrite get_set_same. now rewrite andb_false_r.
          - rewrite get_set_other by assumption. now rewrite andb_true_r. }
        rewrite E. apply map_ext_in. intros a Ha.
        apply (proj1 (In_dedup _ _)) in Ha. apply filter_In in Ha. destruct Ha as [_ Ha].
        apply andb_true_iff in Ha. destruct Ha as [_ Ha].
        destruct (string_dec x a) as [-> | Hne]; [| reflexivity].
        rewrite String.eqb_refl in Ha. discriminate.
Qed.

Lemma Counter_spec h : Counter h = map (fun x => (x, count x h)) (dedup h).
Proof.
  unfold Counter. rewrite fold_count_element by constructor. simpl.
  f_equal. f_equal. clear. induction h as [| x r IH]; simpl; congruence.
Qed.

Lemma max_by_count_split l : forall best,
  exists A B,
    best :: l = A ++ max_by_count best l :: B
    /\ (forall a, In a A -> snd a < snd (max_by_count best l))
    /\ (forall b, In b B -> snd b <= snd (max_by_count best l)).
Proof.
  induction l as [| x l IH]; intros best; simpl.
  - exists [], []. repeat split; simpl; tauto.
  - destruct (snd best <? snd x) eqn:Hcmp.
    + apply Nat.ltb_lt in Hcmp.
      destruct (IH x) as (A & B & Hsplit & HA & HB).
      exists (best :: A), B. rewrite Hsplit. repeat split; auto.
      intros a [<- | Ha]; [| auto].
      assert (Hx : In x (A ++ max_by_count x l :: B))
        by (rewrite <- Hsplit; now left).
      apply in_app_or in Hx. destruct Hx as [Hx | [Hx | Hx]].
      * specialize (HA _ Hx). lia.
      * rewrite Hx. assumption.
      * specialize (HB _ Hx). lia.
    + apply Nat.ltb_ge in Hcmp.
      destruct (IH best) as (A & B & Hsplit & HA & HB).
      destruct A as [| a0 A'].
      * simpl in Hsplit. injection Hsplit as Hbest HB'.
        exists [], (x :: l). simpl. rewrite <- Hbest.
        split; [reflexivity |]. split; [tauto |].
        intros b [<- | Hb]; [lia |].
        rewrite HB' in Hb. apply HB in Hb. now rewrite <- Hbest in Hb.
      * simpl in Hsplit. injection Hsplit as Ha0 Hl. subst a0.
        exists (best :: x :: A'), B. simpl.
        split; [do 2 f_equal; exact Hl |]. split; [| assumption].
        intros a [<- | [<- | Ha]].
        -- apply HA. now left.
        -- specialize (HA best (or_introl eq_refl)). lia.
        -- apply HA. now right.
Qed.

Lemma filter_split {A} (f : A -> bool) l : forall L g R,
  filter f l = L ++ g :: R ->
  exists l1 l2, l = l1 ++ g :: l2 /\ filter f l1 = L /\ filter f l2 = R.
Proof.
  induction l as [| a l IH]; simpl; intros L g R E.
  - destruct L; discriminate.
  - destruct (f a) eqn:Hfa.
    + destruct L as [| b L']; simpl in E; inversion E; subst.
      * exists [], l. repeat split; reflexivity.
      * destruct (IH _ _ _ H1) as (l1 & l2 & -> & H2 & H3).
        exists (b :: l1), l2. simpl. rewrite Hfa, H2. auto.
    + destruct (IH _ _ _ E) as (l1 & l2 & -> & H2 & H3).
      exists (a :: l1), l2. simpl. rewrite Hfa. auto.
Qed.

Lemma dedup_split h : forall L g R,
  dedup h = L ++ g :: R ->
  exists pre post,
    h = pre ++ g :: post /\ ~ In g pre /\ (forall x, In x pre -> In x L).
Proof.
  induction h as [| x r IH]; simpl; intros L g R E.
  - destruct L; discriminate.
  - destruct L as [| y L']; simpl in E; inversion E; subst.
    + exists [], r. simpl. repeat split; tauto.
    + destruct (filter_split _ _ _ _ _ H1) as (l1 & l2 & Hd & Hl1 & Hl2).
      destruct (IH _ _ _ Hd) as (pre & post & -> & Hnot & Hincl).
      assert (Hgy : g <> y).
      { assert (Hin : In g (filter (fun z => negb (String.eqb z y)) (dedup (pre ++ g :: post)))).
        { rewrite H1. apply in_or_app. right. now left. }
        apply filter_In in Hin. destruct Hin as [_ Hin].
        destruct (String.eqb_spec g y); [discriminate | assumption]. }
      exists (y :: pre), post. simpl. repeat split.
      * intros [-> | Hin]; [congruence | contradiction].
      * intros z [<- | Hz]; [now left |].
        destruct (String.eqb_spec z y) as [-> | Hne]; [now left | right].
        rewrite <- Hl1. apply filter_In. split; [auto |].
        destruct (String.eqb_spec z y); [congruence | reflexivity].
Qed.

Lemma count_not_In x h : ~ In x h -> count x h = 0.
Proof. unfold count. apply count_occ_not_In. Qed.

(** The label voted by the code is the mode, ties going to the label
    that occurs first in the history. *)
Lemma voted_is_mode h g : voted h = Some g -> is_mode g h.
Proof.
  unfold voted. rewrite Counter_spec.
  destruct (dedup h) as [| x0 rest] eqn:Hd; simpl; [discriminate |].
  intros E. inversion E as [Hg]. clear E.
  destruct (max_by_count_split
              (map (fun x => (x, count x h)) rest) (x0, count x0 h))
    as (A & B & Hsplit & HA & HB).
  change ((x0, count x0 h) :: map (fun x => (x, count x h)) rest)
    with (map (fun x => (x, count x h)) (x0 :: rest)) in Hsplit.
  rewrite <- Hd in Hsplit.
  apply map_eq_app in Hsplit. destruct Hsplit as (A' & R' & Hd' & HA' & HR').
  apply map_eq_cons in HR'. destruct HR' as (g' & B' & -> & Hg' & HB').
  rewrite <- Hg' in Hg, HA, HB. simpl in Hg, HA, HB. subst g'.
  try (rewrite <- Hg'; cbn [fst]).
  assert (HA2 : forall a, In a A' -> count a h < count g h).
  { intros a Ha. apply (HA (a, count a h)). rewrite <- HA'.
    apply (in_map (fun x => (x, count x h))). assumption. }
  assert (HB2 : forall b, In b B' -> count b h <= count g h).
  { intros b Hb. apply (HB (b, count b h)). rewrite <- HB'.
    apply (in_map (fun x => (x, count x h))). assumption. }
  split.
  - intros x. destruct (in_dec string_dec x h) as [Hin | Hnot].
    + apply In_dedup in Hin. rewrite Hd' in Hin.
      apply in_app_or in Hin. destruct Hin as [Hin | [<- | Hin]].
      * specialize (HA2 _ Hin). lia.
      * lia.
      * auto.
    + rewrite (count_not_In _ _ Hnot). lia.
  - destruct (dedup_split _ _ _ _ Hd') as (pre & post & Hh & Hnot & Hincl).
    exists pre, post. repeat split; auto.
Qed.

Lemma voted_track_register c b g conf : voted_track (mkObj c b g conf [g] 1).
Proof.
  unfold voted_track, voted, Counter, count_element. simpl. split; [lia | reflexivity].
Qed.

Lemma vote_history g o o' :
  vote g o = inr o' ->
  (g = "Unknown" /\ o' = o)
  \/ (g <> "Unknown"
      /\ gender_history o' =
           (if 20 <? List.length (gender_history o ++ [g])
            then tl (gender_history o ++ [g]) else gender_history o ++ [g])
      /\ voted (gender_history o') = Some (gender o')
      /\ centroid o' = centroid o /\ bbox o' = bbox o
      /\ confidence o' = confidence o /\ hits o' = hits o).
Proof.
  unfold vote. destruct (String.eqb_spec g "Unknown") as [-> | Hne].
  - intros E. inversion E. auto.
  - intros E. apply bind_inr in E. destruct E as (top & Htop & E).
    inversion E; subst; clear E. right. simpl.
    repeat split; auto.
    unfold voted. apply index_inr in Htop.
    destruct (most_common_1 _) as [| e l]; simpl in *; [discriminate |].
    inversion Htop. reflexivity.
Qed.

Lemma voted_track_apply_match c r o o' :
  voted_track o -> apply_match c r o = inr o' -> voted_track o'.
Proof.
  unfold voted_track, apply_match. intros (Hlen & Hv) E.
  apply bind_inr in E. destruct E as (o1 & Hvote & E).
  inversion E; subst; clear E. simpl.
  apply vote_history in Hvote.
  destruct Hvote as [(_ & ->) | (_ & Hh & Hvoted & _)]; simpl in *.
  - auto.
  - split; [| assumption]. rewrite Hh.
    destruct (20 <? List.length (gender_history o ++ [rect_gender r])) eqn:Hc.
    + rewrite length_tl, length_app. simpl. lia.
    + apply Nat.ltb_ge in Hc. assumption.
Qed.

(** C3 (as amended): after every update, the history of every live track
    holds at most 20 labels and the current label is the label the code
    votes for, which is the mode of the history with ties going to the
    label that occurs first in it; [Male, Male, Female] votes [Male]; on a
    history of 20 labels a further label drops the oldest one. *)
Theorem C3_gender_vote (frames : list (list Rect)) :
  exists t,
    run frames Camera.tracker = inr t
    /\ Forall (fun e =>
         List.length (gender_history (snd e)) <= 20
         /\ voted (gender_history (snd e)) = Some (gender (snd e))
         /\ is_mode (gender (snd e)) (gender_history (snd e)))
       (objects t)
    /\ voted ["Male"; "Male"; "Female"] = Some "Male"
    /\ (forall c r o,
          rect_gender r <> "Unknown" ->
          List.length (gender_history o) = 20 ->
          exists o',
            apply_match c r o = inr o'
            /\ gender_history o' = tl (gender_history o) ++ [rect_gender r]
            /\ List.length (gender_history o') = 20).
Proof.
  destruct (run_ok voted_track voted_track_register voted_track_apply_match
              frames Camera.tracker (Inv_init voted_track 50 150%Z))
    as (t & Hrun & (_ & HP & _) & _).
  exists t. split; [assumption |]. split; [| split; [reflexivity |]].
  - eapply Forall_impl; [| exact HP]. intros [id o] (Hlen & Hv). simpl in *.
    split; [assumption |]. split; [assumption | now apply voted_is_mode].
  - intros c r o Hg Hlen.
    destruct (apply_match_ok c r o) as (o' & Ho'). exists o'.
    split; [assumption |].
    unfold apply_match in Ho'. apply bind_inr in Ho'.
    destruct Ho' as (o1 & Hvote & E). inversion E; subst; clear E. simpl.
    apply vote_history in Hvote.
    destruct Hvote as [(Hu & _) | (_ & Hh & _)]; [contradiction |].
    simpl in Hh. rewrite Hh.
    assert (Hl : (20 <? List.length (gender_history o ++ [rect_gender r])) = true).
    { apply Nat.ltb_lt. rewrite length_app. simpl. lia. }
    rewrite Hl. destruct (gender_history o) as [| x h]; simpl in *; [lia |].
    split; [reflexivity |]. rewrite length_app. simpl. lia.
Qed.

(** C3 as stated fails: with ties going to the label that is first to
    reach the maximal count, the history [Male, Female, Female, Male] of a
    track seen in four frames would vote [Female]; the code votes
    [Male]. *)
Lemma C3_first_to_reach_counterexample :
  ~ (forall frames t,
       run frames Camera.tracker = inr t ->
       Forall (fun e =>
                 mode_first_to_reach (gender_history (snd e))
                 = Some (gender (snd e)))
              (objects t)).
Proof.
  intros Hclaim.
  pose (seen := fun g => [mkRect (0, 0, 10, 10)%Z g (9 # 10)]).
  specialize (Hclaim [seen "Male"; seen "Female"; seen "Female"; seen "Male"]).
  destruct (run [seen "Male"; seen "Female"; seen "Female"; seen "Male"]
              Camera.tracker) as [e | t] eqn:Hrun;
    vm_compute in Hrun; [discriminate |].
  specialize (Hclaim t eq_refl).
  injection Hrun as <-.
  inversion Hclaim as [| e l Hhead Htail]; subst.
  vm_compute in Hhead. discriminate.
Qed.

End GenderVote.

(** ** Registration *)

Section Registration.
Import Tracker TrackerSpec.

(** C2: a new track starts with [disappeared = 0], [hits = 1] and the
    history [[label]] whatever the label is; an observation labelled
    [Unknown], registered by the camera's tracker, therefore starts with
    the history [[Unknown]], which the claim requires to be empty. *)
Theorem C2_register_history :
  (forall c b g conf t,
     Dict.get (next_object_id t) (objects (register c b g conf t))
     = Some (mkObj c b g conf [g] 1)
     /\ Dict.get (next_object_id t) (disappeared (register c b g conf t))
        = Some 0)
  /\ update [mkRect (0, 0, 10, 10)%Z "Unknown" (8 # 10)] Camera.tracker
     = inr (mkTracker 1
              [(0, mkObj (5, 5)%Z (0, 0, 10, 10)%Z "Unknown" (8 # 10)
                     ["Unknown"] 1)]
              [(0, 0)] [(0, [(5, 5)%Z])] 50 150).
Proof.
  split.
  - intros c b g conf t. unfold register; simpl.
    split; apply get_set_same.
  - vm_compute. reflexivity.
Qed.

End Registration.

(** ** Crowd aggregation *)

Section CrowdAggregation.
Import Tracker TrackerSpec Camera.

Lemma confirmed_count_cons g id o objs :
  confirmed_count g ((id, o) :: objs)
  = ((if confirmed_as g o then 1 else 0) + confirmed_count g objs)%Z.
Proof.
  unfold confirmed_count. cbn [filter snd].
  destruct (confirmed_as g o); cbn [List.length]; lia.
Qed.

Lemma count_step_spec m f id o :
  count_step (m, f) (id, o)
  = ((m + (if confirmed_as "Male" o then 1 else 0))%Z,
     (f + (if confirmed_as "Female" o then 1 else 0))%Z).
Proof.
  unfold count_step, confirmed_as.
  destruct (10 <=? hits o); cbn [andb].
  - destruct (String.eqb_spec (gender o) "Male") as [E | NE].
    + rewrite E. cbn. now rewrite Z.add_0_r.
    + destruct (String.eqb (gender o) "Female"); now rewrite ?Z.add_0_r.
  - now rewrite !Z.add_0_r.
Qed.

Lemma count_step_fold objs : forall m f,
  fold_left count_step objs (m, f)
  = ((m + confirmed_count "Male" objs)%Z, (f + confirmed_count "Female" objs)%Z).
Proof.
  induction objs as [| [id o] objs IH]; intros m f.
  - unfold confirmed_count. cbn. now rewrite !Z.add_0_r.
  - cbn [fold_left]. rewrite count_step_spec, IH, !confirmed_count_cons.
    f_equal; lia.
Qed.

Lemma count_objects_spec objs :
  count_objects objs
  = [("total", (confirmed_count "Male" objs + confirmed_count "Female" objs)%Z);
     ("male", confirmed_count "Male" objs);
     ("female", confirmed_count "Female" objs)].
Proof.
  unfold count_objects. rewrite count_step_fold. reflexivity.
Qed.

Lemma confirmed_count_app g objs e :
  confirmed_count g (objs ++ [e])
  = (confirmed_count g objs + (if confirmed_as g (snd e) then 1 else 0))%Z.
Proof.
  unfold confirmed_count. rewrite filter_app, length_app. simpl.
  destruct (confirmed_as g (snd e)); simpl; lia.
Qed.

(** C5: the counts are those of the confirmed tracks (at least 10 hits)
    labelled [Male] and [Female], and the total is their sum; a track
    with 9 hits changes no count, a [Male] track with 10 hits adds one to
    [male] and to [total], a track labelled [Unknown] changes no count. *)
Theorem C5_crowd_aggregation (objs : Dict.t nat Obj) :
  count_objects objs
  = [("total", (confirmed_count "Male" objs + confirmed_count "Female" objs)%Z);
     ("male", confirmed_count "Male" objs);
     ("female", confirmed_count "Female" objs)]
  /\ (forall id c b g conf h,
        count_objects (objs ++ [(id, mkObj c b g conf h 9)])
        = count_objects objs)
  /\ (forall id c b conf h,
        count_objects (objs ++ [(id, mkObj c b "Male" conf h 10)])
        = [("total",
            (confirmed_count "Male" objs + 1 + confirmed_count "Female" objs)%Z);
           ("male", (confirmed_count "Male" objs + 1)%Z);
           ("female", confirmed_count "Female" objs)])
  /\ (forall id c b conf h,
        count_objects (objs ++ [(id, mkObj c b "Female" conf h 10)])
        = [("total",
            (confirmed_count "Male" objs + (confirmed_count "Female" objs + 1))%Z);
           ("male", confirmed_count "Male" objs);
           ("female", (confirmed_count "Female" objs + 1)%Z)])
  /\ (forall id c b conf h n,
        count_objects (objs ++ [(id, mkObj c b "Unknown" conf h n)])
        = count_objects objs).
Proof.
  split; [apply count_objects_spec |].
  repeat split; intros; rewrite !count_objects_spec, !confirmed_count_app;
    unfold confirmed_as; cbn [snd hits gender Nat.leb andb];
    rewrite ?andb_false_r; cbn; rewrite ?Z.add_0_r; reflexivity.
Qed.

End CrowdAggregation.

(** ** The ad manager: decision, expiry and frame *)

Section AdDecision.
Import AdManager AdManagerSpec.

Lemma Qltb_lt x y : Qltb x y = true <-> (x < y)%Q.
Proof.
  unfold Qltb. rewrite negb_true_iff.
  split.
  - intros E. apply Qnot_le_lt. intros Hle.
    apply Qle_bool_iff in Hle. congruence.
  - intros Hlt. destruct (Qle_bool y x) eqn:E; [| reflexivity].
    apply Qle_bool_iff in E. exfalso. apply (Qlt_not_le _ _ Hlt E).
Qed.

Lemma Qltb_ge x y : Qltb x y = false <-> (y <= x)%Q.
Proof.
  unfold Qltb. rewrite negb_false_iff. apply Qle_bool_iff.
Qed.

Lemma truthy_time_pos t : (0 < t)%Q -> truthy_time (Some t) = true.
Proof.
  intros Hpos. unfold truthy_time. rewrite negb_true_iff.
  destruct (Qeq_bool t 0) eqn:E; [| reflexivity].
  apply Qeq_bool_iff in E. rewrite E in Hpos.
  exfalso. apply (Qlt_irrefl _ Hpos).
Qed.

Lemma coherent_showing s ad :
  coherent s -> current_ad s = Some ad ->
  exists start, ad_start_time s = Some start
                /\ truthy_ad (current_ad s) = true
                /\ truthy_time (ad_start_time s) = true.
Proof.
  unfold coherent. intros Hc E. rewrite E in *.
  destruct (ad_start_time s) as [start |]; [| contradiction].
  destruct Hc as (Hne & Hpos). exists start.
  split; [reflexivity |]. split; [| now apply truthy_time_pos].
  destruct ad; [congruence | reflexivity].
Qed.

Lemma coherent_idle s :
  coherent s -> current_ad s = None -> ad_start_time s = None.
Proof.
  unfold coherent. intros Hc E. rewrite E in Hc.
  destruct (ad_start_time s); [contradiction | reflexivity].
Qed.

(** [should_show_ad] never writes the state. *)
Lemma should_show_ad_state gender counts now s :
  snd (should_show_ad gender counts now s) = s.
Proof.
  unfold should_show_ad, mbind, self, mret.
  destruct (get_default "total" 0%Z counts =? 0)%Z; [reflexivity |].
  destruct (truthy_ad (current_ad s) && truthy_time (ad_start_time s)).
  - destruct (ad_start_time s) as [start |].
    + destruct (Qltb (now - start) Config.AD_DISPLAY_DURATION).
      * destruct (negb _); reflexivity.
      * destruct (Dict.get gender (last_ad_change_time s)); [| reflexivity].
        destruct (Qltb _ _); reflexivity.
    + destruct (Dict.get gender (last_ad_change_time s)); [| reflexivity].
      destruct (Qltb _ _); reflexivity.
  - destruct (Dict.get gender (last_ad_change_time s)); [| reflexivity].
    destruct (Qltb _ _); reflexivity.
Qed.

End AdDecision.

(** ** The ad manager: selection *)

Section AdSelection.
Import AdManager AdManagerSpec.

Lemma set_local_analytics_same s : set_local_analytics (local_analytics s) s = s.
Proof. destruct s; reflexivity. Qed.

Lemma mem_get {V} k (d : Dict.t string V) :
  Dict.mem k d = true -> exists v, Dict.get k d = Some v.
Proof. unfold Dict.mem. destruct (Dict.get k d); [eauto | discriminate]. Qed.

Lemma set_local_analytics_twice L L' s :
  set_local_analytics L (set_local_analytics L' s) = set_local_analytics L s.
Proof. reflexivity. Qed.

Lemma local_analytics_set L s : local_analytics (set_local_analytics L s) = L.
Proof. reflexivity. Qed.

Lemma local_ok_set k (d : Doc) L :
  doc_ad_id d = Some k ->
  NoDup (Dict.keys L)
  /\ Forall (fun e => doc_ad_id (snd e) = Some (fst e)) L ->
  NoDup (Dict.keys (Dict.set k d L))
  /\ Forall (fun e => doc_ad_id (snd e) = Some (fst e)) (Dict.set k d L).
Proof.
  intros Hd (Hnd & Hall). split; [now apply NoDup_keys_set |].
  rewrite Forall_forall in *. intros [k' d'] Hin.
  apply In_set in Hin. destruct Hin as [[-> ->] | Hin]; [assumption |].
  apply (Hall _ Hin).
Qed.

(** Counting in memory returns normally and writes [local_analytics]
    only. *)
Lemma track_in_memory_effect env ad s :
  exists L',
    track_in_memory env ad s = (inr tt, set_local_analytics L' s)
    /\ (local_ok s ->
        NoDup (Dict.keys L')
        /\ Forall (fun e => doc_ad_id (snd e) = Some (fst e)) L').
Proof.
  unfold track_in_memory, mbind, self, lift, mret, modify.
  set (ad_id := get_default "id" "UNKNOWN" ad).
  destruct (Dict.mem ad_id (local_analytics s)) eqn:Hmem.
  - destruct (mem_get _ _ Hmem) as (d & Hd).
    unfold Dict.item. rewrite Hd. cbn.
    eexists. split; [reflexivity |].
    intros Hok. apply local_ok_set; [| exact Hok]. cbn.
    destruct Hok as (_ & Hall). rewrite Forall_forall in Hall.
    apply (Hall (ad_id, d)). now apply get_Some_In.
  - rewrite local_analytics_set. unfold Dict.item. rewrite get_set_same. cbn.
    eexists. split; [reflexivity |].
    intros Hok. apply local_ok_set; [reflexivity |].
    apply local_ok_set; [reflexivity | exact Hok].
Qed.

(** [_track_ad_display] returns normally whatever the store does, and
    writes nothing but [local_analytics]. *)
Lemma track_ad_display_effect env ad s :
  exists L',
    track_ad_display env ad s = (inr tt, set_local_analytics L' s)
    /\ (local_ok s ->
        NoDup (Dict.keys L')
        /\ Forall (fun e => doc_ad_id (snd e) = Some (fst e)) L').
Proof.
  destruct (track_in_memory_effect env ad s) as (L' & Hrun & Hok).
  unfold track_ad_display, mtry, mbind, self, lift, mret.
  destruct (mongo_db s) as [db |].
  - destruct (update_one env) as [e | []].
    + rewrite Hrun. eauto.
    + exists (local_analytics s). rewrite set_local_analytics_same. auto.
  - rewrite Hrun. eauto.
Qed.

Lemma choose_catalog_nonempty gender s :
  truthy_list (demo_neutral_ads s) = true ->
  truthy_list (catalog (choose_catalog gender s) s) = true.
Proof.
  intros Hdemo. unfold choose_catalog.
  destruct (String.eqb gender "male").
  - destruct (truthy_list (male_ads s)) eqn:E; cbn [catalog].
    + now rewrite E.
    + destruct (truthy_list (demo_male_ads s)) eqn:E'; cbn [catalog]; auto.
  - destruct (String.eqb gender "female").
    + destruct (truthy_list (female_ads s)) eqn:E; cbn [catalog].
      * now rewrite E.
      * destruct (truthy_list (demo_female_ads s)) eqn:E'; cbn [catalog]; auto.
    + destruct (truthy_list (neutral_ads s)) eqn:E; cbn [catalog].
      * now rewrite E.
      * rewrite Hdemo. assumption.
Qed.

Lemma choice_ok {A} env (l : list A) s :
  truthy_list l = true ->
  exists a,
    choice env l s = (inr (drawn env l, a), s)
    /\ nth_error l (drawn env l) = Some a.
Proof.
  destruct l as [| x l']; [discriminate | intros _].
  unfold choice, mbind, lift, mret, drawn.
  set (l := x :: l').
  set (i := Nat.modulo (randbelow env (List.length l)) (List.length l)).
  assert (Hi : i < List.length l).
  { apply Nat.mod_upper_bound. discriminate. }
  destruct (index_lt l i Hi) as (a & Ha).
  exists a. rewrite Ha. split; [reflexivity | now apply index_inr].
Qed.

Lemma catalog_set_catalog c c' v s :
  catalog c' (set_catalog c v s)
  = if match c, c' with
       | MaleAds, MaleAds | FemaleAds, FemaleAds | NeutralAds, NeutralAds
       | DemoMaleAds, DemoMaleAds | DemoFemaleAds, DemoFemaleAds
       | DemoNeutralAds, DemoNeutralAds => true
       | _, _ => false
       end
    then v else catalog c' s.
Proof. destruct c, c'; reflexivity. Qed.

Lemma selectable_catalogs s s' :
  (forall c, catalog c s' = catalog c s) -> selectable s' = selectable s.
Proof.
  intros H. unfold selectable, all_catalogs. cbn [forallb].
  rewrite !H.
  change (demo_neutral_ads s') with (catalog DemoNeutralAds s').
  change (demo_neutral_ads s) with (catalog DemoNeutralAds s).
  now rewrite H.
Qed.

Lemma selectable_In s c ad :
  selectable s = true -> In ad (catalog c s) -> id_ok ad = true.
Proof.
  unfold selectable. intros Hsel Hin.
  apply andb_true_iff in Hsel. destruct Hsel as [Hall _].
  rewrite forallb_forall in Hall.
  assert (Hc : In c all_catalogs) by (destruct c; simpl; tauto).
  specialize (Hall c Hc). rewrite forallb_forall in Hall. auto.
Qed.

Lemma forallb_list_set {A} (f : A -> bool) l : forall i a,
  forallb f l = true -> f a = true -> forallb f (list_set l i a) = true.
Proof.
  induction l as [| x l IH]; intros i a Hl Ha; [reflexivity |].
  cbn in Hl. apply andb_true_iff in Hl. destruct Hl as [Hx Hl].
  destruct i; cbn; rewrite ?Ha, ?Hx; cbn; auto.
Qed.

Lemma truthy_list_set {A} (l : list A) i a :
  truthy_list (list_set l i a) = truthy_list l.
Proof. destruct l, i; reflexivity. Qed.

Lemma selectable_iff s :
  selectable s = true
  <-> (forall c, forallb id_ok (catalog c s) = true)
      /\ truthy_list (catalog DemoNeutralAds s) = true.
Proof.
  unfold selectable. rewrite andb_true_iff, forallb_forall.
  split; intros [Hall Hdemo]; (split; [| exact Hdemo]).
  - intros c. apply Hall. destruct c; simpl; tauto.
  - intros c _. apply Hall.
Qed.

Lemma selectable_set_catalog s c i ad :
  selectable s = true -> id_ok ad = true ->
  selectable (set_catalog c (list_set (catalog c s) i ad) s) = true.
Proof.
  rewrite !selectable_iff. intros [Hall Hdemo] Had. split.
  - intros c'. rewrite catalog_set_catalog.
    destruct c, c'; auto using forallb_list_set.
  - rewrite catalog_set_catalog.
    destruct c; rewrite ?truthy_list_set; assumption.
Qed.

Lemma append_underscore_nonempty a b : ((a ++ "_" ++ b)%string =? "")%string = false.
Proof. destruct a; reflexivity. Qed.

Lemma with_id_ok gender selected :
  id_ok selected = true ->
  exists id, Dict.get "id" (with_id gender selected) = Some id
             /\ (id =? "")%string = false.
Proof.
  unfold with_id, id_ok. intros Hok.
  destruct (Dict.mem "id" selected) eqn:Hmem.
  - destruct (mem_get _ _ Hmem) as (id & Hid). rewrite Hid in *.
    exists id. split; [reflexivity |]. now apply negb_true_iff.
  - exists (generated_id gender selected). rewrite get_set_same.
    split; [reflexivity | apply append_underscore_nonempty].
Qed.

Lemma id_ok_with_id gender selected :
  id_ok selected = true -> id_ok (with_id gender selected) = true.
Proof.
  intros Hok. destruct (with_id_ok gender selected Hok) as (id & Hid & Hne).
  unfold id_ok. rewrite Hid, Hne. reflexivity.
Qed.

Lemma shown_id env gender selected :
  Dict.get "id" (shown env gender selected)
  = Dict.get "id" (with_id gender selected).
Proof.
  unfold shown.
  rewrite get_set_other; [| intros E; discriminate E].
  rewrite get_set_other; [| intros E; discriminate E].
  reflexivity.
Qed.

Lemma set_nonempty {V} k (v : V) (d : Dict.t string V) : Dict.set k v d <> [].
Proof.
  destruct d as [| [k' v'] d]; cbn [Dict.set]; [| destruct (keqb k k')];
    discriminate.
Qed.

(** What [select_ad] returns and writes. *)
Lemma select_ad_effect env gender s :
  selectable s = true ->
  exists selected s',
    nth_error (catalog (choose_catalog gender s) s)
      (drawn env (catalog (choose_catalog gender s) s)) = Some selected
    /\ select_ad env gender s = (inr (shown env gender selected), s')
    /\ current_ad s' = Some (shown env gender selected)
    /\ ad_start_time s' = Some (clock env AtAdStart)
    /\ last_ad_change_time s'
       = Dict.set gender (clock env AtAdChange) (last_ad_change_time s)
    /\ last_majority_gender s' = Some gender
    /\ mongo_db s' = mongo_db s
    /\ selectable s' = true
    /\ (local_ok s -> local_ok s').
Proof.
  intros Hsel.
  assert (Hdemo : truthy_list (demo_neutral_ads s) = true).
  { unfold selectable in Hsel. apply andb_true_iff in Hsel. tauto. }
  destruct (choice_ok env (catalog (choose_catalog gender s) s) s
              (choose_catalog_nonempty gender s Hdemo))
    as (selected & Hchoice & Hnth).
  set (i := drawn env (catalog (choose_catalog gender s) s)) in *.
  exists selected.
  assert (Hok : id_ok selected = true).
  { eapply selectable_In; eauto. eapply nth_error_In; eauto. }
  unfold select_ad. unfold mbind at 1. unfold self at 1.
  unfold mbind at 1. rewrite Hchoice.
  unfold shown, with_id, generated_id.
  destruct (Dict.mem "id" selected) eqn:Hmem;
    unfold mbind, modify, mret, mtry;
    match goal with
    | |- context [track_ad_display ?e ?a ?st] =>
        destruct (track_ad_display_effect e a st) as (L' & Htrack & HL');
        rewrite Htrack
    end.
  - eexists. split; [exact Hnth |]. split; [reflexivity |].
    match goal with
    | |- context [if ?b then _ else _] => destruct b
    end; cbn;
      (do 5 (split; [reflexivity |]);
       split; [exact Hsel | intros Hl; apply HL'; exact Hl]).
  - eexists. split; [exact Hnth |]. split; [reflexivity |].
    assert (Hnew : id_ok (Dict.set "id" (generated_id gender selected) selected) = true).
    { unfold id_ok. rewrite get_set_same. unfold generated_id.
      apply negb_true_iff, append_underscore_nonempty. }
    pose proof (selectable_set_catalog s (choose_catalog gender s) i _ Hsel Hnew)
      as Hsel'.
    match goal with
    | |- context [if ?b then _ else _] => destruct b
    end; cbn;
      (do 5 (split; [destruct (choose_catalog gender s); reflexivity |]);
       split;
       [ match type of Hsel' with
         | selectable ?S0 = true =>
             transitivity (selectable S0);
             [ apply selectable_catalogs; intros c;
               destruct (choose_catalog gender s), c; reflexivity
             | exact Hsel' ]
         end
       | intros Hl; apply HL'; destruct (choose_catalog gender s); exact Hl ]).
Qed.

(** *** Invariants of the reachable states *)

Lemma preserves_bind {A B} J (m : M A) (k : A -> M B) :
  preserves J m -> (forall a, preserves J (k a)) -> preserves J (mbind m k).
Proof.
  unfold preserves, mbind. intros Hm Hk s Hs. specialize (Hm s Hs).
  destruct (m s) as [[e | a] s1]; cbn in *; [assumption | now apply Hk].
Qed.

Lemma preserves_try {A} J (m : M A) (h : exn -> M A) :
  preserves J m -> (forall e, preserves J (h e)) -> preserves J (mtry m h).
Proof.
  unfold preserves, mtry. intros Hm Hh s Hs. specialize (Hm s Hs).
  destruct (m s) as [[e | a] s1]; cbn in *; [now apply Hh | assumption].
Qed.

Lemma preserves_ret {A} J (a : A) : preserves J (mret a).
Proof. intros s Hs. exact Hs. Qed.

Lemma preserves_lift {A} J (r : res A) : preserves J (lift r).
Proof. intros s Hs. exact Hs. Qed.

Lemma preserves_modify J f :
  (forall s, J s -> J (f s)) -> preserves J (modify f).
Proof. intros Hf s Hs. now apply Hf. Qed.

Lemma load_file_id_ok gender_dir file ad :
  load_file gender_dir file = Some ad -> id_ok ad = true.
Proof.
  unfold load_file.
  destruct (_ || _); [discriminate |].
  destruct (PyStr.endswith_any media_suffixes _); [| discriminate].
  intros E. injection E as <-. unfold id_ok.
  cbn [Dict.get keqb KeyEq_string]. rewrite String.eqb_refl.
  apply negb_true_iff, append_underscore_nonempty.
Qed.

Lemma load_files_id_ok gender_dir files :
  forallb id_ok (load_files gender_dir files) = true.
Proof.
  apply forallb_forall. intros ad Hin. unfold load_files in Hin.
  apply in_flat_map in Hin. destruct Hin as (file & _ & Hin).
  destruct (load_file gender_dir file) as [ad' |] eqn:E; [| contradiction].
  destruct Hin as [<- | []]. eapply load_file_id_ok; eauto.
Qed.

Lemma sound_set_catalog c v s :
  sound s -> forallb id_ok v = true ->
  match c with DemoNeutralAds => False | _ => True end ->
  sound (set_catalog c v s).
Proof.
  intros (Hc & Hsel & Hl) Hv Hcat. split; [| split].
  - destruct c; exact Hc.
  - apply selectable_iff in Hsel. destruct Hsel as [Hall Hdemo].
    apply selectable_iff. split.
    + intros c'. rewrite catalog_set_catalog. destruct c, c'; auto.
    + rewrite catalog_set_catalog. destruct c; auto; contradiction.
  - destruct c; exact Hl.
Qed.

Lemma load_gender_dir_sound fs gender_dir :
  preserves sound (load_gender_dir fs gender_dir).
Proof.
  unfold load_gender_dir.
  destruct (gender_dir_exists fs gender_dir); [| apply preserves_ret].
  apply preserves_bind; [apply preserves_lift |].
  intros files.
  destruct (String.eqb gender_dir "male");
    [| destruct (String.eqb gender_dir "female")];
    apply preserves_modify; intros s Hs;
    (apply sound_set_catalog; [assumption | apply load_files_id_ok | exact I]).
Qed.

Lemma load_ads_sound fs : preserves sound (load_ads fs).
Proof.
  unfold load_ads. apply preserves_try; [| intros; apply preserves_ret].
  destruct (ads_dir_exists fs).
  - repeat (apply preserves_bind; [apply load_gender_dir_sound | intros _]).
    apply load_gender_dir_sound.
  - repeat (apply preserves_bind; [apply preserves_lift | intros _]).
    apply preserves_lift.
Qed.

Lemma sound_In s c ad : sound s -> In ad (catalog c s) -> id_ok ad = true.
Proof. intros (_ & Hsel & _). now apply selectable_In. Qed.

Lemma sound_catalog s c : sound s -> forallb id_ok (catalog c s) = true.
Proof.
  intros Hs. apply forallb_forall. intros ad Hin. eapply sound_In; eauto.
Qed.

Lemma init_sound mongo find_one dir fs : sound (init mongo find_one dir fs).
Proof.
  unfold init.
  match goal with
  | |- context [load_ads fs ?s0] =>
      assert (H0 : sound s0);
      [ split; [exact I | split; [vm_compute; reflexivity |]];
        split; constructor
      | pose proof (load_ads_sound fs s0 H0) as H1;
        set (s1 := snd (load_ads fs s0)) in * ]
  end.
  assert (H2 : sound (if truthy_list (male_ads s1) then s1
                      else set_catalog MaleAds (demo_male_ads s1) s1)).
  { destruct (truthy_list (male_ads s1)); [assumption |].
    apply sound_set_catalog; [assumption | | exact I].
    apply (sound_catalog s1 DemoMaleAds H1). }
  set (s2 := if truthy_list (male_ads s1) then s1
             else set_catalog MaleAds (demo_male_ads s1) s1) in *.
  assert (H3 : sound (if truthy_list (female_ads s2) then s2
                      else set_catalog FemaleAds (demo_female_ads s2) s2)).
  { destruct (truthy_list (female_ads s2)); [assumption |].
    apply sound_set_catalog; [assumption | | exact I].
    apply (sound_catalog s2 DemoFemaleAds H2). }
  set (s3 := if truthy_list (female_ads s2) then s2
             else set_catalog FemaleAds (demo_female_ads s2) s2) in *.
  destruct (truthy_list (neutral_ads s3)); [assumption |].
  apply sound_set_catalog; [assumption | | exact I].
  apply (sound_catalog s3 DemoNeutralAds H3).
Qed.

Lemma get_current_ad_cases now s :
  get_current_ad now s = (inr (current_ad s), s)
  \/ get_current_ad now s
     = (inr None, set_ad_start_time None (set_current_ad None s)).
Proof.
  unfold get_current_ad, mbind, self, mret, modify.
  destruct (truthy_ad (current_ad s) && truthy_time (ad_start_time s));
    [| now left].
  destruct (ad_start_time s) as [start |]; [| now left].
  destruct (Qltb (now - start) Config.AD_DISPLAY_DURATION);
    [now left | now right].
Qed.

Lemma sound_cleared s :
  sound s -> sound (set_ad_start_time None (set_current_ad None s)).
Proof.
  intros (Hc & Hsel & Hl). split; [exact I |]. split; [| exact Hl].
  etransitivity; [| exact Hsel]. apply selectable_catalogs.
  intros []; reflexivity.
Qed.

(** Every reachable state is sound. *)
Lemma reachable_sound s : reachable s -> sound s.
Proof.
  induction 1 as [mongo find_one dir fs | s g counts now Hr IH
                 | s env g Hr IH Hclock | s now Hr IH | s Hr IH].
  - apply init_sound.
  - now rewrite should_show_ad_state.
  - destruct IH as (Hc & Hsel & Hl).
    destruct (select_ad_effect env g s Hsel)
      as (selected & s' & _ & Hrun & Hcur & Hstart & _ & _ & _ & Hsel' & Hl').
    rewrite Hrun. cbn [snd]. split; [| split; [assumption | now apply Hl']].
    unfold coherent. rewrite Hcur, Hstart. split; [| apply Hclock].
    unfold shown. apply set_nonempty.
  - destruct (get_current_ad_cases now s) as [E | E]; rewrite E; cbn [snd].
    + assumption.
    + now apply sound_cleared.
  - unfold clear_ad, mbind, modify. cbn [snd]. now apply sound_cleared.
Qed.

End AdSelection.

(** ** The ad manager: the trigger decision *)

Section TriggerDecision.
Import AdManager AdManagerSpec.

Lemma should_show_ad_idle gender counts now s :
  total_of counts <> 0%Z ->
  truthy_ad (current_ad s) && truthy_time (ad_start_time s) = false
  \/ (exists start, ad_start_time s = Some start
                    /\ (Config.AD_DISPLAY_DURATION <= now - start)%Q) ->
  fst (should_show_ad gender counts now s)
  = inr (match Dict.get gender (last_ad_change_time s) with
         | Some last =>
             if Qltb (now - last) Config.AD_TRIGGER_DELAY
             then (false, TNone) else (true, TGender gender)
         | None => (true, TGender gender)
         end).
Proof.
  intros Htotal Hidle. unfold total_of in Htotal.
  apply Z.eqb_neq in Htotal.
  unfold should_show_ad, mbind, self, mret. rewrite Htotal.
  assert (Hcool :
    fst (match Dict.get gender (last_ad_change_time s) with
         | Some last =>
             if Qltb (now - last) Config.AD_TRIGGER_DELAY
             then fun s0 : State => (@inr exn _ (false, TNone), s0)
             else fun s0 : State => (inr (true, TGender gender), s0)
         | None => fun s0 : State => (inr (true, TGender gender), s0)
         end s)
    = inr (match Dict.get gender (last_ad_change_time s) with
           | Some last =>
               if Qltb (now - last) Config.AD_TRIGGER_DELAY
               then (false, TNone) else (true, TGender gender)
           | None => (true, TGender gender)
           end)).
  { destruct (Dict.get gender (last_ad_change_time s)); [| reflexivity].
    destruct (Qltb _ _); reflexivity. }
  destruct (truthy_ad (current_ad s) && truthy_time (ad_start_time s)) eqn:Ht;
    [| exact Hcool].
  destruct Hidle as [Hf | (start & Hstart & Hle)]; [discriminate |].
  rewrite Hstart. apply Qltb_ge in Hle. rewrite Hle. exact Hcool.
Qed.

Lemma should_show_ad_showing gender counts now s ad start :
  total_of counts <> 0%Z ->
  coherent s ->
  current_ad s = Some ad -> ad_start_time s = Some start ->
  (now - start < Config.AD_DISPLAY_DURATION)%Q ->
  fst (should_show_ad gender counts now s)
  = inr (if match last_majority_gender s with
            | Some g => String.eqb gender g
            | None => false
            end
         then (false, TAd (Some ad)) else (true, TGender gender)).
Proof.
  intros Htotal Hc Had Hstart Hlt. unfold total_of in Htotal.
  apply Z.eqb_neq in Htotal.
  destruct (coherent_showing s ad Hc Had) as (start' & Hs' & Ht1 & Ht2).
  unfold should_show_ad, mbind, self, mret. rewrite Htotal, Ht1, Ht2.
  cbn [andb]. rewrite Hstart. apply Qltb_lt in Hlt. rewrite Hlt.
  rewrite Had. destruct (match last_majority_gender s with
                         | Some g => String.eqb gender g
                         | None => false
                         end); reflexivity.
Qed.

(** C6: the decision table of [should_show_ad] in every reachable state,
    with [AD_DISPLAY_DURATION = 15] and [AD_TRIGGER_DELAY = 2]; after a
    selection at [t0], the same majority at [t0 + 5] gets
    [(False, current ad)] and another majority gets [(True, majority)];
    once the ad is cleared, the same gender is refused at [t0 + 1] and
    granted at [t0 + 3]. *)
Theorem C6_trigger_decision s gender counts now :
  reachable s ->
  Config.AD_DISPLAY_DURATION = 15%Q
  /\ Config.AD_TRIGGER_DELAY = 2%Q
  /\ (total_of counts = 0%Z ->
      fst (should_show_ad gender counts now s) = inr (false, TNone))
  /\ (total_of counts <> 0%Z ->
      forall ad start,
        current_ad s = Some ad -> ad_start_time s = Some start ->
        (now - start < Config.AD_DISPLAY_DURATION)%Q ->
        (last_majority_gender s = Some gender ->
         fst (should_show_ad gender counts now s) = inr (false, TAd (Some ad)))
        /\ (last_majority_gender s <> Some gender ->
            fst (should_show_ad gender counts now s)
            = inr (true, TGender gender)))
  /\ (total_of counts <> 0%Z ->
      (current_ad s = None
       \/ exists start, ad_start_time s = Some start
                        /\ (Config.AD_DISPLAY_DURATION <= now - start)%Q) ->
      (forall last,
         Dict.get gender (last_ad_change_time s) = Some last ->
         (now - last < Config.AD_TRIGGER_DELAY)%Q ->
         fst (should_show_ad gender counts now s) = inr (false, TNone))
      /\ (forall last,
            Dict.get gender (last_ad_change_time s) = Some last ->
            (Config.AD_TRIGGER_DELAY <= now - last)%Q ->
            fst (should_show_ad gender counts now s)
            = inr (true, TGender gender))
      /\ (Dict.get gender (last_ad_change_time s) = None ->
          fst (should_show_ad gender counts now s)
          = inr (true, TGender gender)))
  /\ (total_of counts <> 0%Z ->
      forall env t0,
        (0 < t0)%Q -> clock env AtAdStart = t0 -> clock env AtAdChange = t0 ->
        let showing := snd (select_ad env gender s) in
        let cleared := snd (clear_ad showing) in
        fst (should_show_ad gender counts (t0 + 5) showing)
        = inr (false, TAd (current_ad showing))
        /\ current_ad showing <> None
        /\ (forall other,
              other <> gender ->
              fst (should_show_ad other counts (t0 + 5) showing)
              = inr (true, TGender other))
        /\ fst (should_show_ad gender counts (t0 + 1) cleared)
           = inr (false, TNone)
        /\ fst (should_show_ad gender counts (t0 + 3) cleared)
           = inr (true, TGender gender)).
Proof.
  intros Hr. pose proof (reachable_sound s Hr) as (Hc & Hsel & Hl).
  split; [reflexivity |]. split; [reflexivity |]. split; [| split; [| split]].
  - intros Htotal. unfold should_show_ad, mbind, self, mret.
    unfold total_of in Htotal. rewrite Htotal. reflexivity.
  - intros Htotal ad start Had Hstart Hlt.
    rewrite (should_show_ad_showing gender counts now s ad start) by assumption.
    split.
    + intros ->. now rewrite String.eqb_refl.
    + intros Hne. destruct (last_majority_gender s) as [g |]; [| reflexivity].
      destruct (String.eqb_spec gender g) as [-> | _]; [congruence | reflexivity].
  - intros Htotal Hidle.
    assert (Hrun := should_show_ad_idle gender counts now s Htotal).
    rewrite Hrun.
    2:{ destruct Hidle as [Hnone | Hold]; [left | right; exact Hold].
        rewrite Hnone. reflexivity. }
    repeat split.
    + intros last -> Hlt. apply Qltb_lt in Hlt. now rewrite Hlt.
    + intros last -> Hle. apply Qltb_ge in Hle. now rewrite Hle.
    + intros ->. reflexivity.
  - intros Htotal env t0 Ht0 Hstart Hchange showing cleared.
    destruct (select_ad_effect env gender s Hsel)
      as (selected & s' & _ & Hrun & Hcur & Hst & Hlast & Hmaj & _).
    subst cleared showing. rewrite Hrun. cbn [snd].
    assert (Hcoh : coherent s').
    { unfold coherent. rewrite Hcur, Hst, Hstart.
      split; [apply set_nonempty | assumption]. }
    rewrite Hstart in Hst. rewrite Hchange in Hlast.
    assert (Hfive : (t0 + 5 - t0 < Config.AD_DISPLAY_DURATION)%Q).
    { unfold Config.AD_DISPLAY_DURATION. lra. }
    split; [| split; [| split; [| split]]].
    + rewrite (should_show_ad_showing gender counts _ s' _ t0) by eassumption.
      rewrite Hmaj, String.eqb_refl, Hcur. reflexivity.
    + rewrite Hcur. discriminate.
    + intros other Hne.
      rewrite (should_show_ad_showing other counts _ s' _ t0) by eassumption.
      rewrite Hmaj. destruct (String.eqb_spec other gender); [contradiction |].
      reflexivity.
    + unfold clear_ad, mbind, modify. cbn [snd].
      rewrite should_show_ad_idle; [| assumption | left; reflexivity].
      change (last_ad_change_time (set_ad_start_time None (set_current_ad None s')))
        with (last_ad_change_time s').
      rewrite Hlast, get_set_same.
      assert (H1 : Qltb (t0 + 1 - t0) Config.AD_TRIGGER_DELAY = true).
      { apply Qltb_lt. unfold Config.AD_TRIGGER_DELAY. lra. }
      now rewrite H1.
    + unfold clear_ad, mbind, modify. cbn [snd].
      rewrite should_show_ad_idle; [| assumption | left; reflexivity].
      change (last_ad_change_time (set_ad_start_time None (set_current_ad None s')))
        with (last_ad_change_time s').
      rewrite Hlast, get_set_same.
      assert (H3 : Qltb (t0 + 3 - t0) Config.AD_TRIGGER_DELAY = false).
      { apply Qltb_ge. unfold Config.AD_TRIGGER_DELAY. lra. }
      now rewrite H3.
Qed.

(** The decision table at work: a fresh manager, somebody counted, one
    male: the first decision is to show a male ad. *)
Lemma C6_trigger_decision_witness :
  reachable fresh_manager
  /\ fst (should_show_ad "male" (somebody 1 0) 1000 fresh_manager)
     = inr (true, TGender "male").
Proof.
  split; [apply reach_init |].
  destruct (C6_trigger_decision fresh_manager "male" (somebody 1 0) 1000
              (reach_init None (inr tt) "static/ads" no_inventory))
    as (_ & _ & _ & _ & Hidle & _).
  apply Hidle.
  - vm_compute. discriminate.
  - left. reflexivity.
  - reflexivity.
Defined.

End TriggerDecision.

(** ** The ad manager: expiry, frame and fallback *)

Section AdLifecycle.
Import AdManager AdManagerSpec.

(** C9: in a reachable state, an ad that started less than
    [AD_DISPLAY_DURATION = 15] seconds ago is returned and the state is
    left as it was; with no ad, or an ad that started 15 seconds ago or
    more, [None] is returned and the ad and its start time are cleared;
    in every case only these two fields can change. *)
Theorem C9_get_current_ad s now :
  reachable s ->
  Config.AD_DISPLAY_DURATION = 15%Q
  /\ (forall ad start,
        current_ad s = Some ad -> ad_start_time s = Some start ->
        (now - start < Config.AD_DISPLAY_DURATION)%Q ->
        get_current_ad now s = (inr (Some ad), s))
  /\ ((current_ad s = None
       \/ exists start, ad_start_time s = Some start
                        /\ (Config.AD_DISPLAY_DURATION <= now - start)%Q) ->
      fst (get_current_ad now s) = inr None
      /\ current_ad (snd (get_current_ad now s)) = None
      /\ ad_start_time (snd (get_current_ad now s)) = None)
  /\ last_ad_change_time (snd (get_current_ad now s)) = last_ad_change_time s
  /\ last_majority_gender (snd (get_current_ad now s)) = last_majority_gender s
  /\ ad_history (snd (get_current_ad now s)) = ad_history s
  /\ local_analytics (snd (get_current_ad now s)) = local_analytics s
  /\ (forall c, catalog c (snd (get_current_ad now s)) = catalog c s).
Proof.
  intros Hr. pose proof (reachable_sound s Hr) as (Hc & _).
  split; [reflexivity |]. split; [| split].
  - intros ad start Had Hstart Hlt.
    destruct (coherent_showing s ad Hc Had) as (start' & _ & Ht1 & Ht2).
    unfold get_current_ad, mbind, self, mret. rewrite Ht1, Ht2. cbn [andb].
    rewrite Hstart. apply Qltb_lt in Hlt. rewrite Hlt. now rewrite Had.
  - intros [Hnone | (start & Hstart & Hle)].
    + pose proof (coherent_idle s Hc Hnone) as Hst.
      unfold get_current_ad, mbind, self, mret. rewrite Hnone, Hst. cbn.
      rewrite Hnone, Hst. auto.
    + unfold get_current_ad, mbind, self, mret, modify. rewrite Hstart.
      apply Qltb_ge in Hle. rewrite Hle.
      destruct (truthy_ad (current_ad s) && truthy_time (Some start)) eqn:Ht;
        cbn; [auto |].
      unfold coherent in Hc. rewrite Hstart in Hc.
      destruct (current_ad s) as [ad |] eqn:Had; [| contradiction].
      destruct Hc as (Hne & Hpos).
      rewrite (truthy_time_pos _ Hpos) in Ht.
      destruct ad; [congruence | discriminate].
  - destruct (get_current_ad_cases now s) as [E | E]; rewrite E; cbn [snd];
      repeat split; intros []; reflexivity.
Qed.

(** An expired ad in a reachable state: selected at 1000, read at
    1015. *)
Lemma C9_get_current_ad_witness :
  reachable (snd (select_ad (env_at 1000) "male" fresh_manager))
  /\ fst (get_current_ad 1015
            (snd (select_ad (env_at 1000) "male" fresh_manager)))
     = inr None.
Proof.
  assert (Hr : reachable (snd (select_ad (env_at 1000) "male" fresh_manager))).
  { apply reach_select_ad; [apply reach_init | intros []; reflexivity]. }
  split; [exact Hr |].
  destruct (C9_get_current_ad _ 1015 Hr) as (_ & _ & Hexpired & _).
  apply Hexpired. right. exists 1000%Q. split; [reflexivity |].
  vm_compute. discriminate.
Defined.

(** C10 (as amended): [should_show_ad] leaves the whole state as it was;
    of the other operations, none but [select_ad] writes the last-trigger
    times, the last majority gender, the history, the analytics or the
    catalogues, and the current ad and its start time are either kept or
    cleared together. *)
Theorem C10_decision_frame :
  (forall gender counts now s,
     snd (should_show_ad gender counts now s) = s)
  /\ (forall op s,
        is_select_ad op = false ->
        last_ad_change_time (state_after op s) = last_ad_change_time s
        /\ last_majority_gender (state_after op s) = last_majority_gender s
        /\ ad_history (state_after op s) = ad_history s
        /\ local_analytics (state_after op s) = local_analytics s
        /\ mongo_db (state_after op s) = mongo_db s
        /\ (forall c, catalog c (state_after op s) = catalog c s)
        /\ ((current_ad (state_after op s) = current_ad s
             /\ ad_start_time (state_after op s) = ad_start_time s)
            \/ (current_ad (state_after op s) = None
                /\ ad_start_time (state_after op s) = None))).
Proof.
  split; [apply should_show_ad_state |].
  intros op s Hop.
  destruct op as [g counts now | env g | now | | limit | | find];
    cbn [state_after].
  - rewrite should_show_ad_state. repeat split; auto.
  - discriminate.
  - destruct (get_current_ad_cases now s) as [E | E]; rewrite E; cbn [snd].
    + repeat split; auto.
    + do 5 (split; [reflexivity |]). split; [intros []; reflexivity |].
      right. split; reflexivity.
  - unfold clear_ad, mbind, modify. cbn [snd].
    do 5 (split; [reflexivity |]). split; [intros []; reflexivity |].
    right. split; reflexivity.
  - repeat split; auto.
  - repeat split; auto.
  - repeat split; auto.
Qed.

(** C10 as stated fails: [get_current_ad] is not [select_ad] and writes
    the state, when it finds the current ad expired. *)
Lemma C10_only_select_ad_writes_counterexample :
  ~ (forall op s,
       reachable s -> is_select_ad op = false -> state_after op s = s).
Proof.
  intros Hclaim.
  assert (Hr : reachable (snd (select_ad (env_at 1000) "male" fresh_manager))).
  { apply reach_select_ad; [apply reach_init | intros []; reflexivity]. }
  specialize (Hclaim (OpGetCurrentAd 1015) _ Hr eq_refl).
  apply (f_equal ad_start_time) in Hclaim.
  vm_compute in Hclaim. discriminate.
Qed.

Lemma fallback_chain_choice gender s :
  truthy_list (demo_neutral_ads s) = true ->
  first_nonempty (fallback_chain gender) s = Some (choose_catalog gender s).
Proof.
  intros Hdemo. unfold first_nonempty, fallback_chain, choose_catalog.
  destruct (String.eqb gender "male"); [| destruct (String.eqb gender "female")];
    cbn [find catalog].
  - destruct (truthy_list (male_ads s)) eqn:E1; cbn [catalog]; rewrite ?E1;
      [reflexivity |].
    destruct (truthy_list (demo_male_ads s)) eqn:E2; [reflexivity |].
    now rewrite Hdemo.
  - destruct (truthy_list (female_ads s)) eqn:E1; cbn [catalog]; rewrite ?E1;
      [reflexivity |].
    destruct (truthy_list (demo_female_ads s)) eqn:E2; [reflexivity |].
    now rewrite Hdemo.
  - destruct (truthy_list (neutral_ads s)) eqn:E1; cbn [catalog]; rewrite ?E1;
      [reflexivity |].
    rewrite Hdemo. reflexivity.
Qed.

(** C7: in every reachable state, and in every state whose catalogue
    entries have no empty identifier and whose neutral demo catalogue is
    not empty, [select_ad] returns normally; the record comes from the
    first non-empty catalogue of the fallback chain, carries a non-empty
    identifier and the gender asked for, and is the same whatever the
    store does. *)
Theorem C7_select_never_fails s env gender :
  reachable s \/ selectable s = true ->
  exists selected s',
    first_nonempty (fallback_chain gender) s = Some (choose_catalog gender s)
    /\ nth_error (catalog (choose_catalog gender s) s)
         (drawn env (catalog (choose_catalog gender s) s)) = Some selected
    /\ select_ad env gender s = (inr (shown env gender selected), s')
    /\ (exists id, Dict.get "id" (shown env gender selected) = Some id
                   /\ id <> "")
    /\ Dict.get "gender" (shown env gender selected) = Some gender
    /\ selectable s' = true
    /\ (forall outcome,
          fst (select_ad (mkEnv (randbelow env) (clock env) (isoformat env)
                            outcome) gender s)
          = inr (shown env gender selected)).
Proof.
  intros Hs.
  assert (Hsel : selectable s = true).
  { destruct Hs as [Hr | Hsel]; [| exact Hsel]. apply (reachable_sound s Hr). }
  destruct (select_ad_effect env gender s Hsel)
    as (selected & s' & Hnth & Hrun & _ & _ & _ & _ & _ & Hsel' & _).
  exists selected, s'.
  assert (Hdemo : truthy_list (demo_neutral_ads s) = true).
  { unfold selectable in Hsel. apply andb_true_iff in Hsel. tauto. }
  split; [now apply fallback_chain_choice |].
  split; [exact Hnth |]. split; [exact Hrun |]. split; [| split; [| split]].
  - assert (Hok : id_ok selected = true).
    { apply (selectable_In s (choose_catalog gender s));
        [exact Hsel | eapply nth_error_In; exact Hnth]. }
    destruct (with_id_ok gender selected Hok) as (id & Hid & Hne).
    exists id. rewrite shown_id. split; [exact Hid |].
    intros ->. discriminate.
  - unfold shown. rewrite get_set_other; [| intros E; discriminate E].
    apply get_set_same.
  - exact Hsel'.
  - intros outcome.
    destruct (select_ad_effect
                (mkEnv (randbelow env) (clock env) (isoformat env) outcome)
                gender s Hsel)
      as (selected' & s'' & Hnth' & Hrun' & _).
    rewrite Hrun'. cbn [fst].
    change (drawn (mkEnv (randbelow env) (clock env) (isoformat env) outcome)
              (catalog (choose_catalog gender s) s))
      with (drawn env (catalog (choose_catalog gender s) s)) in Hnth'.
    rewrite Hnth in Hnth'. injection Hnth' as <-. reflexivity.
Qed.

(** Selection with nothing for men, neither in the inventory nor in the
    demo catalogue, and a failing store: a neutral demo ad is returned. *)
Lemma C7_select_never_fails_witness :
  (reachable nothing_for_men \/ selectable nothing_for_men = true)
  /\ fst (select_ad (env_at 1000) "male" nothing_for_men)
     = inr (shown (env_at 1000) "male"
              (demo_ad "NEUTRAL_001"
                 "https://images.unsplash.com/photo-1557683316-973673baf926?w=800"
                 "Mall Special Promotions"
                 "Weekend sales, special discounts - Shop now!")).
Proof.
  assert (Hs : reachable nothing_for_men \/ selectable nothing_for_men = true).
  { right. vm_compute. reflexivity. }
  split; [exact Hs |].
  destruct (C7_select_never_fails nothing_for_men (env_at 1000) "male" Hs)
    as (selected & s' & _ & Hnth & Hrun & _).
  rewrite Hrun. cbn [fst].
  vm_compute in Hnth. injection Hnth as <-. reflexivity.
Defined.

End AdLifecycle.

(** ** The ad manager: the analytics read *)

Section AnalyticsRead.
Import AdManager AdManagerSpec.

Lemma filed_set k doc d :
  doc_key doc = k -> filed d -> filed (Dict.set k doc d).
Proof.
  intros Hk (Hnd & Hall). split; [now apply NoDup_keys_set |].
  rewrite Forall_forall in *. intros [k' d'] Hin.
  apply In_set in Hin. destruct Hin as [[-> ->] | Hin]; [assumption |].
  apply (Hall _ Hin).
Qed.

Lemma filed_value d doc :
  filed d -> In doc (Dict.values d) -> Dict.get (doc_key doc) d = Some doc.
Proof.
  intros (Hnd & Hall) Hin. unfold Dict.values in Hin.
  apply in_map_iff in Hin. destruct Hin as ([k doc'] & E & Hin).
  cbn in E. subst doc'. rewrite Forall_forall in Hall.
  pose proof (Hall _ Hin) as Hk. cbn in Hk. rewrite Hk.
  now apply In_get_NoDup.
Qed.

Lemma store_filed docs : forall acc,
  filed acc -> filed (fold_left add_store_doc docs acc).
Proof.
  induction docs as [| x r IH]; intros acc Hacc; cbn [fold_left];
    [assumption |].
  apply IH. unfold add_store_doc. now apply filed_set.
Qed.

Lemma store_get_other docs k : forall acc,
  ~ In k (map doc_key docs) ->
  Dict.get k (fold_left add_store_doc docs acc) = Dict.get k acc.
Proof.
  induction docs as [| x r IH]; intros acc Hnot; cbn [fold_left];
    [reflexivity |].
  cbn in Hnot. rewrite IH by tauto. unfold add_store_doc.
  apply get_set_other. intros ->. apply Hnot. now left.
Qed.

Lemma store_get docs doc : forall acc,
  NoDup (map doc_key docs) -> In doc docs ->
  Dict.get (doc_key doc) (fold_left add_store_doc docs acc) = Some doc.
Proof.
  induction docs as [| x r IH]; intros acc Hnd Hin; [contradiction |].
  cbn [fold_left]. cbn in Hnd. inversion Hnd as [| ? ? Hnot Hnd']; subst.
  destruct Hin as [-> | Hin].
  - rewrite store_get_other by assumption.
    unfold add_store_doc. apply get_set_same.
  - now apply IH.
Qed.

Lemma merge_local_filed local : forall acc,
  Forall (fun e => doc_ad_id (snd e) = Some (fst e)) local ->
  filed acc -> filed (fold_left merge_local local acc).
Proof.
  induction local as [| [k dl] r IH]; intros acc Hl Hacc; cbn [fold_left];
    [assumption |].
  inversion Hl as [| ? ? Hk Hr]; subst. cbn in Hk.
  apply IH; [assumption |]. unfold merge_local.
  destruct (Dict.get k acc) as [dm |] eqn:Hget.
  - apply filed_set; [| assumption].
    destruct Hacc as (_ & Hall). rewrite Forall_forall in Hall.
    apply (Hall (k, dm)). now apply get_Some_In.
  - apply filed_set; [| assumption]. unfold doc_key. now rewrite Hk.
Qed.

Lemma merge_get_other local k : forall acc,
  ~ In k (Dict.keys local) ->
  Dict.get k (fold_left merge_local local acc) = Dict.get k acc.
Proof.
  induction local as [| [k0 d0] r IH]; intros acc Hnot; cbn [fold_left];
    [reflexivity |].
  cbn in Hnot. rewrite IH by tauto. unfold merge_local.
  destruct (Dict.get k0 acc); apply get_set_other; intros ->; apply Hnot;
    now left.
Qed.

(** The merged index, key by key. *)
Lemma merge_get local k : forall acc,
  NoDup (Dict.keys local) ->
  Dict.get k (fold_left merge_local local acc)
  = match Dict.get k local, Dict.get k acc with
    | Some dl, Some dm =>
        Some (set_display_count (Z.max (display_count dm) (display_count dl)) dm)
    | Some dl, None => Some dl
    | None, found => found
    end.
Proof.
  induction local as [| [k0 d0] r IH]; intros acc Hnd; cbn [fold_left].
  - cbn. destruct (Dict.get k acc); reflexivity.
  - cbn in Hnd. inversion Hnd as [| ? ? Hnot Hnd']; subst.
    cbn [Dict.get]. destruct (keqb_spec k k0) as [-> | Hne].
    + rewrite merge_get_other by assumption. unfold merge_local.
      destruct (Dict.get k0 acc); apply get_set_same.
    + rewrite IH by assumption.
      assert (E : Dict.get k (merge_local acc (k0, d0)) = Dict.get k acc).
      { unfold merge_local.
        destruct (Dict.get k0 acc); now apply get_set_other. }
      now rewrite E.
Qed.

Lemma insert_desc_In x l d : In d (insert_desc x l) -> d = x \/ In d l.
Proof.
  induction l as [| y r IH]; cbn.
  - intuition.
  - destruct (display_count y <=? display_count x)%Z; cbn; intuition.
Qed.

Lemma In_insert_desc x l d : d = x \/ In d l -> In d (insert_desc x l).
Proof.
  induction l as [| y r IH]; cbn.
  - intuition.
  - destruct (display_count y <=? display_count x)%Z; cbn; intuition.
Qed.

Lemma sort_desc_In l d : In d (sort_desc l) <-> In d l.
Proof.
  unfold sort_desc. induction l as [| x r IH]; cbn [fold_right In]; [tauto |].
  split; intros H.
  - apply insert_desc_In in H.
    destruct H as [-> | H]; [now left | right; now apply IH].
  - apply In_insert_desc.
    destruct H as [<- | H]; [now left | right; now apply IH].
Qed.

Lemma firstn_In {A} n (l : list A) a : In a (firstn n l) -> In a l.
Proof.
  revert l. induction n as [| n IH]; intros [| x l]; cbn; try tauto.
  intros [-> | H]; auto.
Qed.

(** Every document an analytics read shows is a merged document, with a
    missing count written as [0]. *)
Lemma reported_merged truth find s d :
  In d (reported (get_ad_analytics truth find s)) ->
  exists d0,
    In d0 (merged_docs truth find s) /\ d = ensure_count d0.
Proof.
  unfold get_ad_analytics, merged_docs.
  destruct (read_store truth find s) as [e | docs]; [intros [] |].
  unfold reported, report. cbv zeta.
  cbn [analytics_male_ads analytics_female_ads analytics_neutral_ads
       most_displayed].
  set (all := Dict.values _).
  rewrite !in_app_iff, !in_map_iff.
  intros [H | [H | [H | H]]]; destruct H as (d0 & <- & Hin);
    exists d0; (split; [| reflexivity]).
  - apply (proj1 (sort_desc_In _ _)) in Hin.
    apply (proj1 (filter_In _ _ _)) in Hin. tauto.
  - apply (proj1 (sort_desc_In _ _)) in Hin.
    apply (proj1 (filter_In _ _ _)) in Hin. tauto.
  - apply (proj1 (sort_desc_In _ _)) in Hin.
    apply (proj1 (filter_In _ _ _)) in Hin. tauto.
  - apply firstn_In in Hin. apply (proj1 (sort_desc_In _ _)) in Hin.
    exact Hin.
Qed.

(** With a handle that tests true and a read that succeeds, the
    documents of the store are read. *)
Lemma read_store_true docs s :
  mongo_db s <> None -> read_store (inr true) (inr docs) s = inr docs.
Proof.
  intros Hdb. unfold read_store.
  destruct (mongo_db s); [reflexivity | congruence].
Qed.

(** With a handle whose truth test raises, nothing is read. *)
Lemma read_store_raises e find s :
  mongo_db s <> None -> read_store (inl e) find s = inl e.
Proof.
  intros Hdb. unfold read_store.
  destruct (mongo_db s); [reflexivity | congruence].
Qed.

Lemma ensure_count_key d : doc_key (ensure_count d) = doc_key d.
Proof. unfold ensure_count. destruct (doc_display_count d); reflexivity. Qed.

Lemma ensure_count_count d :
  doc_display_count (ensure_count d) = Some (display_count d).
Proof.
  unfold ensure_count, display_count.
  destruct (doc_display_count d) eqn:E; [exact E | reflexivity].
Qed.

Lemma merged_filed docs s :
  local_ok s -> filed (merged docs (local_analytics s)).
Proof.
  intros (Hnd & Hall). unfold merged.
  apply merge_local_filed; [assumption |].
  apply store_filed. split; constructor.
Qed.

Lemma merged_get docs s k :
  local_ok s -> NoDup (map doc_key docs) ->
  Dict.get k (merged docs (local_analytics s))
  = match Dict.get k (local_analytics s),
          Dict.get k (fold_left add_store_doc docs []) with
    | Some dl, Some dm =>
        Some (set_display_count (Z.max (display_count dm) (display_count dl)) dm)
    | Some dl, None => Some dl
    | None, found => found
    end.
Proof.
  intros (Hnd & _) _. unfold merged. now apply merge_get.
Qed.

(** The document shown for a key is the merged document of that key. *)
Lemma reported_get docs s d :
  local_ok s -> mongo_db s <> None ->
  In d (reported (get_ad_analytics (inr true) (inr docs) s)) ->
  exists d0,
    Dict.get (doc_key d) (merged docs (local_analytics s)) = Some d0
    /\ doc_display_count d = Some (display_count d0).
Proof.
  intros Hl Hdb Hin. apply reported_merged in Hin.
  destruct Hin as (d0 & Hin & ->).
  unfold merged_docs in Hin. rewrite (read_store_true docs s Hdb) in Hin.
  exists d0. rewrite ensure_count_key, ensure_count_count.
  split; [| reflexivity].
  apply filed_value; [now apply merged_filed | assumption].
Qed.

(** A merged document is shown in the list of its gender. *)
Lemma bucket_shows docs s g k d0 :
  mongo_db s <> None ->
  In g ["male"; "female"; "neutral"] ->
  Dict.get k (merged docs (local_analytics s)) = Some d0 ->
  doc_gender_is g d0 = true ->
  In (ensure_count d0) (bucket g (get_ad_analytics (inr true) (inr docs) s)).
Proof.
  intros Hdb Hg Hget Hgender.
  assert (Hall : In d0 (Dict.values (merged docs (local_analytics s)))).
  { apply get_Some_In in Hget. unfold Dict.values.
    change d0 with (snd (k, d0)). now apply in_map. }
  assert (Hb : forall g', doc_gender_is g' d0 = true ->
             In (ensure_count d0)
                (map ensure_count
                   (sort_desc (filter (doc_gender_is g')
                      (Dict.values (merged docs (local_analytics s))))))).
  { intros g' Hg'. apply in_map, sort_desc_In, filter_In. auto. }
  unfold bucket, get_ad_analytics. rewrite (read_store_true docs s Hdb).
  destruct Hg as [<- | [<- | [<- | []]]]; cbn; now apply Hb.
Qed.

Lemma set_display_count_gender g n d :
  doc_gender_is g (set_display_count n d) = doc_gender_is g d.
Proof. reflexivity. Qed.

(** C8: in a reachable state with a store that files one document per
    ad id.  When the truth test of the store handle raises, as it does
    for the handle the application passes, the read reports nothing at
    all: no list, no total; persisted 3 and in-memory 5 are reported as
    nothing.  When the handle tests true and the read succeeds, the
    merge is the one described: an id held by both stores is shown, in
    the list of its gender, with the larger of the two counts, an id
    held by one store only is shown, in the list of its gender, with the
    count of that store, and no document shown for an id carries another
    count; persisted 3 and in-memory 5 are then reported as 5. *)
Theorem C8_analytics_merge s docs :
  reachable s -> mongo_db s <> None -> NoDup (map doc_key docs) ->
  (forall e find, get_ad_analytics (inl e) find s = empty_analytics)
  /\ (forall e,
        get_ad_analytics (inl e) (inr [persisted "MALE_001" "male" 3])
          (after_selections 5 "male" 1000)
        = empty_analytics)
  /\ (forall dm dl,
        In dm docs -> Dict.get (doc_key dm) (local_analytics s) = Some dl ->
        (forall d,
           In d (reported (get_ad_analytics (inr true) (inr docs) s)) ->
           doc_key d = doc_key dm ->
           doc_display_count d
           = Some (Z.max (display_count dm) (display_count dl)))
        /\ (forall g,
              In g ["male"; "female"; "neutral"] -> doc_gender_is g dm = true ->
              exists d,
                In d (bucket g (get_ad_analytics (inr true) (inr docs) s))
                /\ doc_key d = doc_key dm
                /\ doc_display_count d
                   = Some (Z.max (display_count dm) (display_count dl))))
  /\ (forall dm,
        In dm docs -> Dict.get (doc_key dm) (local_analytics s) = None ->
        (forall d,
           In d (reported (get_ad_analytics (inr true) (inr docs) s)) ->
           doc_key d = doc_key dm ->
           doc_display_count d = Some (display_count dm))
        /\ (forall g,
              In g ["male"; "female"; "neutral"] -> doc_gender_is g dm = true ->
              exists d,
                In d (bucket g (get_ad_analytics (inr true) (inr docs) s))
                /\ doc_key d = doc_key dm
                /\ doc_display_count d = Some (display_count dm)))
  /\ (forall id dl,
        Dict.get id (local_analytics s) = Some dl ->
        ~ In id (map doc_key docs) ->
        (forall d,
           In d (reported (get_ad_analytics (inr true) (inr docs) s)) ->
           doc_key d = id ->
           doc_display_count d = Some (display_count dl))
        /\ (forall g,
              In g ["male"; "female"; "neutral"] -> doc_gender_is g dl = true ->
              exists d,
                In d (bucket g (get_ad_analytics (inr true) (inr docs) s))
                /\ doc_key d = id
                /\ doc_display_count d = Some (display_count dl)))
  /\ map doc_display_count
       (analytics_male_ads
          (get_ad_analytics (inr true) (inr [persisted "MALE_001" "male" 3])
             (after_selections 5 "male" 1000)))
     = [Some 5%Z].
Proof.
  intros Hr Hdb Hnd. pose proof (reachable_sound s Hr) as (_ & _ & Hl).
  split; [| split; [| split; [| split; [| split]]]].
  - intros e find. unfold get_ad_analytics.
    now rewrite (read_store_raises e find s Hdb).
  - intros e. reflexivity.
  - intros dm dl Hdm Hdl.
    assert (Hget : Dict.get (doc_key dm) (merged docs (local_analytics s))
                   = Some (set_display_count
                             (Z.max (display_count dm) (display_count dl)) dm)).
    { rewrite merged_get by assumption.
      rewrite Hdl, (store_get docs dm [] Hnd Hdm). reflexivity. }
    split.
    + intros d Hd Hk.
      destruct (reported_get docs s d Hl Hdb Hd) as (d0 & Hd0 & Hcount).
      rewrite Hk, Hget in Hd0. injection Hd0 as <-. exact Hcount.
    + intros g Hg Hgender.
      exists (ensure_count (set_display_count
                              (Z.max (display_count dm) (display_count dl)) dm)).
      split; [| split].
      * eapply bucket_shows; eauto.
      * rewrite ensure_count_key. reflexivity.
      * rewrite ensure_count_count. reflexivity.
  - intros dm Hdm Hnone.
    assert (Hget : Dict.get (doc_key dm) (merged docs (local_analytics s))
                   = Some dm).
    { rewrite merged_get by assumption.
      rewrite Hnone, (store_get docs dm [] Hnd Hdm). reflexivity. }
    split.
    + intros d Hd Hk.
      destruct (reported_get docs s d Hl Hdb Hd) as (d0 & Hd0 & Hcount).
      rewrite Hk, Hget in Hd0. injection Hd0 as <-. exact Hcount.
    + intros g Hg Hgender. exists (ensure_count dm).
      split; [| split].
      * eapply bucket_shows; eauto.
      * apply ensure_count_key.
      * apply ensure_count_count.
  - intros id dl Hdl Hnot.
    assert (Hget : Dict.get id (merged docs (local_analytics s)) = Some dl).
    { rewrite merged_get by assumption.
      rewrite Hdl, (store_get_other docs id [] Hnot). reflexivity. }
    split.
    + intros d Hd Hk.
      destruct (reported_get docs s d Hl Hdb Hd) as (d0 & Hd0 & Hcount).
      rewrite Hk, Hget in Hd0. injection Hd0 as <-. exact Hcount.
    + intros g Hg Hgender. exists (ensure_count dl).
      split; [| split].
      * eapply bucket_shows; eauto.
      * rewrite ensure_count_key.
        destruct Hl as (_ & Hall). rewrite Forall_forall in Hall.
        specialize (Hall (id, dl) (get_Some_In _ _ _ Hdl)). cbn in Hall.
        unfold doc_key. now rewrite Hall.
      * apply ensure_count_count.
  - vm_compute. reflexivity.
Qed.

(** Five displays counted in memory while the store, which holds 3, was
    failing: with the handle of the application the read reports
    nothing. *)
Lemma C8_analytics_merge_witness :
  reachable (after_selections 5 "male" 1000)
  /\ mongo_db (after_selections 5 "male" 1000) <> None
  /\ NoDup (map doc_key [persisted "MALE_001" "male" 3])
  /\ reported (get_ad_analytics (inl StoreError)
                 (inr [persisted "MALE_001" "male" 3])
                 (after_selections 5 "male" 1000)) = []
  /\ forall d,
       In d (reported (get_ad_analytics (inr true)
                         (inr [persisted "MALE_001" "male" 3])
                         (after_selections 5 "male" 1000))) ->
       doc_key d = "MALE_001" ->
       doc_display_count d = Some 5%Z.
Proof.
  assert (Hr : reachable (after_selections 5 "male" 1000)).
  { cbn [after_selections].
    repeat (apply reach_select_ad; [| intros []; reflexivity]).
    apply reach_init. }
  assert (Hdb : mongo_db (after_selections 5 "male" 1000) <> None).
  { vm_compute. discriminate. }
  assert (Hnd : NoDup (map doc_key [persisted "MALE_001" "male" 3])).
  { repeat constructor. intros []. }
  split; [exact Hr |]. split; [exact Hdb |]. split; [exact Hnd |].
  destruct (C8_analytics_merge _ _ Hr Hdb Hnd) as (Hbug & _ & Hboth & _).
  split.
  { rewrite (Hbug StoreError). reflexivity. }
  intros d Hd Hk.
  assert (Hlocal :
    Dict.get (doc_key (persisted "MALE_001" "male" 3))
      (local_analytics (after_selections 5 "male" 1000))
    = Some (mkDoc (Some "MALE_001") "Men's Premium Shoes Collection"
              "https://images.unsplash.com/photo-1542291026-7eec264c27ff?w=800"
              "image" (Some "male") (Some 5%Z)
              "2026-01-01T00:00:00" "2026-01-01T00:00:00")).
  { vm_compute. reflexivity. }
  exact (proj1 (Hboth _ _ (or_introl eq_refl) Hlocal) d Hd Hk).
Defined.

End AnalyticsRead.

(** ** Data association *)

Section Association.
Import Tracker TrackerSpec.

Variable P : Obj -> Prop.
Hypothesis P_register :
  forall c b g conf, P (mkObj c b g conf [g] 1).
Hypothesis P_apply_match :
  forall c r o o', P o -> apply_match c r o = inr o' -> P o'.

Lemma in_set_In x s : in_set x s = true <-> In x s.
Proof.
  unfold in_set. rewrite existsb_exists. split.
  - intros (y & Hin & E). apply Nat.eqb_eq in E. now subst.
  - intros Hin. exists x. split; [assumption | apply Nat.eqb_refl].
Qed.

Lemma in_set_false x s : in_set x s = false <-> ~ In x s.
Proof.
  rewrite <- in_set_In. destruct (in_set x s); split; congruence.
Qed.

(** An accepted pair is a candidate within distance whose row and column
    were free at the start. *)
Lemma greedy_fresh maxd D l : forall ur uc r c,
  In (r, c) (greedy maxd D l ur uc) ->
  ~ In r ur /\ ~ In c uc /\ In (r, c) l /\ exceeds maxd (entry D r c) = false.
Proof.
  induction l as [| [r0 c0] l IH]; intros ur uc r c Hin; cbn [greedy] in Hin;
    [contradiction |].
  destruct (in_set r0 ur || in_set c0 uc) eqn:Hused.
  { destruct (IH _ _ _ _ Hin) as (A & B & C & E). repeat split; auto.
    now right. }
  destruct (exceeds maxd (entry D r0 c0)) eqn:Hex.
  { destruct (IH _ _ _ _ Hin) as (A & B & C & E). repeat split; auto.
    now right. }
  apply orb_false_iff in Hused. destruct Hused as [Hr Hc].
  apply in_set_false in Hr. apply in_set_false in Hc.
  destruct Hin as [E | Hin].
  - injection E as <- <-. repeat split; auto. now left.
  - destruct (IH _ _ _ _ Hin) as (A & B & C & E).
    repeat split; auto; [| | now right].
    + intros H. apply A. now right.
    + intros H. apply B. now right.
Qed.

Lemma index_entry D r c Drow d :
  nth_error D r = Some Drow -> index Drow c = inr d -> entry D r c = d.
Proof.
  intros HD Hd. unfold entry. rewrite (nth_error_nth _ _ [] HD).
  apply index_inr in Hd. now apply nth_error_nth.
Qed.

(** The two outcomes of one iteration of the matching loop. *)
Lemma match_step_cases rects ics D ids row col t ur uc :
  Dict.keys (objects t) = ids ->
  (exists Drow, nth_error D row = Some Drow /\ col < List.length Drow) ->
  row < List.length ids ->
  col < List.length ics ->
  col < List.length rects ->
  ((in_set row ur || in_set col uc = true
    \/ exceeds (max_distance t) (entry D row col) = true)
   /\ match_step rects ics D ids (row, col) (t, ur, uc) = inr (t, ur, uc))
  \/ (in_set row ur || in_set col uc = false
      /\ exceeds (max_distance t) (entry D row col) = false
      /\ exists id o c r o',
           nth_error ids row = Some id
           /\ nth_error ics col = Some c
           /\ nth_error rects col = Some r
           /\ Dict.get id (objects t) = Some o
           /\ apply_match c r o = inr o'
           /\ match_step rects ics D ids (row, col) (t, ur, uc)
              = inr (mkTracker (next_object_id t)
                       (Dict.set id o' (objects t))
                       (Dict.set id 0 (disappeared t))
                       (history t) (max_disappeared t) (max_distance t),
                     row :: ur, col :: uc)).
Proof.
  intros Hkeys (Drow & HD & Hcol) Hrow Hic Hrc.
  destruct (index_lt Drow col Hcol) as (d & Hd).
  destruct (index_lt ids row Hrow) as (id & Hid).
  destruct (index_lt ics col Hic) as (c & Hc).
  destruct (index_lt rects col Hrc) as (r & Hr).
  assert (Hlive : In id (Dict.keys (objects t))).
  { rewrite Hkeys. apply index_inr in Hid. eapply nth_error_In; eauto. }
  destruct (key_In_get _ _ Hlive) as (o & Ho).
  destruct (apply_match_ok c r o) as (o' & Ho').
  assert (Hstep :
    match_step rects ics D ids (row, col) (t, ur, uc)
    = if in_set row ur || in_set col uc then inr (t, ur, uc)
      else if exceeds (max_distance t) d then inr (t, ur, uc)
      else inr (mkTracker (next_object_id t)
                  (Dict.set id o' (objects t))
                  (Dict.set id 0 (disappeared t))
                  (history t) (max_disappeared t) (max_distance t),
                row :: ur, col :: uc)).
  { unfold match_step.
    destruct (in_set row ur || in_set col uc); [reflexivity |].
    unfold index at 1. rewrite HD. cbn [bind ret]. rewrite Hd. cbn [bind].
    destruct (exceeds (max_distance t) d); [reflexivity |].
    rewrite Hid. cbn [bind]. rewrite Hc. cbn [bind]. rewrite Hr. cbn [bind].
    unfold Dict.item. rewrite Ho. cbn [bind ret]. rewrite Ho'. reflexivity. }
  rewrite Hstep. rewrite (index_entry D row col Drow d HD Hd).
  destruct (in_set row ur || in_set col uc).
  { left. split; [now left | reflexivity]. }
  destruct (exceeds (max_distance t) d).
  { left. split; [now right | reflexivity]. }
  right. split; [reflexivity |]. split; [reflexivity |].
  exists id, o, c, r, o'.
  apply index_inr in Hid. apply index_inr in Hc. apply index_inr in Hr.
  repeat split; auto.
Qed.

(** The matching loop realises the greedy processing of its candidates. *)
Lemma match_loop_effect rects ics D ids : forall cands t ur uc,
  Inv P t ->
  Dict.keys (objects t) = ids ->
  (forall r c, In (r, c) cands ->
     r < List.length ids /\ c < List.length rects /\ c < List.length ics
     /\ exists Drow, nth_error D r = Some Drow /\ c < List.length Drow) ->
  exists t',
    for_each (match_step rects ics D ids) cands (t, ur, uc)
    = inr (t',
           rev (map fst (greedy (max_distance t) D cands ur uc)) ++ ur,
           rev (map snd (greedy (max_distance t) D cands ur uc)) ++ uc)
    /\ Inv P t' /\ extends t t'
    /\ Dict.keys (objects t') = ids
    /\ next_object_id t' = next_object_id t
    /\ (forall id,
          (forall r c, In (r, c) (greedy (max_distance t) D cands ur uc) ->
                       nth_error ids r <> Some id) ->
          Dict.get id (objects t') = Dict.get id (objects t)
          /\ Dict.get id (disappeared t') = Dict.get id (disappeared t))
    /\ (forall r c id o,
          In (r, c) (greedy (max_distance t) D cands ur uc) ->
          nth_error ids r = Some id ->
          Dict.get id (objects t) = Some o ->
          exists ctr rect o',
            nth_error ics c = Some ctr
            /\ nth_error rects c = Some rect
            /\ apply_match ctr rect o = inr o'
            /\ Dict.get id (objects t') = Some o'
            /\ Dict.get id (disappeared t') = Some 0).
Proof.
  induction cands as [| [row col] cands IH]; intros t ur uc HInv Hkeys Hvalid.
  - exists t. cbn. repeat split; auto; try apply HInv; try apply extends_refl.
    intros r c id o [].
  - destruct (Hvalid row col (or_introl eq_refl)) as (Hrow & Hrc & Hic & HD).
    assert (Hvalid' : forall r c, In (r, c) cands ->
              r < List.length ids /\ c < List.length rects
              /\ c < List.length ics
              /\ exists Drow, nth_error D r = Some Drow /\ c < List.length Drow).
    { intros r c Hin. apply Hvalid. now right. }
    cbn [for_each greedy].
    destruct (match_step_cases rects ics D ids row col t ur uc
                Hkeys HD Hrow Hic Hrc)
      as [(Hskip & Hstep) | (Hused & Hex & id0 & o0 & c0 & r0 & o0' & Hid0 & Hc0 & Hr0 & Ho0 & Hap0 & Hstep)].
    + (* the pair is skipped *)
      rewrite Hstep. cbn [bind].
      destruct (IH t ur uc HInv Hkeys Hvalid') as (t' & Hrun & Hrest).
      exists t'.
      assert (E : greedy (max_distance t) D cands ur uc
                  = (if in_set row ur || in_set col uc
                     then greedy (max_distance t) D cands ur uc
                     else if exceeds (max_distance t) (entry D row col)
                          then greedy (max_distance t) D cands ur uc
                          else (row, col)
                               :: greedy (max_distance t) D cands
                                    (row :: ur) (col :: uc))).
      { destruct Hskip as [-> | ->]; [reflexivity |].
        destruct (in_set row ur || in_set col uc); reflexivity. }
      rewrite <- E. split; [exact Hrun | exact Hrest].
    + (* the pair is accepted *)
      rewrite Hstep, Hused, Hex. cbn [bind].
      set (t1 := mkTracker (next_object_id t) (Dict.set id0 o0' (objects t))
                   (Dict.set id0 0 (disappeared t)) (history t)
                   (max_disappeared t) (max_distance t)) in *.
      destruct (match_step_ok P P_apply_match rects ics D ids row col t ur uc
                  HInv Hkeys HD Hrow Hic Hrc)
        as (t1' & ur' & uc' & Hstep' & HInv1 & Hext1 & Hkeys1).
      rewrite Hstep in Hstep'. injection Hstep' as <- <- <-.
      destruct (IH t1 (row :: ur) (col :: uc) HInv1 Hkeys1 Hvalid')
        as (t' & Hrun & HInv' & Hext' & Hkeys' & Hnext' & Hother & Hmatched).
      change (max_distance t1) with (max_distance t) in *.
      set (A := greedy (max_distance t) D cands (row :: ur) (col :: uc)) in *.
      exists t'. split.
      { rewrite Hrun. cbn [map fst snd rev]. now rewrite <- !app_assoc. }
      split; [exact HInv' |].
      split; [eapply extends_trans; eauto |].
      split; [exact Hkeys' |]. split; [exact Hnext' |].
      assert (Hnd : NoDup ids).
      { rewrite <- Hkeys. apply HInv. }
      assert (Hlater : forall r c, In (r, c) A -> nth_error ids r <> Some id0).
      { intros r c Hin Hr. apply greedy_fresh in Hin.
        destruct Hin as (Hfresh & _). apply Hfresh. left.
        apply (proj1 (NoDup_nth_error ids) Hnd); [assumption | congruence]. }
      split.
      * intros id Hid.
        assert (Hne : id <> id0).
        { intros ->. apply (Hid row col); [now left | assumption]. }
        destruct (Hother id) as [E1 E2].
        { intros r c Hin. apply (Hid r c). now right. }
        rewrite E1, E2. unfold t1. cbn [objects disappeared].
        split; now apply get_set_other.
      * intros r c id o [E | Hin] Hr Ho.
        -- injection E as <- <-.
           assert (id = id0) by congruence. subst id.
           assert (o = o0) by congruence. subst o.
           destruct (Hother id0 Hlater) as [E1 E2].
           exists c0, r0, o0'. rewrite E1, E2. unfold t1.
           cbn [objects disappeared]. rewrite !get_set_same. auto.
        -- assert (Hne : id <> id0).
           { intros ->. apply (Hlater r c Hin Hr). }
           apply (Hmatched r c id o Hin Hr).
           unfold t1. cbn [objects]. now rewrite get_set_other.
Qed.

Lemma live_get id t : live id t <-> Dict.get id (objects t) <> None.
Proof.
  unfold live. rewrite get_None_iff.
  destruct (in_dec Nat.eq_dec id (Dict.keys (objects t))); tauto.
Qed.

(** The registration loop appends one fresh track per observation. *)
Lemma register_loop_effect rects : forall l t,
  Inv P t ->
  Forall (fun i => i < List.length rects) l ->
  exists t',
    for_each (register_rect rects
                (map (fun r => centroid_of (rect_bbox r)) rects)) l t
    = inr t'
    /\ Inv P t' /\ extends t t'
    /\ next_object_id t' = next_object_id t + List.length l
    /\ (forall id, id < next_object_id t ->
          Dict.get id (objects t') = Dict.get id (objects t)
          /\ Dict.get id (disappeared t') = Dict.get id (disappeared t))
    /\ (forall k c,
          nth_error l k = Some c ->
          exists rect,
            nth_error rects c = Some rect
            /\ Dict.get (next_object_id t + k) (objects t')
               = Some (new_track rect)
            /\ Dict.get (next_object_id t + k) (disappeared t') = Some 0).
Proof.
  set (ics := map (fun r => centroid_of (rect_bbox r)) rects).
  induction l as [| c l IH]; intros t HInv Hall.
  - exists t. cbn. rewrite Nat.add_0_r.
    repeat split; auto; try apply HInv; try apply extends_refl.
    intros [| k] c E; discriminate.
  - inversion Hall as [| ? ? Hc Hl]; subst.
    destruct (index_lt rects c Hc) as (rect & Hrect).
    assert (Hctr : index ics c = inr (centroid_of (rect_bbox rect))).
    { apply index_inr. unfold ics.
      apply (map_nth_error (fun r => centroid_of (rect_bbox r))).
      now apply index_inr. }
    cbn [for_each]. unfold register_rect at 1.
    rewrite Hctr, Hrect. cbn [bind ret].
    set (t1 := register (centroid_of (rect_bbox rect)) (rect_bbox rect)
                 (rect_gender rect) (rect_confidence rect) t).
    destruct (register_Inv P P_register (centroid_of (rect_bbox rect))
                (rect_bbox rect) (rect_gender rect) (rect_confidence rect)
                t HInv) as (HInv1 & Hext1).
    fold t1 in HInv1, Hext1.
    destruct (IH t1 HInv1 Hl) as (t' & Hrun & HInv' & Hext' & Hnext' & Hold & Hnew).
    exists t'. split; [exact Hrun |]. split; [exact HInv' |].
    split; [eapply extends_trans; eauto |].
    assert (Hn1 : next_object_id t1 = S (next_object_id t)) by reflexivity.
    split; [rewrite Hnext', Hn1; cbn [List.length]; lia |].
    split.
    + intros id Hid. destruct (Hold id) as [E1 E2]; [rewrite Hn1; lia |].
      rewrite E1, E2. unfold t1, register. cbn [objects disappeared].
      split; apply get_set_other; lia.
    + intros [| k] c' Hk.
      * cbn in Hk. injection Hk as <-. exists rect.
        split; [now apply index_inr |].
        destruct (Hold (next_object_id t)) as [E1 E2]; [rewrite Hn1; lia |].
        rewrite Nat.add_0_r, E1, E2. unfold t1, register.
        cbn [objects disappeared]. rewrite !get_set_same. auto.
      * cbn in Hk. destruct (Hnew k c' Hk) as (rect' & Hr' & Ho' & Hd').
        exists rect'. rewrite Hn1 in Ho', Hd'.
        replace (next_object_id t + S k) with (S (next_object_id t) + k) by lia.
        auto.
Qed.

Lemma map_res_amin D mins :
  map_res amin D = inr mins -> mins = map row_min D.
Proof.
  intros E. apply map_res_inr in E.
  induction E as [| row m D mins Hm _ IH]; [reflexivity |].
  cbn [map]. unfold row_min at 1. rewrite Hm. now rewrite IH.
Qed.

Lemma map_res_argmin D argmins :
  map_res argmin D = inr argmins -> argmins = map nearest_in D.
Proof.
  intros E. apply map_res_inr in E.
  induction E as [| row m D mins Hm _ IH]; [reflexivity |].
  cbn [map]. unfold nearest_in at 1. rewrite Hm. now rewrite IH.
Qed.

Lemma map_res_cols D rows cols :
  map_res (index (map nearest_in D)) rows = inr cols ->
  cols = map (nearest D) rows.
Proof.
  intros E. apply map_res_inr in E.
  induction E as [| r c rows cols Hc _ IH]; [reflexivity |].
  cbn [map]. rewrite IH. f_equal.
  apply index_inr in Hc. rewrite nth_error_map in Hc.
  unfold nearest.
  destruct (nth_error D r) as [row |] eqn:Hrow; cbn in Hc; [| discriminate].
  injection Hc as <-. now rewrite (nth_error_nth _ _ [] Hrow).
Qed.

Lemma combine_map {A B} (f : A -> B) l :
  combine l (map f l) = map (fun x => (x, f x)) l.
Proof. induction l as [| x l IH]; cbn; congruence. Qed.

Lemma in_set_rev x l : in_set x (rev l ++ []) = in_set x l.
Proof.
  rewrite app_nil_r.
  destruct (in_set x l) eqn:E.
  - apply in_set_In. apply in_set_In in E. now apply in_rev in E.
  - apply in_set_false. apply in_set_false in E.
    intros H. apply E. now apply in_rev.
Qed.

Lemma unused_rev n l : unused n (rev l ++ []) = unused n l.
Proof.
  unfold unused. apply filter_ext. intros i. now rewrite in_set_rev.
Qed.

Lemma In_unused n used i : In i (unused n used) <-> i < n /\ ~ In i used.
Proof.
  unfold unused. rewrite filter_In, in_seq, negb_true_iff, in_set_false.
  intuition lia.
Qed.

(** The candidates of the matching loop are the pairs (track, nearest
    observation), within the matrix. *)
Lemma nearest_pairs_range D n r c :
  n <> 0 -> Forall (fun row => List.length row = n) D ->
  In (r, c) (nearest_pairs D) ->
  r < List.length D /\ c < n
  /\ exists Drow, nth_error D r = Some Drow /\ c < List.length Drow.
Proof.
  intros Hn HD Hin. unfold nearest_pairs in Hin.
  apply in_map_iff in Hin. destruct Hin as (r' & E & Hr).
  injection E as -> <-.
  apply argsort_lt in Hr. rewrite length_map in Hr.
  split; [assumption |].
  destruct (nth_error D r) as [Drow |] eqn:HDrow;
    [| apply nth_error_None in HDrow; lia].
  rewrite Forall_forall in HD.
  assert (Hlen : List.length Drow = n).
  { apply HD. eapply nth_error_In; eauto. }
  unfold nearest. rewrite (nth_error_nth _ _ [] HDrow).
  destruct (argmin_ok Drow) as (i & Hi & Hlt).
  { intros ->. cbn in Hlen. congruence. }
  unfold nearest_in. rewrite Hi.
  split; [lia |]. exists Drow. split; [reflexivity | assumption].
Qed.

Lemma distances_rows t rects :
  Forall (fun row => List.length row = List.length rects) (distances t rects).
Proof.
  apply Forall_forall. intros row Hrow. unfold distances in Hrow.
  rewrite (dist_row _ _ _ Hrow). apply length_map.
Qed.

Lemma distances_length t rects :
  List.length (distances t rects) = List.length (Dict.keys (objects t)).
Proof.
  unfold distances, Dict.values, Dict.keys.
  now rewrite dist_length, !length_map.
Qed.

(** With tracks and observations, [update] updates the tracks of the
    accepted pairs, ages the other tracks and registers the other
    observations. *)
Lemma update_effect rects t :
  Inv P t -> objects t <> [] -> rects <> [] ->
  exists t',
    update rects t = inr t'
    /\ Inv P t'
    /\ (forall r c,
          In (r, c) (code_association (max_distance t) (distances t rects)) ->
          track_updated t rects t' r c)
    /\ (forall r id,
          nth_error (Dict.keys (objects t)) r = Some id ->
          ~ In r (map fst (code_association (max_distance t)
                             (distances t rects))) ->
          track_aged t t' id)
    /\ observations_registered t rects t'
         (code_association (max_distance t) (distances t rects)).
Proof.
  intros HInv Hobj Hrects.
  pose proof HInv as (((Sd & Sh) & Hnd & Hlt) & HP & Hdis).
  unfold update.
  destruct rects as [| r0 rs]; [congruence |]. set (rects := r0 :: rs) in *.
  destruct (objects t) as [| e0 es] eqn:Hobjs; [congruence |].
  rewrite <- Hobjs in *. clear Hobj.
  set (ics := map (fun r => centroid_of (rect_bbox r)) rects).
  set (ids := Dict.keys (objects t)) in *.
  change (dist (map centroid (Dict.values (objects t))) ics)
    with (distances t rects).
  set (D := distances t rects).
  assert (Hn : List.length rects <> 0) by (cbn; discriminate).
  pose proof (distances_rows t rects) as HDrows. fold D in HDrows.
  pose proof (distances_length t rects) as HlenD. fold D ids in HlenD.
  destruct (candidates_in_range D (List.length rects) Hn HDrows)
    as (mins & argmins & cols & Hmins & _ & Hargmins & Hcols & _).
  rewrite Hmins. cbn [bind]. rewrite Hargmins. cbn [bind].
  rewrite Hcols. cbn [bind].
  apply map_res_amin in Hmins. apply map_res_argmin in Hargmins.
  subst mins argmins. apply map_res_cols in Hcols. subst cols.
  rewrite combine_map. fold (nearest_pairs D).
  assert (Hics : List.length ics = List.length rects)
    by (unfold ics; apply length_map).
  destruct (match_loop_effect rects ics D ids (nearest_pairs D) t [] []
              HInv eq_refl)
    as (t1 & Hloop & HI1 & HE1 & Hk1 & Hn1 & Hother1 & Hmatched1).
  { intros r c Hin.
    destruct (nearest_pairs_range D _ r c Hn HDrows Hin) as (A & B & C).
    repeat split; auto; lia. }
  fold (code_association (max_distance t) D) in *.
  set (M := code_association (max_distance t) D) in *.
  rewrite Hloop. cbn [bind]. rewrite !unused_rev.
  (* the ageing loop *)
  assert (Hrows : Forall (fun row => row < List.length ids)
                    (unused (List.length D) (map fst M))).
  { apply Forall_forall. intros a Ha. apply In_unused in Ha. lia. }
  rewrite (for_each_rows ids _ t1 Hrows).
  set (aged := map (fun row => nth row ids 0)
                 (unused (List.length D) (map fst M))).
  destruct (age_ids_effect P aged t1 HI1)
    as (t2 & Hage & HI2 & HE2 & Hn2 & Hsub2 & Hout2 & Heff2).
  { apply NoDup_map_nth; auto. apply unused_NoDup. }
  { intros id Hid. apply in_map_iff in Hid.
    destruct Hid as (row & <- & Hrow).
    unfold live. rewrite Hk1. apply nth_In.
    rewrite Forall_forall in Hrows. auto. }
  rewrite Hage. cbn [bind].
  (* the registration loop *)
  destruct (register_loop_effect rects (unused (List.length rects) (map snd M))
              t2 HI2)
    as (t3 & Hreg & HI3 & HE3 & Hn3 & Hold3 & Hnew3).
  { apply Forall_forall. intros i Hi. apply In_unused in Hi. tauto. }
  fold ics in Hreg. exists t3. split; [exact Hreg |]. split; [exact HI3 |].
  assert (Hidlt : forall id, In id ids -> id < next_object_id t2).
  { intros id Hid. rewrite Hn2, Hn1. rewrite Forall_forall in Hlt. auto. }
  assert (Hrow_of : forall r id r',
            nth_error ids r = Some id -> nth r' ids 0 = id ->
            r' < List.length ids -> r' = r).
  { intros r id r' Hr Hr' Hlen.
    apply (proj1 (NoDup_nth_error ids) Hnd); [assumption |].
    rewrite Hr. rewrite <- Hr'. now apply nth_error_nth'. }
  split; [| split].
  - (* accepted pairs *)
    intros r c Hin.
    pose proof (greedy_fresh _ _ _ _ _ _ _ Hin) as (_ & _ & Hcand & _).
    destruct (nearest_pairs_range D _ r c Hn HDrows Hcand) as (Hr & Hc & _).
    destruct (nth_error ids r) as [id |] eqn:Hid;
      [| apply nth_error_None in Hid; lia].
    assert (Hlive : In id ids) by (eapply nth_error_In; eauto).
    destruct (key_In_get _ _ Hlive) as (o & Ho).
    destruct (Hmatched1 r c id o Hin Hid Ho)
      as (ctr & rect & o' & Hctr & Hrect & Hap & Ho1 & Hd1).
    assert (ctr = centroid_of (rect_bbox rect)).
    { unfold ics in Hctr.
      rewrite (map_nth_error (fun r => centroid_of (rect_bbox r)) _ _ Hrect)
        in Hctr. congruence. }
    subst ctr.
    exists id, o, rect, o'. repeat split; auto.
    + destruct (Hold3 id (Hidlt id Hlive)) as [E _]. rewrite E.
      destruct (Hout2 id) as (E2 & _); [| now rewrite E2].
      intros Haged. apply in_map_iff in Haged.
      destruct Haged as (r' & Hr' & Hun). apply In_unused in Hun.
      destruct Hun as [Hlen Hfree].
      assert (r' = r) by (apply (Hrow_of r id r'); auto; lia). subst r'.
      apply Hfree. change r with (fst (r, c)). now apply in_map.
    + destruct (Hold3 id (Hidlt id Hlive)) as [_ E]. rewrite E.
      destruct (Hout2 id) as (_ & E2 & _); [| now rewrite E2].
      intros Haged. apply in_map_iff in Haged.
      destruct Haged as (r' & Hr' & Hun). apply In_unused in Hun.
      destruct Hun as [Hlen Hfree].
      assert (r' = r) by (apply (Hrow_of r id r'); auto; lia). subst r'.
      apply Hfree. change r with (fst (r, c)). now apply in_map.
  - (* the other tracks *)
    intros r id Hid Hfree.
    assert (Hlive : In id ids) by (eapply nth_error_In; eauto).
    assert (Hr : r < List.length ids).
    { apply nth_error_Some. congruence. }
    destruct (key_In_get id (disappeared t)) as (d & Hd);
      [now rewrite Sd |].
    exists d. split; [exact Hd |].
    destruct (Hother1 id) as [E1 E1'].
    { intros r' c' Hin Hr'. apply Hfree.
      assert (r' = r).
      { apply (proj1 (NoDup_nth_error ids) Hnd); [| congruence].
        apply nth_error_Some. congruence. }
      subst r'. change r with (fst (r, c')). now apply in_map. }
    assert (Haged : In id aged).
    { unfold aged. apply in_map_iff. exists r. split.
      - now apply nth_error_nth.
      - apply In_unused. split; [lia | assumption]. }
    rewrite <- E1' in Hd. specialize (Heff2 id d Haged Hd).
    destruct HE1 as (Hmd1 & _). rewrite Hmd1 in Heff2.
    destruct (Hold3 id (Hidlt id Hlive)) as [E3 E3'].
    destruct (max_disappeared t <? S d).
    + intros Hl3. apply Heff2. apply live_get. apply live_get in Hl3.
      now rewrite <- E3.
    + destruct Heff2 as [A B]. rewrite E3, E3', A, B, E1. auto.
  - (* the other observations *)
    unfold observations_registered, unmatched_cols.
    rewrite Hn3, Hn2, Hn1. split; [reflexivity |].
    intros k c Hk. rewrite <- Hn1, <- Hn2. now apply Hnew3.
Qed.

(** *** Which pairs the greedy processing accepts *)

Lemma argmin_from_spec l : forall pre bi b i,
  i = List.length pre -> bi < i -> nth bi pre 0%Z = b ->
  nth (argmin_from bi b i l) (pre ++ l) 0%Z = fold_left Z.min l b.
Proof.
  induction l as [| x r IH]; intros pre bi b i Hi Hbi Hb; cbn [argmin_from fold_left].
  - rewrite app_nil_r. assumption.
  - replace (pre ++ x :: r) with ((pre ++ [x]) ++ r)
      by (rewrite <- app_assoc; reflexivity).
    destruct (x <? b)%Z eqn:Hcmp.
    + apply Z.ltb_lt in Hcmp.
      rewrite (IH (pre ++ [x]) i x (S i)).
      * f_equal. lia.
      * rewrite length_app. cbn. lia.
      * lia.
      * rewrite app_nth2 by lia. subst i. now rewrite Nat.sub_diag.
    + apply Z.ltb_ge in Hcmp.
      rewrite (IH (pre ++ [x]) bi b (S i)).
      * f_equal. lia.
      * rewrite length_app. cbn. lia.
      * lia.
      * rewrite app_nth1 by lia. assumption.
Qed.

(** The nearest observation of a track is at the minimal distance. *)
Lemma entry_nearest D r :
  nth r D [] <> [] -> entry D r (nearest D r) = row_min (nth r D []).
Proof.
  unfold entry, nearest, nearest_in, row_min.
  destruct (nth r D []) as [| x row]; [congruence | intros _].
  cbn [argmin amin]. apply (argmin_from_spec row [x] 0 x 1); auto.
Qed.

Lemma exceeds_mono maxd d d' :
  exceeds maxd d = false -> (d' <= d)%Z -> exceeds maxd d' = false.
Proof.
  unfold exceeds. rewrite !orb_false_iff, !Z.ltb_ge. lia.
Qed.

Lemma exceeds_150 d : exceeds 150 d = false <-> (d <= 150 * 150)%Z.
Proof.
  unfold exceeds. rewrite orb_false_iff, !Z.ltb_ge. lia.
Qed.

Lemma insert_by_sorted key i : forall l,
  StronglySorted (fun a b => (key a < key b)%Z \/ (key a = key b /\ a < b)) l ->
  (forall j, In j l -> i < j) ->
  StronglySorted (fun a b => (key a < key b)%Z \/ (key a = key b /\ a < b))
    (insert_by key i l).
Proof.
  induction l as [| j r IH]; intros Hs Hlt; cbn [insert_by].
  - repeat constructor.
  - inversion Hs as [| ? ? Hr Hj]; subst.
    destruct (key i <=? key j)%Z eqn:Hcmp.
    + apply Z.leb_le in Hcmp. constructor; [assumption |].
      apply Forall_forall. intros x [<- | Hx].
      * specialize (Hlt j (or_introl eq_refl)). lia.
      * rewrite Forall_forall in Hj. specialize (Hj x Hx).
        specialize (Hlt x (or_intror Hx)). lia.
    + apply Z.leb_gt in Hcmp. constructor.
      * apply IH; [assumption |]. intros x Hx. apply Hlt. now right.
      * apply Forall_forall. intros x Hx.
        apply (Permutation_in _ (insert_by_perm key i r)) in Hx.
        destruct Hx as [<- | Hx]; [lia |].
        rewrite Forall_forall in Hj. auto.
Qed.

Lemma fold_insert_by_sorted key len : forall start,
  StronglySorted (fun a b => (key a < key b)%Z \/ (key a = key b /\ a < b))
    (fold_right (insert_by key) [] (seq start len)).
Proof.
  induction len as [| len IH]; intros start; cbn [seq fold_right].
  - constructor.
  - apply insert_by_sorted; [apply IH |].
    intros j Hj. apply (Permutation_in _ (fold_insert_by_perm key _)) in Hj.
    apply in_seq in Hj. lia.
Qed.

Lemma sorted_split {A} (R : A -> A -> Prop) l1 x l2 :
  StronglySorted R (l1 ++ x :: l2) ->
  (forall a, In a l1 -> R a x) /\ (forall b, In b l2 -> R x b).
Proof.
  induction l1 as [| y l1 IH]; cbn; intros Hs.
  - inversion Hs as [| ? ? _ Hall]; subst. rewrite Forall_forall in Hall.
    split; [tauto | assumption].
  - inversion Hs as [| ? ? Hs' Hall]; subst. rewrite Forall_forall in Hall.
    destruct (IH Hs') as [H1 H2]. split; [| assumption].
    intros a [<- | Ha]; [| auto]. apply Hall. apply in_or_app. right. now left.
Qed.

(** A candidate is accepted when its observation is free, it is within
    distance, and no earlier candidate for its observation is. *)
Lemma greedy_iff maxd D : forall cands ur uc r c,
  NoDup (map fst cands) ->
  (forall r' c', In (r', c') cands -> ~ In r' ur) ->
  In (r, c) (greedy maxd D cands ur uc)
  <-> exists l1 l2,
        cands = l1 ++ (r, c) :: l2
        /\ ~ In c uc
        /\ exceeds maxd (entry D r c) = false
        /\ forall r1, In (r1, c) l1 -> exceeds maxd (entry D r1 c) = true.
Proof.
  induction cands as [| [r0 c0] cands IH]; intros ur uc r c Hnd Hur.
  - cbn. split; [tauto |]. intros (l1 & l2 & E & _). destruct l1; discriminate.
  - cbn [map fst] in Hnd. inversion Hnd as [| ? ? Hr0 Hnd']; subst.
    assert (Hur0 : in_set r0 ur = false).
    { apply in_set_false. apply (Hur r0 c0). now left. }
    assert (Hur' : forall r' c', In (r', c') cands -> ~ In r' ur).
    { intros r' c' Hin. apply (Hur r' c'). now right. }
    cbn [greedy]. rewrite Hur0. cbn [orb].
    destruct (in_set c0 uc) eqn:Hc0.
    { (* the observation is taken *)
      apply in_set_In in Hc0. rewrite (IH ur uc r c Hnd' Hur'). split.
      - intros (l1 & l2 & -> & Hc & Hex & Hl1).
        exists ((r0, c0) :: l1), l2. repeat split; auto.
        intros r1 [E | Hin]; [| auto]. injection E as -> ->. contradiction.
      - intros (l1 & l2 & E & Hc & Hex & Hl1).
        destruct l1 as [| p l1]; cbn in E.
        + injection E as -> -> ->. contradiction.
        + injection E as <- ->. exists l1, l2. repeat split; auto.
          intros r1 Hin. apply Hl1. now right. }
    apply in_set_false in Hc0.
    destruct (exceeds maxd (entry D r0 c0)) eqn:Hex0.
    { (* too far *)
      rewrite (IH ur uc r c Hnd' Hur'). split.
      - intros (l1 & l2 & -> & Hc & Hex & Hl1).
        exists ((r0, c0) :: l1), l2. repeat split; auto.
        intros r1 [E | Hin]; [| auto]. injection E as -> ->. assumption.
      - intros (l1 & l2 & E & Hc & Hex & Hl1).
        destruct l1 as [| p l1]; cbn in E.
        + injection E as -> -> ->. congruence.
        + injection E as <- ->. exists l1, l2. repeat split; auto.
          intros r1 Hin. apply Hl1. now right. }
    (* accepted *)
    cbn [In]. rewrite (IH (r0 :: ur) (c0 :: uc) r c Hnd').
    2:{ intros r' c' Hin [<- | Hin'].
        - apply Hr0. change r0 with (fst (r0, c')). now apply in_map.
        - apply (Hur' r' c' Hin Hin'). }
    split.
    + intros [E | (l1 & l2 & -> & Hc & Hex & Hl1)].
      * injection E as <- <-. exists [], cands.
        split; [reflexivity |]. split; [exact Hc0 |]. split; [exact Hex0 |].
        intros r1 [].
      * exists ((r0, c0) :: l1), l2.
        split; [reflexivity |].
        split; [intros H; apply Hc; now right |].
        split; [exact Hex |].
        intros r1 [E | Hin]; [| auto]. injection E as -> ->.
        exfalso. apply Hc. now left.
    + intros (l1 & l2 & E & Hc & Hex & Hl1).
      destruct l1 as [| p l1]; cbn in E.
      * injection E as -> -> ->. now left.
      * injection E as <- ->. right. exists l1, l2.
        assert (Hne : c0 <> c).
        { intros ->. specialize (Hl1 r0 (or_introl eq_refl)). congruence. }
        split; [reflexivity |].
        split; [intros [H | H]; [congruence | contradiction] |].
        split; [exact Hex |].
        intros r1 Hin. apply Hl1. now right.
Qed.

End Association.

(** ** The tracker under any lawful choices *)

Section AssociationChoices.
Import Tracker TrackerSpec TrackerChoices.

Variable P : Obj -> Prop.
Hypothesis P_register :
  forall c b g conf, P (mkObj c b g conf [g] 1).
Hypothesis P_apply_match :
  forall c r o o', P o -> apply_match c r o = inr o' -> P o'.

Lemma StronglySorted_impl {A} (R R' : A -> A -> Prop) l :
  (forall a b, R a b -> R' a b) -> StronglySorted R l -> StronglySorted R' l.
Proof.
  intros Himp. induction 1 as [| a l _ IH Hall]; constructor; [assumption |].
  eapply Forall_impl; [| exact Hall]. intros b. apply Himp.
Qed.

Lemma argsort_sorted a :
  StronglySorted (fun i j => (nth i a 0 <= nth j a 0)%Z) (argsort a).
Proof.
  unfold argsort.
  eapply StronglySorted_impl;
    [| exact (fold_insert_by_sorted (fun i => nth i a 0%Z) (List.length a) 0)].
  cbv beta. intros i j. lia.
Qed.

Lemma lawful_ascending : lawful ascending.
Proof.
  split; [| split]; cbn [argsort_of rows_order cols_order ascending].
  - intros a. split; [apply argsort_perm | apply argsort_sorted].
  - intros s. apply Permutation_refl.
  - intros s. apply Permutation_refl.
Qed.

(** Without observations, or without tracks, nothing is left open. *)
Lemma update_by_simple ch rects t :
  rects = [] \/ objects t = [] -> update_by ch rects t = update rects t.
Proof.
  intros H. unfold update_by, update.
  destruct rects as [| r0 rs]; [reflexivity |].
  destruct (objects t) as [| e0 es]; [reflexivity |].
  destruct H; discriminate.
Qed.

Lemma processing_rows ch D :
  lawful ch ->
  NoDup (processing_order ch D)
  /\ forall r, In r (processing_order ch D) <-> r < List.length D.
Proof.
  intros (Hsort & _). unfold processing_order.
  destruct (Hsort (map row_min D)) as (Hperm & _).
  rewrite length_map in Hperm. split.
  - apply (Permutation_NoDup (Permutation_sym Hperm)), seq_NoDup.
  - intros r. split; intros H.
    + apply (Permutation_in _ Hperm) in H. apply in_seq in H. lia.
    + apply (Permutation_in _ (Permutation_sym Hperm)). apply in_seq. lia.
Qed.

Lemma processing_sorted ch D r r' :
  lawful ch -> earlier (processing_order ch D) r r' ->
  (row_min (nth r D []) <= row_min (nth r' D []))%Z.
Proof.
  intros (Hsort & _) (l1 & l2 & Hsplit & Hin). unfold processing_order in Hsplit.
  destruct (Hsort (map row_min D)) as (_ & Hs).
  rewrite Hsplit in Hs.
  destruct (sorted_split _ _ _ _ Hs) as [Hbefore _].
  specialize (Hbefore r Hin). cbv beta in Hbefore.
  change 0%Z with (row_min []) in Hbefore. now rewrite !map_nth in Hbefore.
Qed.

Lemma processing_total ch D r r' :
  lawful ch -> r < List.length D -> r' < List.length D -> r <> r' ->
  earlier (processing_order ch D) r r' \/ earlier (processing_order ch D) r' r.
Proof.
  intros Hch Hr Hr' Hne.
  destruct (processing_rows ch D Hch) as (_ & Hrows).
  apply Hrows in Hr. apply Hrows in Hr'.
  destruct (in_split _ _ Hr') as (l1 & l2 & Hsplit).
  rewrite Hsplit in Hr. apply in_app_or in Hr.
  destruct Hr as [Hr | [E | Hr]]; [| congruence |].
  - left. exists l1, l2. auto.
  - right. destruct (in_split _ _ Hr) as (a & b & ->).
    exists (l1 ++ r' :: a), b. split.
    + rewrite Hsplit, <- app_assoc. reflexivity.
    + apply in_or_app. right. now left.
Qed.

Lemma NoDup_split_unique {A} (x : A) l1 : forall l2 m1 m2,
  NoDup (l1 ++ x :: l2) -> l1 ++ x :: l2 = m1 ++ x :: m2 -> l1 = m1.
Proof.
  induction l1 as [| a l1 IH]; intros l2 m1 m2 Hnd E.
  - destruct m1 as [| b m1]; [reflexivity |].
    cbn in E. injection E as <- ->. cbn in Hnd.
    inversion Hnd as [| ? ? Hnot _]; subst. exfalso. apply Hnot.
    apply in_or_app. right. now left.
  - destruct m1 as [| b m1]; cbn in E.
    + injection E as -> _. cbn in Hnd.
      inversion Hnd as [| ? ? Hnot _]; subst. exfalso. apply Hnot.
      apply in_or_app. right. now left.
    + injection E as <- E. f_equal. cbn in Hnd.
      inversion Hnd as [| ? ? _ Hnd']; subst. eapply IH; eauto.
Qed.

(** The candidates of the matching loop, whatever rows it is given. *)
Lemma candidates_of (D : list (list Z)) n rows :
  n <> 0 -> Forall (fun row => List.length row = n) D ->
  Forall (fun r => r < List.length D) rows ->
  map_res amin D = inr (map row_min D)
  /\ map_res argmin D = inr (map nearest_in D)
  /\ map_res (index (map nearest_in D)) rows = inr (map (nearest D) rows).
Proof.
  intros Hn HD Hrows.
  destruct (candidates_in_range D n Hn HD)
    as (mins & argmins & cols & Hmins & _ & Hargmins & _).
  pose proof (map_res_amin _ _ Hmins) as ->.
  pose proof (map_res_argmin _ _ Hargmins) as ->.
  split; [exact Hmins |]. split; [exact Hargmins |].
  destruct (map_res_ok (index (map nearest_in D)) (fun _ _ => True) rows)
    as (cs & Hcs & _).
  { intros r Hr. rewrite Forall_forall in Hrows.
    destruct (index_lt (map nearest_in D) r) as (c & Hc).
    - rewrite length_map. auto.
    - eauto. }
  now rewrite Hcs, (map_res_cols _ _ _ Hcs).
Qed.

Lemma candidates_range ch D n r c :
  lawful ch -> n <> 0 -> Forall (fun row => List.length row = n) D ->
  In (r, c) (candidates ch D) ->
  r < List.length D /\ c < n
  /\ exists Drow, nth_error D r = Some Drow /\ c < List.length Drow.
Proof.
  intros Hch Hn HD Hin. unfold candidates in Hin.
  apply in_map_iff in Hin. destruct Hin as (r' & E & Hr).
  injection E as -> <-.
  apply (processing_rows ch D Hch) in Hr.
  split; [assumption |].
  destruct (nth_error D r) as [Drow |] eqn:HDrow;
    [| apply nth_error_None in HDrow; lia].
  rewrite Forall_forall in HD.
  assert (Hlen : List.length Drow = n).
  { apply HD. eapply nth_error_In; eauto. }
  unfold nearest. rewrite (nth_error_nth _ _ [] HDrow).
  destruct (argmin_ok Drow) as (i & Hi & Hlt).
  { intros ->. cbn in Hlen. congruence. }
  unfold nearest_in. rewrite Hi.
  split; [lia |]. exists Drow. split; [reflexivity | assumption].
Qed.

(** With tracks and observations, [update] updates the tracks of the
    accepted pairs, ages the other tracks and registers the other
    observations, in the order in which it meets them. *)
Lemma update_by_effect ch rects t :
  lawful ch -> Inv P t -> objects t <> [] -> rects <> [] ->
  exists t',
    update_by ch rects t = inr t'
    /\ Inv P t' /\ extends t t'
    /\ effect ch t rects t'
         (association ch (max_distance t) (distances t rects)).
Proof.
  intros Hch HInv Hobj Hrects.
  pose proof Hch as (_ & Hrowsp & Hcolsp).
  pose proof HInv as (((Sd & Sh) & Hnd & Hlt) & HP & Hdis).
  unfold update_by, effect.
  destruct rects as [| r0 rs]; [congruence |]. set (rects := r0 :: rs) in *.
  destruct (objects t) as [| e0 es] eqn:Hobjs; [congruence |].
  rewrite <- Hobjs in *. clear Hobj.
  set (ics := map (fun r => centroid_of (rect_bbox r)) rects).
  set (ids := Dict.keys (objects t)) in *.
  change (dist (map centroid (Dict.values (objects t))) ics)
    with (distances t rects).
  set (D := distances t rects).
  assert (Hn : List.length rects <> 0) by (cbn; discriminate).
  pose proof (distances_rows t rects) as HDrows. fold D in HDrows.
  pose proof (distances_length t rects) as HlenD. fold D ids in HlenD.
  assert (Hin_rows : Forall (fun r => r < List.length D)
                       (processing_order ch D)).
  { apply Forall_forall. intros r Hr.
    now apply (processing_rows ch D Hch). }
  destruct (candidates_of D (List.length rects) (processing_order ch D)
              Hn HDrows Hin_rows) as (Hmins & Hargmins & Hcols).
  unfold processing_order in Hcols.
  rewrite Hmins. cbn [bind]. rewrite Hargmins. cbn [bind].
  rewrite Hcols. cbn [bind].
  rewrite combine_map.
  change (map (fun x => (x, nearest D x)) (argsort_of ch (map row_min D)))
    with (candidates ch D).
  assert (Hics : List.length ics = List.length rects)
    by (unfold ics; apply length_map).
  destruct (match_loop_effect P P_apply_match rects ics D ids
              (candidates ch D) t [] [] HInv eq_refl)
    as (t1 & Hloop & HI1 & HE1 & Hk1 & Hn1 & Hother1 & Hmatched1).
  { intros r c Hin.
    destruct (candidates_range ch D _ r c Hch Hn HDrows Hin) as (A & B & C).
    repeat split; auto; lia. }
  fold (association ch (max_distance t) D) in *.
  set (M := association ch (max_distance t) D) in *.
  rewrite Hloop. cbn [bind]. rewrite !unused_rev.
  (* the ageing loop *)
  set (RO := rows_order ch (unused (List.length D) (map fst M))).
  assert (HRO : forall x,
            In x RO <-> In x (unused (List.length D) (map fst M))).
  { intros x. split; apply Permutation_in;
      [apply Hrowsp | apply Permutation_sym, Hrowsp]. }
  assert (HROnd : NoDup RO).
  { apply (Permutation_NoDup (Permutation_sym (Hrowsp _))), unused_NoDup. }
  assert (Hrows : Forall (fun row => row < List.length ids) RO).
  { apply Forall_forall. intros a Ha. apply HRO, In_unused in Ha. lia. }
  rewrite (for_each_rows ids _ t1 Hrows).
  set (aged := map (fun row => nth row ids 0) RO).
  destruct (age_ids_effect P aged t1 HI1)
    as (t2 & Hage & HI2 & HE2 & Hn2 & Hsub2 & Hout2 & Heff2).
  { apply NoDup_map_nth; auto. }
  { intros id Hid. apply in_map_iff in Hid.
    destruct Hid as (row & <- & Hrow).
    unfold live. rewrite Hk1. apply nth_In.
    rewrite Forall_forall in Hrows. auto. }
  rewrite Hage. cbn [bind].
  (* the registration loop *)
  set (CO := cols_order ch (unused (List.length rects) (map snd M))).
  destruct (register_loop_effect P P_register rects CO t2 HI2)
    as (t3 & Hreg & HI3 & HE3 & Hn3 & Hold3 & Hnew3).
  { apply Forall_forall. intros i Hi.
    apply (Permutation_in _ (Hcolsp _)) in Hi. apply In_unused in Hi. tauto. }
  fold ics in Hreg. exists t3. split; [exact Hreg |]. split; [exact HI3 |].
  split.
  { eapply extends_trans; [exact HE1 |]. eapply extends_trans; eauto. }
  assert (Hidlt : forall id, In id ids -> id < next_object_id t2).
  { intros id Hid. rewrite Hn2, Hn1. rewrite Forall_forall in Hlt. auto. }
  assert (Hrow_of : forall r id r',
            nth_error ids r = Some id -> nth r' ids 0 = id ->
            r' < List.length ids -> r' = r).
  { intros r id r' Hr Hr' Hlen.
    apply (proj1 (NoDup_nth_error ids) Hnd); [assumption |].
    rewrite Hr. rewrite <- Hr'. now apply nth_error_nth'. }
  assert (Hnot_aged : forall r c id,
            In (r, c) M -> nth_error ids r = Some id -> ~ In id aged).
  { intros r c id Hin Hid Haged. apply in_map_iff in Haged.
    destruct Haged as (r' & Hr' & Hun). apply HRO, In_unused in Hun.
    destruct Hun as [Hlen Hfree].
    assert (r' = r) by (apply (Hrow_of r id r'); auto; lia). subst r'.
    apply Hfree. change r with (fst (r, c)). now apply in_map. }
  split; [| split].
  - (* accepted pairs *)
    intros r c Hin.
    pose proof (greedy_fresh _ _ _ _ _ _ _ Hin) as (_ & _ & Hcand & _).
    destruct (candidates_range ch D _ r c Hch Hn HDrows Hcand) as (Hr & Hc & _).
    destruct (nth_error ids r) as [id |] eqn:Hid;
      [| apply nth_error_None in Hid; lia].
    assert (Hlive : In id ids) by (eapply nth_error_In; eauto).
    destruct (key_In_get _ _ Hlive) as (o & Ho).
    destruct (Hmatched1 r c id o Hin Hid Ho)
      as (ctr & rect & o' & Hctr & Hrect & Hap & Ho1 & Hd1).
    assert (ctr = centroid_of (rect_bbox rect)).
    { unfold ics in Hctr.
      rewrite (map_nth_error (fun r => centroid_of (rect_bbox r)) _ _ Hrect)
        in Hctr. congruence. }
    subst ctr.
    exists id, o, rect, o'.
    destruct (Hold3 id (Hidlt id Hlive)) as [E3 E3'].
    destruct (Hout2 id (Hnot_aged r c id Hin Hid)) as (E2 & E2' & _).
    repeat split; auto; congruence.
  - (* the other tracks *)
    intros r id Hid Hfree.
    assert (Hlive : In id ids) by (eapply nth_error_In; eauto).
    assert (Hr : r < List.length ids).
    { apply nth_error_Some. congruence. }
    destruct (key_In_get id (disappeared t)) as (d & Hd);
      [now rewrite Sd |].
    exists d. split; [exact Hd |].
    destruct (Hother1 id) as [E1 E1'].
    { intros r' c' Hin Hr'. apply Hfree.
      assert (r' = r).
      { apply (proj1 (NoDup_nth_error ids) Hnd); [| congruence].
        apply nth_error_Some. congruence. }
      subst r'. change r with (fst (r, c')). now apply in_map. }
    assert (Haged : In id aged).
    { unfold aged. apply in_map_iff. exists r. split.
      - now apply nth_error_nth.
      - apply HRO, In_unused. split; [lia | assumption]. }
    rewrite <- E1' in Hd. specialize (Heff2 id d Haged Hd).
    destruct HE1 as (Hmd1 & _). rewrite Hmd1 in Heff2.
    destruct (Hold3 id (Hidlt id Hlive)) as [E3 E3'].
    destruct (max_disappeared t <? S d).
    + intros Hl3. apply Heff2. apply live_get. apply live_get in Hl3.
      now rewrite <- E3.
    + destruct Heff2 as [A B]. rewrite E3, E3', A, B, E1. auto.
  - (* the other observations *)
    unfold registered_in, unmatched_cols. fold CO.
    rewrite Hn3, Hn2, Hn1. split; [reflexivity |].
    intros k c Hk. rewrite <- Hn1, <- Hn2. now apply Hnew3.
Qed.

Lemma update_by_ok ch rects t :
  lawful ch -> Inv P t ->
  exists t', update_by ch rects t = inr t' /\ Inv P t' /\ extends t t'.
Proof.
  intros Hch HInv.
  destruct rects as [| r0 rs].
  { rewrite update_by_simple by now left.
    now apply (update_ok P P_register P_apply_match). }
  destruct (objects t) as [| e0 es] eqn:Hobjs.
  { rewrite update_by_simple by now right.
    now apply (update_ok P P_register P_apply_match). }
  destruct (update_by_effect ch (r0 :: rs) t Hch HInv)
    as (t' & Hu & HI & HE & _); [congruence | discriminate | eauto].
Qed.

Lemma evolves_Inv t t' :
  Inv P t -> evolves t t' -> Inv P t' /\ extends t t'.
Proof.
  intros HInv Hev. induction Hev as [t | ch rects t t1 t' Hch Hu Hev IH].
  - split; [assumption | apply extends_refl].
  - destruct (update_by_ok ch rects t Hch HInv) as (t1' & E & HI1 & HE1).
    rewrite Hu in E. injection E as <-.
    destruct (IH HI1) as (HI' & HE').
    split; [assumption | eapply extends_trans; eauto].
Qed.

(** The association of the code, declaratively: track [r] is matched
    with observation [c] exactly when [c] is its nearest observation, it
    is within distance, and no track met before [r] has [c] as its
    nearest observation. *)
Lemma association_iff ch maxd D n r c :
  lawful ch -> n <> 0 -> Forall (fun row => List.length row = n) D ->
  In (r, c) (association ch maxd D)
  <-> r < List.length D
      /\ c = nearest D r
      /\ exceeds maxd (entry D r c) = false
      /\ forall r', earlier (processing_order ch D) r' r -> nearest D r' <> c.
Proof.
  intros Hch Hn HD. unfold association.
  set (rows := processing_order ch D).
  destruct (processing_rows ch D Hch) as (Hnd & Hrows). fold rows in Hnd, Hrows.
  assert (Hfst : map fst (candidates ch D) = rows).
  { unfold candidates. rewrite map_map. cbn. apply map_id. }
  assert (Hcand : forall x y, In (x, y) (candidates ch D) -> y = nearest D x).
  { intros x y Hin. unfold candidates in Hin. apply in_map_iff in Hin.
    destruct Hin as (x' & E & _). now injection E as -> <-. }
  assert (Hrow_nonempty : forall x, x < List.length D -> nth x D [] <> []).
  { intros x Hx E. rewrite Forall_forall in HD.
    specialize (HD (nth x D []) (nth_In _ _ Hx)). rewrite E in HD.
    cbn in HD. congruence. }
  rewrite greedy_iff; [| now rewrite Hfst | intros ? ? _ []].
  split.
  - intros (l1 & l2 & Hsplit & _ & Hex & Hl1).
    assert (Hin : In (r, c) (candidates ch D)).
    { rewrite Hsplit. apply in_or_app. right. now left. }
    pose proof (Hcand _ _ Hin) as ->.
    assert (Hr : r < List.length D).
    { apply Hrows. rewrite <- Hfst. change r with (fst (r, nearest D r)).
      now apply in_map. }
    split; [assumption |]. split; [reflexivity |]. split; [assumption |].
    intros r' Hearlier Hnear.
    pose proof (processing_sorted ch D r' r Hch Hearlier) as Hle.
    destruct Hearlier as (m1 & m2 & Hm & Hr').
    assert (Hsplit' : rows = map fst l1 ++ r :: map fst l2).
    { rewrite <- Hfst, Hsplit, map_app. reflexivity. }
    assert (E1 : map fst l1 = m1).
    { apply (NoDup_split_unique r _ (map fst l2) m1 m2).
      - now rewrite <- Hsplit'.
      - rewrite <- Hsplit'. exact Hm. }
    rewrite <- E1 in Hr'. apply in_map_iff in Hr'.
    destruct Hr' as ([x y] & Hx & Hxy). cbn in Hx. subst x.
    assert (Hy : y = nearest D r').
    { apply Hcand. rewrite Hsplit. apply in_or_app. now left. }
    rewrite Hy, Hnear in Hxy. pose proof (Hl1 r' Hxy) as Hfar.
    assert (Hr'lt : r' < List.length D).
    { apply Hrows. fold rows in Hm. rewrite Hm, <- E1. apply in_or_app. left.
      change r' with (fst (r', nearest D r)). now apply in_map. }
    rewrite <- Hnear in Hfar.
    rewrite (entry_nearest D r' (Hrow_nonempty r' Hr'lt)) in Hfar.
    rewrite (entry_nearest D r (Hrow_nonempty r Hr)) in Hex.
    rewrite (exceeds_mono maxd _ _ Hex Hle) in Hfar. discriminate.
  - intros (Hr & -> & Hex & Hfirst).
    assert (Hin : In (r, nearest D r) (candidates ch D)).
    { unfold candidates. apply in_map_iff. exists r.
      split; [reflexivity | now apply Hrows]. }
    destruct (in_split _ _ Hin) as (l1 & l2 & Hsplit).
    exists l1, l2. split; [exact Hsplit |]. split; [tauto |].
    split; [exact Hex |].
    intros r1 Hr1. exfalso. apply (Hfirst r1).
    + exists (map fst l1), (map fst l2). split.
      * fold rows. rewrite <- Hfst, Hsplit, map_app. reflexivity.
      * change r1 with (fst (r1, nearest D r)). now apply in_map.
    + symmetry. apply Hcand. rewrite Hsplit. apply in_or_app. now left.
Qed.

(** One call of [update] in the life of a track. *)
Lemma update_by_life ch rects t :
  lawful ch -> Inv P t -> max_disappeared t = 50 ->
  exists t',
    update_by ch rects t = inr t'
    /\ Inv P t' /\ extends t t'
    /\ forall id o d,
         Dict.get id (objects t) = Some o ->
         Dict.get id (disappeared t) = Some d ->
         seen rects o id t' \/ unseen o d id t'.
Proof.
  intros Hch HInv Hmd.
  pose proof HInv as (((Sd & Sh) & Hnd & Hlt) & HP & Hdis).
  assert (Hbound : forall id d, Dict.get id (disappeared t) = Some d -> d <= 50).
  { intros id d Hd. apply get_Some_In in Hd. rewrite Forall_forall in Hdis.
    specialize (Hdis _ Hd). cbn in Hdis. lia. }
  assert (Haged : forall t' id o d,
            Dict.get id (objects t) = Some o ->
            Dict.get id (disappeared t) = Some d ->
            (if max_disappeared t <? S d
             then ~ live id t'
             else Dict.get id (objects t') = Dict.get id (objects t)
                  /\ Dict.get id (disappeared t') = Some (S d)) ->
            unseen o d id t').
  { intros t' id o d Ho Hd Hif. pose proof (Hbound id d Hd) as Hle.
    rewrite Hmd in Hif. unfold unseen.
    destruct (50 <? S d) eqn:Hcmp.
    - apply Nat.ltb_lt in Hcmp. right. split; [lia | assumption].
    - apply Nat.ltb_ge in Hcmp. left. destruct Hif as [A B].
      split; [lia |]. split; [congruence | assumption]. }
  destruct rects as [| r0 rs].
  { (* no observation *)
    cbn [update_by].
    destruct (age_ids_effect P (Dict.keys (disappeared t)) t HInv)
      as (t' & Hage & HI' & HE' & _ & _ & _ & Heff).
    { rewrite Sd. exact Hnd. }
    { intros k Hk. unfold live. now rewrite <- Sd. }
    exists t'. split; [exact Hage |]. split; [exact HI' |].
    split; [exact HE' |].
    intros id o d Ho Hd. right. apply (Haged t' id o d Ho Hd).
    apply Heff; [| exact Hd]. eapply get_Some_key; eauto. }
  assert (Hcase : objects t = [] \/ objects t <> []).
  { destruct (objects t); [now left | right; discriminate]. }
  destruct Hcase as [Hobjs | Hobjs].
  { (* no track *)
    destruct (update_by_ok ch (r0 :: rs) t Hch HInv) as (t' & Hu & HI' & HE').
    exists t'. split; [exact Hu |]. split; [exact HI' |].
    split; [exact HE' |].
    intros id o d Ho. rewrite Hobjs in Ho. discriminate. }
  destruct (update_by_effect ch (r0 :: rs) t Hch HInv)
    as (t' & Hu & HI' & HE' & Hm & Ha & _);
    [assumption | discriminate |].
  exists t'. split; [exact Hu |]. split; [exact HI' |]. split; [exact HE' |].
  intros id o d Ho Hd.
  assert (Hlive : In id (Dict.keys (objects t)))
    by (eapply get_Some_key; eauto).
  destruct (In_nth_error _ _ Hlive) as (r & Hr).
  set (M := association ch (max_distance t) (distances t (r0 :: rs))) in *.
  destruct (in_dec Nat.eq_dec r (map fst M)) as [Hin | Hnot].
  - left. apply in_map_iff in Hin. destruct Hin as ([r' c] & E & Hin).
    cbn in E. subst r'.
    destruct (Hm r c Hin)
      as (id' & o0 & rect & o' & Hid' & Ho0 & Hrect & Hap & Ho' & Hd').
    assert (id' = id) by congruence. subst id'.
    assert (o0 = o) by congruence. subst o0.
    exists rect, o'. split; [eapply nth_error_In; eauto |]. auto.
  - right. destruct (Ha r id Hr Hnot) as (d' & Hd' & Hif).
    assert (d' = d) by congruence. subst d'.
    now apply (Haged t' id o d).
Qed.

(** Frames without observations: a track is kept, its counter going up
    by one each frame, until the counter would exceed 50. *)
Lemma empty_frames_life n : forall t id o d,
  Inv P t -> max_disappeared t = 50 ->
  Dict.get id (objects t) = Some o ->
  Dict.get id (disappeared t) = Some d ->
  exists t',
    run (empty_frames n) t = inr t'
    /\ (d + n <= 50 ->
        Dict.get id (objects t') = Some o
        /\ Dict.get id (disappeared t') = Some (d + n))
    /\ (50 < d + n -> ~ live id t').
Proof.
  induction n as [| n IH]; intros t id o d HInv Hmd Ho Hd.
  - exists t. split; [reflexivity |]. rewrite Nat.add_0_r. split; [auto |].
    intros Hgt. exfalso.
    destruct HInv as (_ & _ & Hdis). apply get_Some_In in Hd.
    rewrite Forall_forall in Hdis. specialize (Hdis _ Hd). cbn in Hdis. lia.
  - cbn [empty_frames repeat run]. fold (empty_frames n).
    destruct (update_by_life ascending [] t lawful_ascending HInv Hmd)
      as (t1 & Hu & HI1 & HE1 & Hlife).
    change (update_by ascending [] t) with (update [] t) in Hu.
    rewrite Hu. cbn [bind].
    assert (Hmd1 : max_disappeared t1 = 50).
    { destruct HE1 as (E & _). congruence. }
    destruct (Hlife id o d Ho Hd)
      as [(rect & _ & [] & _) | [(Hlt & Ho1 & Hd1) | (-> & Hgone)]].
    + destruct (IH t1 id o (S d) HI1 Hmd1 Ho1 Hd1) as (t' & Hrun & Hkeep & Hdrop).
      exists t'. split; [exact Hrun |].
      replace (d + S n) with (S d + n) by lia. auto.
    + destruct (run_ok P P_register P_apply_match (empty_frames n) t1 HI1)
        as (t' & Hrun & _ & HE').
      exists t'. split; [exact Hrun |]. split; [lia |].
      intros _ Hl. destruct HE' as (_ & _ & _ & Hk).
      destruct (Hk id Hl) as [Hin | Hge]; [contradiction |].
      assert (Hlive : live id t) by (eapply get_Some_key; eauto).
      pose proof (live_lt P t id HInv Hlive).
      destruct HE1 as (_ & _ & Hn1 & _). lia.
Qed.

End AssociationChoices.

(** ** Data association of a frame *)

Section DataAssociation.
Import Tracker TrackerSpec TrackerChoices.

Lemma tracked_after_side_by_side : tracked tracked_side_by_side.
Proof.
  apply (evolves_step ascending side_by_side Camera.tracker
           tracked_side_by_side).
  - apply lawful_ascending.
  - vm_compute. reflexivity.
  - apply evolves_refl.
Qed.

(** [update] is [update_by] under the ascending choices, so that the
    trackers [run] reaches are trackers of the camera. *)
Lemma update_ascending rects t : update_by ascending rects t = update rects t.
Proof. reflexivity. Qed.

Lemma run_evolves frames : forall t t',
  run frames t = inr t' -> evolves t t'.
Proof.
  induction frames as [| rects frames IH]; cbn [run]; intros t t' Hrun.
  - injection Hrun as <-. apply evolves_refl.
  - apply bind_inr in Hrun. destruct Hrun as (t1 & Hu & Hrun).
    apply (evolves_step ascending rects t t1 t');
      [apply lawful_ascending | exact Hu | now apply IH].
Qed.

(** What is true of every tracker of the camera. *)
Lemma tracked_Inv t :
  tracked t ->
  Inv (fun _ => True) t /\ max_disappeared t = 50 /\ max_distance t = 150%Z.
Proof.
  intros Ht.
  destruct (evolves_Inv (fun _ => True) (fun _ _ _ _ => I)
              (fun _ _ _ _ _ _ => I) Camera.tracker t
              (Inv_init _ 50 150%Z) Ht) as (HInv & Hmd & Hmx & _).
  auto.
Qed.

(** C1 (as amended): on a tracker of the camera, with tracks and
    observations both present, whatever order numpy gives to equally
    distant tracks and whatever order Python iterates its sets in,
    [update] returns.  The tracks are met in ascending order of the
    distance to their nearest observation; a track is matched with an
    observation exactly when that observation is the nearest one of the
    track (the first among equally near ones), their distance is at most
    150, and no track met earlier has the same nearest observation.  The
    track of every matched pair is updated, every other track ages, and
    every other observation is registered as a new track, the
    identifiers being handed out in the order in which the set of
    unmatched observations is iterated. *)
Theorem C1_nearest_greedy_association
  (ch : Choices) (t : EuclideanDistTracker) (rects : list Rect) :
  lawful ch -> tracked t -> objects t <> [] -> rects <> [] ->
  exists t',
    update_by ch rects t = inr t'
    /\ max_distance t = 150%Z
    /\ (forall r r',
          earlier (processing_order ch (distances t rects)) r r' ->
          (row_min (nth r (distances t rects) [])
           <= row_min (nth r' (distances t rects) []))%Z)
    /\ (forall r r',
          r < List.length (Dict.keys (objects t)) ->
          r' < List.length (Dict.keys (objects t)) -> r <> r' ->
          earlier (processing_order ch (distances t rects)) r r'
          \/ earlier (processing_order ch (distances t rects)) r' r)
    /\ (forall r c,
          In (r, c) (association ch 150 (distances t rects))
          <-> r < List.length (Dict.keys (objects t))
              /\ c = nearest (distances t rects) r
              /\ (entry (distances t rects) r c <= 150 * 150)%Z
              /\ forall r',
                   earlier (processing_order ch (distances t rects)) r' r ->
                   nearest (distances t rects) r' <> c)
    /\ effect ch t rects t' (association ch 150 (distances t rects))
    /\ (forall c rect,
          nth_error rects c = Some rect ->
          ~ In c (map snd (association ch 150 (distances t rects))) ->
          exists k,
            k < List.length
                  (unmatched_cols rects
                     (association ch 150 (distances t rects)))
            /\ Dict.get (next_object_id t + k) (objects t')
               = Some (new_track rect)).
Proof.
  intros Hch Ht Hobjs Hrects.
  destruct (tracked_Inv t Ht) as (HInv & _ & Hmax).
  destruct (update_by_effect (fun _ => True) (fun _ _ _ _ => I)
              (fun _ _ _ _ _ _ => I) ch rects t Hch HInv Hobjs Hrects)
    as (t' & Hu & _ & _ & He).
  rewrite Hmax in He.
  exists t'. split; [exact Hu |]. split; [exact Hmax |].
  split; [intros r r'; now apply processing_sorted |].
  split.
  { intros r r'. rewrite <- distances_length with (rects := rects).
    now apply processing_total. }
  split.
  { intros r c.
    rewrite (association_iff ch 150 (distances t rects)
               (List.length rects) r c).
    - rewrite distances_length, exceeds_150. reflexivity.
    - exact Hch.
    - destruct rects; [congruence | discriminate].
    - apply distances_rows. }
  split; [exact He |].
  intros c rect Hrect Hfree.
  set (M := association ch 150 (distances t rects)) in *.
  destruct He as (_ & _ & Hn & Hreg).
  destruct Hch as (_ & _ & Hcolsp).
  assert (Hin : In c (cols_order ch (unmatched_cols rects M))).
  { apply (Permutation_in _ (Permutation_sym (Hcolsp _))).
    unfold unmatched_cols. apply In_unused. split; [| assumption].
    apply nth_error_Some. congruence. }
  destruct (In_nth_error _ _ Hin) as (k & Hk).
  exists k. split.
  - rewrite <- (Permutation_length (Hcolsp (unmatched_cols rects M))).
    apply nth_error_Some. congruence.
  - destruct (Hreg k c Hk) as (rect' & Hrect' & Ho & _).
    congruence.
Qed.

Lemma C1_nearest_greedy_association_witness :
  exists t',
    update_by ascending moved_apart tracked_side_by_side = inr t'
    /\ effect ascending tracked_side_by_side moved_apart t'
         (association ascending 150
            (distances tracked_side_by_side moved_apart)).
Proof.
  destruct (C1_nearest_greedy_association ascending
              tracked_side_by_side moved_apart lawful_ascending
              tracked_after_side_by_side)
    as (t' & Hu & _ & _ & _ & _ & He & _).
  - vm_compute. discriminate.
  - discriminate.
  - exists t'. split; [exact Hu | exact He].
Defined.

(** C1 as stated fails: with all pairs as candidates, the second person
    of [moved_apart], 70 away from the second track, would be matched
    with it once the first track has taken the first person; the code
    pairs the second track with its nearest observation only, the first
    person, so that track ages and the second person becomes a new
    track. *)
Lemma C1_all_pairs_counterexample :
  ~ (forall ch t rects,
       lawful ch -> tracked t -> objects t <> [] -> rects <> [] ->
       exists t',
         update_by ch rects t = inr t'
         /\ effect ch t rects t'
              (spec_association 150 (distances t rects))).
Proof.
  intros Hclaim.
  specialize (Hclaim ascending tracked_side_by_side moved_apart
                     lawful_ascending tracked_after_side_by_side).
  destruct Hclaim as (t' & Hu & Hupd & _).
  - vm_compute. discriminate.
  - discriminate.
  - vm_compute in Hu. injection Hu as <-.
    assert (Hin : In (1, 1)
                    (spec_association 150
                       (distances tracked_side_by_side moved_apart))).
    { vm_compute. right. left. reflexivity. }
    destruct (Hupd 1 1 Hin) as (id & o & rect & o' & Hk & _ & _ & _ & _ & Hd).
    vm_compute in Hk. injection Hk as <-.
    vm_compute in Hd. discriminate.
Qed.

End DataAssociation.

(** ** Track identifiers and the life of a track *)

Section TrackLifetime.
Import Tracker TrackerSpec TrackerChoices.

(** C4: on a tracker of the camera, whatever the frame and whatever the
    order of ties and of set iteration, [update] returns; afterwards the
    live identifiers are pairwise distinct, each live track has a
    counter and no counter exceeds 50.  A track that was live before the
    call was either matched with an observation of the frame, and then
    it is updated and its counter is 0, or it was not, and then its
    counter went up by one, the track being left as it was when its
    counter was below 50 and removed when it was 50.  Live identifiers
    lie below the next identifier, which never goes down, and an
    identifier below it that is not live is never live again, whatever
    frames follow.  Over frames without observations a track is removed
    exactly when its counter would pass 50. *)
Theorem C4_track_identifiers
  (ch : Choices) (t : EuclideanDistTracker) (rects : list Rect) :
  lawful ch -> tracked t ->
  exists t',
    update_by ch rects t = inr t'
    /\ NoDup (Dict.keys (objects t'))
    /\ Dict.keys (disappeared t') = Dict.keys (objects t')
    /\ Forall (fun e => snd e <= 50) (disappeared t')
    /\ (forall id o d,
          Dict.get id (objects t) = Some o ->
          Dict.get id (disappeared t) = Some d ->
          seen rects o id t' \/ unseen o d id t')
    /\ next_object_id t <= next_object_id t'
    /\ (forall id, live id t' -> live id t \/ next_object_id t <= id)
    /\ (forall id, live id t' -> id < next_object_id t')
    /\ (forall id t'',
          id < next_object_id t' -> ~ live id t' -> evolves t' t'' ->
          ~ live id t'')
    /\ (forall n id o d,
          Dict.get id (objects t') = Some o ->
          Dict.get id (disappeared t') = Some d ->
          exists t'',
            run (empty_frames n) t' = inr t''
            /\ (d + n <= 50 ->
                Dict.get id (objects t'') = Some o
                /\ Dict.get id (disappeared t'') = Some (d + n))
            /\ (50 < d + n -> ~ live id t'')).
Proof.
  intros Hch Ht.
  set (P := fun _ : Obj => True).
  assert (H1 : forall c b g conf, P (mkObj c b g conf [g] 1))
    by exact (fun _ _ _ _ => I).
  assert (H2 : forall c r o o', P o -> apply_match c r o = inr o' -> P o')
    by exact (fun _ _ _ _ _ _ => I).
  destruct (tracked_Inv t Ht) as (HInv & Hmd & _). fold P in HInv.
  destruct (update_by_life P H1 H2 ch rects t Hch HInv Hmd)
    as (t' & Hu & HInv' & HE & Hlife).
  pose proof HInv' as (((Sd & Sh) & Hnd & Hlt) & _ & Hdis).
  assert (Hmd' : max_disappeared t' = 50).
  { destruct HE as (E & _). congruence. }
  exists t'. split; [exact Hu |]. split; [exact Hnd |]. split; [exact Sd |].
  split; [now rewrite Hmd' in Hdis |]. split; [exact Hlife |].
  split; [apply HE |]. split; [apply HE |].
  split; [intros id; apply (live_lt P t' id HInv') |].
  split.
  - intros id t'' Hid Hdead Hev Hl.
    destruct (evolves_Inv P H1 H2 t' t'' HInv' Hev) as (_ & _ & _ & _ & Hk).
    destruct (Hk id Hl) as [Hin | Hge]; [contradiction | lia].
  - intros n id o d. now apply (empty_frames_life P H1 H2).
Qed.

Lemma C4_track_identifiers_witness :
  exists t',
    update_by ascending moved_apart tracked_side_by_side = inr t'
    /\ NoDup (Dict.keys (objects t'))
    /\ Forall (fun e => snd e <= 50) (disappeared t').
Proof.
  destruct (C4_track_identifiers ascending tracked_side_by_side moved_apart
              lawful_ascending tracked_after_side_by_side)
    as (t' & Hu & Hnd & _ & Hle & _).
  exists t'. split; [exact Hu |]. split; [exact Hnd | exact Hle].
Defined.

End TrackLifetime.

(** ** Tracks from frame to frame *)

Section TrackLifeSteps.
Import Tracker TrackerSpec TrackLife.

Variable P : Obj -> Prop.
Hypothesis P_register :
  forall c b g conf, P (mkObj c b g conf [g] 1).
Hypothesis P_apply_match :
  forall c r o o', P o -> apply_match c r o = inr o' -> P o'.

Lemma update_provenance rects t t' :
  Inv P t -> update rects t = inr t' ->
  Inv P t' /\ extends t t'
  /\ forall id o',
       Dict.get id (objects t') = Some o' ->
       carried_over t rects id o' \/ registered_now t rects id o'.
Proof.
  intros HInv Hu.
  pose proof HInv as (((Sd & Sh) & Hnd & Hlt) & HP & Hdis).
  destruct (update_ok P P_register P_apply_match rects t HInv)
    as (t0 & Hu0 & HI' & HE').
  rewrite Hu in Hu0. injection Hu0 as <-.
  split; [exact HI' |]. split; [exact HE' |].
  intros id o' Hget.
  assert (Hlive' : live id t') by (apply live_get; congruence).
  assert (Hlt' : id < next_object_id t').
  { destruct HI' as ((_ & _ & Hlt') & _). rewrite Forall_forall in Hlt'. auto. }
  destruct rects as [| r0 rs].
  - (* no observation *)
    left.
    destruct (age_ids_effect P (Dict.keys (disappeared t)) t HInv)
      as (t1 & Hrun & _ & _ & _ & Hsub & _ & Heff).
    { rewrite Sd. exact Hnd. }
    { intros k Hk. unfold live. now rewrite <- Sd. }
    unfold update in Hu. rewrite Hrun in Hu. injection Hu as ->.
    pose proof (Hsub id Hlive') as Hlive.
    assert (Hin : In id (Dict.keys (disappeared t))) by (now rewrite Sd).
    destruct (key_In_get _ _ Hin) as (d & Hd).
    specialize (Heff id d Hin Hd).
    destruct (max_disappeared t <? S d); [contradiction |].
    destruct Heff as [E _]. exists o'. split; [congruence | now left].
  - set (rects := r0 :: rs) in *.
    assert (Hrects : rects <> []) by discriminate.
    destruct (objects t) as [| e0 es] eqn:Hobj.
    + (* no track *)
      right.
      destruct (register_loop_effect P P_register rects
                  (seq 0 (List.length rects)) t HInv)
        as (t1 & Hreg & _ & _ & Hn1 & Hold & Hnew).
      { apply Forall_forall. intros i Hi. apply in_seq in Hi. lia. }
      assert (Hu1 : for_each
                      (register_rect rects
                         (map (fun r => centroid_of (rect_bbox r)) rects))
                      (seq 0 (List.length rects)) t = inr t').
      { unfold update in Hu. rewrite Hobj in Hu. exact Hu. }
      rewrite Hreg in Hu1. injection Hu1 as ->.
      rewrite length_seq in Hn1.
      assert (Hge : next_object_id t <= id).
      { destruct (le_lt_dec (next_object_id t) id) as [Hge | Hlow]; [exact Hge |].
        destruct (Hold id Hlow) as [E _]. rewrite Hobj in E. cbn in E.
        congruence. }
      split; [exact Hge |].
      set (k := id - next_object_id t).
      assert (Hk : nth_error (seq 0 (List.length rects)) k = Some k).
      { rewrite (nth_error_nth' _ 0) by (rewrite length_seq; lia).
        rewrite seq_nth by lia. reflexivity. }
      destruct (Hnew k k Hk) as (rect & Hrect & Ho & _).
      replace (next_object_id t + k) with id in Ho by lia.
      exists rect. split; [eapply nth_error_In; eauto | congruence].
    + rewrite <- Hobj in *.
      assert (Hobjs : objects t <> []) by (rewrite Hobj; discriminate).
      destruct (update_effect P P_register P_apply_match rects t HInv Hobjs Hrects)
        as (t1 & Hu1 & _ & Hm & Ha & Hn1 & Hnew).
      rewrite Hu in Hu1. injection Hu1 as <-.
      destruct (le_lt_dec (next_object_id t) id) as [Hge | Hlow].
      * (* a new identifier *)
        right. split; [exact Hge |].
        set (k := id - next_object_id t).
        destruct (nth_error
                    (unmatched_cols rects
                       (code_association (max_distance t) (distances t rects)))
                    k) as [c |] eqn:Hk.
        -- destruct (Hnew k c Hk) as (rect & Hrect & Ho & _).
           replace (next_object_id t + k) with id in Ho by lia.
           exists rect. split; [eapply nth_error_In; eauto | congruence].
        -- apply nth_error_None in Hk. lia.
      * (* an identifier handed out before *)
        left.
        assert (Hlive : In id (Dict.keys (objects t))).
        { destruct HE' as (_ & _ & _ & Hk). destruct (Hk id Hlive'); [assumption | lia]. }
        destruct (In_nth_error _ _ Hlive) as (r & Hr).
        destruct (in_dec Nat.eq_dec r
                    (map fst (code_association (max_distance t)
                                (distances t rects)))) as [Hin | Hout].
        -- apply in_map_iff in Hin. destruct Hin as ([r' c] & E & Hin).
           cbn in E. subst r'.
           destruct (Hm r c Hin)
             as (id0 & o & rect & o'' & Hk & Hg & Hrect & Hap & Hg' & _).
           assert (id0 = id) by congruence. subst id0.
           exists o. split; [exact Hg |]. right. exists rect.
           split; [eapply nth_error_In; eauto | congruence].
        -- destruct (Ha r id Hr Hout) as (d & Hd & Hif).
           destruct (max_disappeared t <? S d); [contradiction |].
           destruct Hif as [E _]. exists o'. split; [congruence | now left].
Qed.

End TrackLifeSteps.

Section TrackLifeFacts.
Import Tracker TrackerSpec TrackLife.

Lemma pymax_ge a b : (a <= pymax a b)%Q.
Proof.
  unfold pymax. destruct (Qle_bool b a) eqn:E.
  - apply Qle_refl.
  - apply Qlt_le_weak, Qnot_le_lt. intros Hle.
    apply Qle_bool_iff in Hle. congruence.
Qed.

Lemma apply_match_shape c r o o' :
  apply_match c r o = inr o' ->
  centroid o' = c /\ bbox o' = rect_bbox r
  /\ hits o' = S (hits o)
  /\ confidence o' = pymax (confidence o) (rect_confidence r)
  /\ ((rect_gender r = "Unknown"
       /\ gender_history o' = gender_history o /\ gender o' = gender o)
      \/ (rect_gender r <> "Unknown"
          /\ gender_history o'
             = if 20 <? List.length (gender_history o ++ [rect_gender r])
               then tl (gender_history o ++ [rect_gender r])
               else gender_history o ++ [rect_gender r])).
Proof.
  unfold apply_match. intros Hap.
  apply bind_inr in Hap. destruct Hap as (o1 & Hv & E).
  injection E as <-. cbn [centroid bbox hits confidence gender_history gender].
  apply vote_history in Hv.
  destruct Hv as [(Hg & ->) | (Hg & Hh & _ & Hc & Hb & Hconf & Hhits)];
    cbn [centroid bbox hits confidence gender_history gender] in *.
  - repeat split. left. repeat split. exact Hg.
  - rewrite Hc, Hb, Hconf, Hhits. repeat split. right. split; assumption.
Qed.

Lemma history_shape_register c b g conf :
  history_shape (mkObj c b g conf [g] 1).
Proof. unfold history_shape. cbn. split; [lia | tauto]. Qed.

Lemma history_shape_apply_match c r o o' :
  history_shape o -> apply_match c r o = inr o' -> history_shape o'.
Proof.
  intros ((Hone & Hhits) & Hunk) Hap.
  destruct (apply_match_shape c r o o' Hap)
    as (_ & _ & Hh & _ & [(_ & Hhist & _) | (Hg & Hhist)]);
    unfold history_shape; rewrite Hh, Hhist.
  - split; [lia | assumption].
  - destruct (gender_history o) as [| g0 h]; [cbn in Hone; lia |].
    cbn [tl] in Hunk.
    assert (Hfresh : ~ In "Unknown" (h ++ [rect_gender r])).
    { intros Hin. apply in_app_or in Hin.
      destruct Hin as [Hin | [E | []]]; [contradiction | congruence]. }
    destruct (20 <? List.length ((g0 :: h) ++ [rect_gender r])) eqn:Hcap.
    + apply Nat.ltb_lt in Hcap. cbn [app tl List.length] in *.
      rewrite length_app in *. cbn [List.length] in *.
      split; [lia |].
      destruct (h ++ [rect_gender r]) as [| g1 h1]; cbn [tl]; [tauto |].
      intros Hin. apply Hfresh. now right.
    + cbn [app tl List.length] in *.
      rewrite length_app in *. cbn [List.length] in *.
      split; [lia | assumption].
Qed.

Lemma register_loop_keys (P : Obj -> Prop) rects ics :
  (forall c b g conf, P (mkObj c b g conf [g] 1)) ->
  forall l t t',
    Inv P t ->
    for_each (register_rect rects ics) l t = inr t' ->
    Dict.keys (objects t')
    = Dict.keys (objects t) ++ seq (next_object_id t) (List.length l).
Proof.
  intros HP. induction l as [| i l IH]; intros t t' HInv Hrun.
  - cbn in Hrun. injection Hrun as <-. cbn. now rewrite app_nil_r.
  - cbn [for_each] in Hrun. apply bind_inr in Hrun.
    destruct Hrun as (t1 & Hreg & Hrun).
    unfold register_rect in Hreg.
    apply bind_inr in Hreg. destruct Hreg as (c & _ & Hreg).
    apply bind_inr in Hreg. destruct Hreg as (r & _ & Hreg).
    injection Hreg as <-.
    destruct (register_Inv P HP c (rect_bbox r) (rect_gender r)
                (rect_confidence r) t HInv) as (HI1 & _).
    rewrite (IH _ _ HI1 Hrun).
    pose proof HInv as ((_ & _ & Hlt) & _).
    cbn [register objects next_object_id List.length seq].
    rewrite keys_set_notin.
    + rewrite <- app_assoc. reflexivity.
    + intros Hin. rewrite Forall_forall in Hlt. specialize (Hlt _ Hin). lia.
Qed.

Lemma run_hits_bound (P : Obj -> Prop) :
  (forall c b g conf, P (mkObj c b g conf [g] 1)) ->
  (forall c r o o', P o -> apply_match c r o = inr o' -> P o') ->
  forall frames t n t',
    Inv P t ->
    (forall id o, Dict.get id (objects t) = Some o -> hits o <= n) ->
    run frames t = inr t' ->
    forall id o,
      Dict.get id (objects t') = Some o -> hits o <= n + List.length frames.
Proof.
  intros H1 H2. induction frames as [| rects frames IH];
    intros t n t' HInv Hn Hrun id o Hget.
  - cbn in Hrun. injection Hrun as <-. cbn. rewrite Nat.add_0_r. eauto.
  - cbn [run] in Hrun. apply bind_inr in Hrun.
    destruct Hrun as (t1 & Hu & Hrun).
    destruct (update_provenance P H1 H2 rects t t1 HInv Hu)
      as (HI1 & _ & Hprov).
    cbn [List.length]. replace (n + S (List.length frames))
      with (S n + List.length frames) by lia.
    apply (IH t1 (S n) t' HI1) with (id := id); [| exact Hrun | exact Hget].
    intros id1 o1 Hget1.
    destruct (Hprov id1 o1 Hget1)
      as [(o0 & Hg0 & [-> | (rect & _ & Hap)]) | (_ & rect & _ & ->)].
    + specialize (Hn _ _ Hg0). lia.
    + destruct (apply_match_shape _ _ _ _ Hap) as (_ & _ & Hh & _).
      specialize (Hn _ _ Hg0). lia.
    + cbn. lia.
Qed.

Lemma confirmed_count_young g (objs : Dict.t nat Obj) :
  Forall (fun e => hits (snd e) < 10) objs -> confirmed_count g objs = 0%Z.
Proof.
  unfold confirmed_count. induction 1 as [| e l He _ IH]; [reflexivity |].
  cbn [filter]. unfold confirmed_as at 1.
  replace (10 <=? hits (snd e)) with false
    by (symmetry; apply Nat.leb_gt; exact He).
  cbn [andb]. exact IH.
Qed.

(** X1: whatever frames were fed to a tracker and whatever frame comes next,
    [update] returns, and every track that is live afterwards was live
    before (and is as it was, or was matched with an observation of the
    frame) or was registered for an observation of the frame: [update]
    invents no track. *)
Theorem update_invents_no_track (md : nat) (mx : Z)
  (frames : list (list Rect)) (rects : list Rect) :
  exists t t',
    run frames (Tracker.init md mx) = inr t
    /\ update rects t = inr t'
    /\ forall id o',
         Dict.get id (objects t') = Some o' ->
         carried_over t rects id o' \/ registered_now t rects id o'.
Proof.
  set (P := fun _ : Obj => True).
  assert (H1 : forall c b g conf, P (mkObj c b g conf [g] 1))
    by exact (fun _ _ _ _ => I).
  assert (H2 : forall c r o o', P o -> apply_match c r o = inr o' -> P o')
    by exact (fun _ _ _ _ _ _ => I).
  destruct (run_ok P H1 H2 frames _ (Inv_init P md mx)) as (t & Hrun & HInv & _).
  destruct (update_ok P H1 H2 rects t HInv) as (t' & Hu & _).
  exists t, t'. split; [exact Hrun |]. split; [exact Hu |].
  apply (update_provenance P H1 H2 rects t t' HInv Hu).
Qed.

(** X2: a track that survives a frame keeps or raises its hits by one and
    never lowers its confidence; when its hits are unchanged the track
    is untouched, and when they are raised the track carries the box and
    the centroid of an observation of the frame. *)
Theorem surviving_track_grows (md : nat) (mx : Z)
  (frames : list (list Rect)) (rects : list Rect) :
  exists t t',
    run frames (Tracker.init md mx) = inr t
    /\ update rects t = inr t'
    /\ forall id o o',
         Dict.get id (objects t) = Some o ->
         Dict.get id (objects t') = Some o' ->
         hits o <= hits o' <= S (hits o)
         /\ (confidence o <= confidence o')%Q
         /\ (hits o' = hits o -> o' = o)
         /\ (hits o' = S (hits o) ->
             exists rect,
               In rect rects
               /\ bbox o' = rect_bbox rect
               /\ centroid o' = centroid_of (rect_bbox rect)).
Proof.
  set (P := fun _ : Obj => True).
  assert (H1 : forall c b g conf, P (mkObj c b g conf [g] 1))
    by exact (fun _ _ _ _ => I).
  assert (H2 : forall c r o o', P o -> apply_match c r o = inr o' -> P o')
    by exact (fun _ _ _ _ _ _ => I).
  destruct (run_ok P H1 H2 frames _ (Inv_init P md mx)) as (t & Hrun & HInv & _).
  destruct (update_ok P H1 H2 rects t HInv) as (t' & Hu & _).
  exists t, t'. split; [exact Hrun |]. split; [exact Hu |].
  intros id o o' Hg Hg'.
  destruct (update_provenance P H1 H2 rects t t' HInv Hu) as (_ & _ & Hprov).
  destruct (Hprov id o' Hg')
    as [(o0 & Hg0 & Hcase) | (Hge & _)].
  - assert (o0 = o) by congruence. subst o0.
    destruct Hcase as [-> | (rect & Hin & Hap)].
    + split; [lia |]. split; [apply Qle_refl |]. split; [reflexivity |]. lia.
    + destruct (apply_match_shape _ _ _ _ Hap) as (Hc & Hb & Hh & Hconf & _).
      split; [lia |]. split; [rewrite Hconf; apply pymax_ge |].
      split; [lia |]. intros _. exists rect. auto.
  - exfalso.
    assert (Hlive : live id t) by (apply live_get; congruence).
    pose proof (live_lt P t id HInv Hlive). lia.
Qed.

(** X3: a frame without observations only ages the tracks: no track is
    registered, and every live track has its counter raised by one and
    is removed when the counter exceeds [max_disappeared], and is
    otherwise left as it was. *)
Theorem empty_frame_only_ages (md : nat) (mx : Z) (frames : list (list Rect)) :
  exists t t',
    run frames (Tracker.init md mx) = inr t
    /\ update [] t = inr t'
    /\ next_object_id t' = next_object_id t
    /\ max_disappeared t = md
    /\ (forall id, live id t' -> live id t)
    /\ (forall id, live id t -> track_aged t t' id).
Proof.
  set (P := fun _ : Obj => True).
  assert (H1 : forall c b g conf, P (mkObj c b g conf [g] 1))
    by exact (fun _ _ _ _ => I).
  assert (H2 : forall c r o o', P o -> apply_match c r o = inr o' -> P o')
    by exact (fun _ _ _ _ _ _ => I).
  destruct (run_ok P H1 H2 frames _ (Inv_init P md mx)) as (t & Hrun & HInv & HE).
  pose proof HInv as (((Sd & Sh) & Hnd & Hlt) & HP & Hdis).
  destruct (age_ids_effect P (Dict.keys (disappeared t)) t HInv)
    as (t' & Hage & _ & _ & Hn & Hsub & _ & Heff).
  { rewrite Sd. exact Hnd. }
  { intros k Hk. unfold live. now rewrite <- Sd. }
  exists t, t'. split; [exact Hrun |]. split; [exact Hage |].
  split; [exact Hn |]. split; [apply HE |]. split; [exact Hsub |].
  intros id Hlive.
  assert (Hin : In id (Dict.keys (disappeared t))) by (now rewrite Sd).
  destruct (key_In_get _ _ Hin) as (d & Hd).
  exists d. split; [exact Hd |]. exact (Heff id d Hin Hd).
Qed.

(** X4: when no track is live, every observation of the frame is registered,
    in the order of the frame, under the next free identifiers. *)
Theorem frame_without_tracks_registers_all (md : nat) (mx : Z)
  (frames : list (list Rect)) (t : EuclideanDistTracker) (rects : list Rect) :
  run frames (Tracker.init md mx) = inr t ->
  objects t = [] ->
  exists t',
    update rects t = inr t'
    /\ next_object_id t' = next_object_id t + List.length rects
    /\ Dict.keys (objects t') = seq (next_object_id t) (List.length rects)
    /\ forall k rect,
         nth_error rects k = Some rect ->
         Dict.get (next_object_id t + k) (objects t') = Some (new_track rect)
         /\ Dict.get (next_object_id t + k) (disappeared t') = Some 0.
Proof.
  intros Hrun Hobj.
  set (P := fun _ : Obj => True).
  assert (H1 : forall c b g conf, P (mkObj c b g conf [g] 1))
    by exact (fun _ _ _ _ => I).
  assert (H2 : forall c r o o', P o -> apply_match c r o = inr o' -> P o')
    by exact (fun _ _ _ _ _ _ => I).
  destruct (run_from_Inv P frames _ t H1 H2 (Inv_init P md mx) Hrun)
    as (HInv & _).
  pose proof HInv as (((Sd & Sh) & Hnd & Hlt) & HP & Hdis).
  destruct rects as [| r0 rs].
  - exists t. unfold update.
    assert (Hk : Dict.keys (disappeared t) = []) by (rewrite Sd, Hobj; reflexivity).
    rewrite Hk. cbn. rewrite Hobj, Nat.add_0_r.
    split; [reflexivity |]. split; [reflexivity |]. split; [reflexivity |].
    intros [| k] rect E; discriminate E.
  - set (rects := r0 :: rs).
    destruct (register_loop_effect P H1 rects (seq 0 (List.length rects)) t HInv)
      as (t' & Hreg & _ & _ & Hn & _ & Hnew).
    { apply Forall_forall. intros i Hi. apply in_seq in Hi. lia. }
    exists t'.
    assert (Hu : update rects t = inr t').
    { unfold update, rects. rewrite Hobj. exact Hreg. }
    rewrite length_seq in Hn.
    split; [exact Hu |]. split; [exact Hn |]. split.
    + rewrite (register_loop_keys P rects _ H1 _ t t' HInv Hreg).
      rewrite Hobj, length_seq. reflexivity.
    + intros k rect Hk.
      assert (Hlt' : k < List.length rects)
        by (apply nth_error_Some; congruence).
      assert (Hk' : nth_error (seq 0 (List.length rects)) k = Some k).
      { rewrite (nth_error_nth' _ 0) by (rewrite length_seq; lia).
        rewrite seq_nth by lia. reflexivity. }
      destruct (Hnew k k Hk') as (rect' & Hrect' & Ho & Hd).
      assert (rect' = rect) by congruence. subst rect'. auto.
Qed.

Lemma frame_without_tracks_registers_all_witness :
  exists t',
    update side_by_side Camera.tracker = inr t'
    /\ next_object_id t' = 2
    /\ Dict.keys (objects t') = [0; 1].
Proof.
  destruct (frame_without_tracks_registers_all 50 150 [] Camera.tracker
              side_by_side eq_refl eq_refl)
    as (t' & Hu & Hn & Hk & _).
  exists t'. split; [exact Hu |]. split; [exact Hn | exact Hk].
Defined.

(** X5: the gender history of a live track is never empty and never longer
    than the number of its hits, and [Unknown] can only be its oldest
    entry: an [Unknown] observation of a matched track is not
    recorded. *)
Theorem track_history_shape (md : nat) (mx : Z) (frames : list (list Rect)) :
  exists t,
    run frames (Tracker.init md mx) = inr t
    /\ Forall (fun e => history_shape (snd e)) (objects t).
Proof.
  destruct (run_ok history_shape history_shape_register
              history_shape_apply_match frames _
              (Inv_init history_shape md mx))
    as (t & Hrun & (_ & HP & _) & _).
  exists t. split; [exact Hrun | exact HP].
Qed.

(** X6: on the tracker of the camera, a track has at most as many hits as
    frames were fed, so that before the tenth frame nobody is
    counted. *)
Theorem nobody_counted_before_ten_frames (frames : list (list Rect)) :
  exists t,
    run frames Camera.tracker = inr t
    /\ (forall id o,
          Dict.get id (objects t) = Some o ->
          1 <= hits o <= List.length frames)
    /\ (List.length frames < 10 ->
        Camera.count_objects (objects t) = nobody).
Proof.
  destruct (run_ok history_shape history_shape_register
              history_shape_apply_match frames _
              (Inv_init history_shape 50 150%Z))
    as (t & Hrun & HInv & _).
  exists t. split; [exact Hrun |].
  assert (Hhits : forall id o,
            Dict.get id (objects t) = Some o ->
            1 <= hits o <= List.length frames).
  { intros id o Hget. split.
    - destruct HInv as (_ & HP & _). rewrite Forall_forall in HP.
      specialize (HP _ (get_Some_In _ _ _ Hget)). cbn in HP.
      destruct HP as ((A & B) & _). lia.
    - apply (run_hits_bound history_shape history_shape_register
               history_shape_apply_match frames Camera.tracker 0 t
               (Inv_init history_shape 50 150%Z)) with (id := id);
        [| exact Hrun | exact Hget].
      intros id0 o0 E. cbn in E. discriminate E. }
  split; [exact Hhits |].
  intros Hfew. rewrite count_objects_spec.
  assert (Hyoung : Forall (fun e => hits (snd e) < 10) (objects t)).
  { apply Forall_forall. intros [id o] Hin. cbn.
    destruct HInv as ((_ & Hnd & _) & _).
    specialize (Hhits id o (In_get_NoDup _ _ _ Hnd Hin)). lia. }
  rewrite !(confirmed_count_young _ _ Hyoung). reflexivity.
Qed.

End TrackLifeFacts.

(** ** Boxes and frames of the camera *)

Section CameraFrames.
Import Tracker TrackerSpec TrackLife VideoCamera FrameSpec.

Lemma face_of_box_inside w h box face :
  face_of_box w h box = Some face ->
  inside w h face
  /\ (let '(_, _, fw, fh) := face in (10 < fw /\ 10 < fh)%Z)
  /\ (let '(startX, startY, endX, endY) := box in
      let '(x, y, fw, fh) := face in
      x = Z.max 0 startX /\ y = Z.max 0 startY
      /\ (x + fw)%Z = Z.min w endX /\ (y + fh)%Z = Z.min h endY).
Proof.
  destruct box as [[[sx sy] ex] ey]. unfold face_of_box.
  destruct ((10 <? Z.min w ex - Z.max 0 sx)
            && (10 <? Z.min h ey - Z.max 0 sy))%Z eqn:Hbig;
    [| discriminate].
  intros E. injection E as <-.
  apply andb_true_iff in Hbig. rewrite !Z.ltb_lt in Hbig.
  unfold inside. lia.
Qed.

(** X10: every face [_detect_faces_dnn] returns lies inside the image it was
    detected in and is more than 10 pixels wide and high; no more faces
    are returned than detections were confident. *)
Theorem faces_lie_inside_image (w h : Z) (boxes : list (Z * Z * Z * Z)) :
  Forall (fun face =>
            inside w h face
            /\ let '(_, _, fw, fh) := face in (10 < fw /\ 10 < fh)%Z)
         (detect_faces_dnn w h boxes)
  /\ List.length (detect_faces_dnn w h boxes) <= List.length boxes.
Proof.
  unfold detect_faces_dnn. induction boxes as [| box boxes [IH1 IH2]].
  - split; [constructor | reflexivity].
  - cbn [flat_map]. destruct (face_of_box w h box) as [face |] eqn:Hface.
    + destruct (face_of_box_inside w h box face Hface) as (Hin & Hbig & _).
      split; [constructor; [split; assumption | exact IH1] | cbn; lia].
    + split; [exact IH1 | cbn; lia].
Qed.




Lemma detect_on_odd n :
  (Nat.modulo (S n) detection_frame_skip =? 0) = Nat.odd n.
Proof.
  unfold detection_frame_skip.
  destruct (Nat.odd n) eqn:Hodd.
  - apply Nat.odd_spec in Hodd. destruct Hodd as [m ->].
    apply Nat.eqb_eq.
    replace (S (2 * m + 1)) with ((m + 1) * 2) by lia.
    apply Nat.Div0.mod_mul.
  - apply Nat.eqb_neq.
    assert (Heven : Nat.even n = true)
      by (rewrite <- Nat.negb_odd, Hodd; reflexivity).
    apply Nat.even_spec in Heven. destruct Heven as [m ->].
    replace (S (2 * m)) with (1 + m * 2) by lia.
    rewrite Nat.Div0.mod_add. cbn. discriminate.
Qed.

Lemma play_cons shot shots c :
  play (shot :: shots) c
  = (fst (get_frame shot c) :: fst (play shots (snd (get_frame shot c))),
     snd (play shots (snd (get_frame shot c)))).
Proof.
  cbn [play]. destruct (get_frame shot c) as [r c1]. cbn [fst snd].
  destruct (play shots c1) as [rs c2]. reflexivity.
Qed.

Lemma play_tracks (P : Obj -> Prop) :
  (forall c b g conf, P (mkObj c b g conf [g] 1)) ->
  (forall c r o o', P o -> apply_match c r o = inr o' -> P o') ->
  forall shots c,
    Inv P (tracker c) ->
    run (every_second (Nat.odd (frame_skip_counter c)) (frames_read shots))
        (tracker c)
    = inr (tracker (snd (play shots c)))
    /\ frame_skip_counter (snd (play shots c))
       = frame_skip_counter c + List.length (frames_read shots).
Proof.
  intros H1 H2. induction shots as [| shot shots IH]; intros c HInv.
  - cbn. split; [reflexivity | lia].
  - rewrite play_cons. cbn [snd].
    destruct shot as [| | detections jpeg].
    + cbn [get_frame snd frames_read flat_map app]. apply IH. exact HInv.
    + cbn [get_frame snd frames_read flat_map app]. apply IH. exact HInv.
    + change (frames_read (Frame detections jpeg :: shots))
        with (detections :: frames_read shots).
      cbn [every_second List.length].
      unfold get_frame. cbn [frame_skip_counter tracker last_detection_counts].
      rewrite detect_on_odd.
      destruct (Nat.odd (frame_skip_counter c)) eqn:Hodd.
      * destruct detections as [e | rects].
        -- cbn [snd app].
           match goal with
           | |- context [play shots ?c1] =>
               destruct (IH c1 HInv) as [A B]
           end.
           cbn [frame_skip_counter tracker] in A, B.
           rewrite Nat.odd_succ, <- Nat.negb_odd, Hodd in A.
           split; [exact A | lia].
        -- destruct (update_ok P H1 H2 rects (tracker c) HInv)
             as (t' & Hu & HI' & _).
           rewrite Hu. cbn [snd app run]. rewrite Hu. cbn [bind].
           match goal with
           | |- context [play shots ?c1] =>
               destruct (IH c1 HI') as [A B]
           end.
           cbn [frame_skip_counter tracker] in A, B.
           rewrite Nat.odd_succ, <- Nat.negb_odd, Hodd in A.
           split; [exact A | lia].
      * cbn [snd app].
        match goal with
        | |- context [play shots ?c1] =>
            destruct (IH c1 HInv) as [A B]
        end.
        cbn [frame_skip_counter tracker] in A, B.
        rewrite Nat.odd_succ, <- Nat.negb_odd, Hodd in A.
        split; [exact A | lia].
Qed.

(** X12: from a camera just built or reinitialized, whatever the capture
    delivers, the tracker has seen exactly the detections of every
    second frame read (the second, the fourth, ...), and the frame
    counter is the number of frames read. *)
Theorem camera_detects_every_second_frame (shots : list Shot)
  (c : VideoCamera) :
  run (every_second false (frames_read shots)) Camera.tracker
  = inr (tracker (snd (play shots (reinitialize c))))
  /\ frame_skip_counter (snd (play shots (reinitialize c)))
     = List.length (frames_read shots)
  /\ reinitialize c = VideoCamera.init.
Proof.
  set (P := fun _ : Obj => True).
  assert (H1 : forall c b g conf, P (mkObj c b g conf [g] 1))
    by exact (fun _ _ _ _ => I).
  assert (H2 : forall c r o o', P o -> apply_match c r o = inr o' -> P o')
    by exact (fun _ _ _ _ _ _ => I).
  destruct (play_tracks P H1 H2 shots (reinitialize c) (Inv_init P 50 150%Z))
    as [A B].
  split; [exact A |]. split; [exact B | reflexivity].
Qed.

End CameraFrames.

Section CameraWarmUp.
Import Tracker TrackerSpec TrackLife VideoCamera FrameSpec.

Lemma update_hits (P : Obj -> Prop) rects t t' n :
  (forall c b g conf, P (mkObj c b g conf [g] 1)) ->
  (forall c r o o', P o -> apply_match c r o = inr o' -> P o') ->
  Inv P t -> update rects t = inr t' ->
  (forall id o, Dict.get id (objects t) = Some o -> hits o <= n) ->
  forall id o, Dict.get id (objects t') = Some o -> hits o <= S n.
Proof.
  intros H1 H2 HInv Hu Hn id o Hget.
  destruct (update_provenance P H1 H2 rects t t' HInv Hu) as (_ & _ & Hprov).
  destruct (Hprov id o Hget)
    as [(o0 & Hg0 & [-> | (rect & _ & Hap)]) | (_ & rect & _ & ->)].
  - specialize (Hn _ _ Hg0). lia.
  - destruct (apply_match_shape _ _ _ _ Hap) as (_ & _ & Hh & _).
    specialize (Hn _ _ Hg0). lia.
  - cbn. lia.
Qed.

Lemma count_objects_young (objs : Dict.t nat Obj) :
  NoDup (Dict.keys objs) ->
  (forall id o, Dict.get id objs = Some o -> hits o < 10) ->
  Camera.count_objects objs = nobody.
Proof.
  intros Hnd Hyoung. rewrite count_objects_spec.
  assert (Hall : Forall (fun e => hits (snd e) < 10) objs).
  { apply Forall_forall. intros [id o] Hin. cbn.
    apply (Hyoung id). now apply In_get_NoDup. }
  rewrite !(confirmed_count_young _ _ Hall). reflexivity.
Qed.

Lemma play_warm_up (P : Obj -> Prop) :
  (forall c b g conf, P (mkObj c b g conf [g] 1)) ->
  (forall c r o o', P o -> apply_match c r o = inr o' -> P o') ->
  forall shots c,
    Inv P (tracker c) ->
    (forall id o,
       Dict.get id (objects (tracker c)) = Some o ->
       hits o <= frame_skip_counter c / 2) ->
    last_detection_counts c = nobody ->
    frame_skip_counter c + List.length (frames_read shots) < 20 ->
    Forall reports_nobody (fst (play shots c))
    /\ last_detection_counts (snd (play shots c)) = nobody.
Proof.
  intros H1 H2. induction shots as [| shot shots IH];
    intros c HInv Hhits Hlast Hfew.
  - cbn. split; [constructor | exact Hlast].
  - rewrite play_cons. cbn [fst snd].
    destruct shot as [| | detections jpeg].
    + cbn [get_frame fst snd].
      destruct (IH c HInv Hhits Hlast Hfew) as [A B].
      split; [constructor; [now left | exact A] | exact B].
    + cbn [get_frame fst snd].
      destruct (IH c HInv Hhits Hlast Hfew) as [A B].
      split; [constructor; [now left | exact A] | exact B].
    + change (frames_read (Frame detections jpeg :: shots))
        with (detections :: frames_read shots) in Hfew.
      cbn [List.length] in Hfew.
      unfold get_frame. cbn [frame_skip_counter tracker last_detection_counts].
      rewrite detect_on_odd.
      destruct (Nat.odd (frame_skip_counter c)) eqn:Hodd.
      * assert (Hhalf : S (frame_skip_counter c) / 2
                        = S (frame_skip_counter c / 2)).
        { apply Nat.odd_spec in Hodd. destruct Hodd as [m Hm]. rewrite Hm.
          replace (S (2 * m + 1)) with ((m + 1) * 2) by lia.
          rewrite Nat.div_mul by discriminate.
          replace (2 * m + 1) with (1 + m * 2) by lia.
          rewrite Nat.div_add by discriminate. cbn. lia. }
        destruct detections as [e | rects].
        -- cbn [fst snd].
           match goal with
           | |- context [play shots ?c1] =>
               destruct (IH c1) as [A B]
           end; cbn [frame_skip_counter tracker last_detection_counts];
             try assumption; try lia.
           { intros id o Hget. specialize (Hhits id o Hget). lia. }
           split; [constructor; [exact I | exact A] | exact B].
        -- destruct (update_ok P H1 H2 rects (tracker c) HInv)
             as (t' & Hu & HI' & _).
           rewrite Hu. cbn [fst snd].
           assert (Hhits' : forall id o,
                     Dict.get id (objects t') = Some o ->
                     hits o <= S (frame_skip_counter c) / 2).
           { rewrite Hhalf.
             apply (update_hits P rects (tracker c) t' _ H1 H2 HInv Hu Hhits). }
           assert (Hcount : Camera.count_objects (objects t') = nobody).
           { apply count_objects_young.
             - destruct HI' as ((_ & Hnd & _) & _). exact Hnd.
             - intros id o Hget. specialize (Hhits' id o Hget).
               assert (S (frame_skip_counter c) / 2 < 10)
                 by (apply Nat.Div0.div_lt_upper_bound; lia).
               lia. }
           match goal with
           | |- context [play shots ?c1] =>
               destruct (IH c1) as [A B]
           end; cbn [frame_skip_counter tracker last_detection_counts];
             try assumption; try lia.
           split; [constructor; [right; exact Hcount | exact A] | exact B].
      * assert (Hhalf : frame_skip_counter c / 2
                        <= S (frame_skip_counter c) / 2)
          by (apply Nat.Div0.div_le_mono; lia).
        cbn [fst snd].
        match goal with
        | |- context [play shots ?c1] =>
            destruct (IH c1) as [A B]
        end; cbn [frame_skip_counter tracker last_detection_counts];
          try assumption; try lia.
        { intros id o Hget. specialize (Hhits id o Hget). lia. }
        split; [constructor; [right; exact Hlast | exact A] | exact B].
Qed.

(** X13: from a camera just built or reinitialized, the first nineteen frames
    read report nobody: every call of [get_frame] returns no counts or
    zero counts (or raises), whatever is detected, because a track is
    counted only at its tenth hit and only every second frame is
    detected on. *)
Theorem camera_warm_up (shots : list Shot) (c : VideoCamera) :
  List.length (frames_read shots) < 20 ->
  Forall reports_nobody (fst (play shots (reinitialize c)))
  /\ last_detection_counts (snd (play shots (reinitialize c))) = nobody.
Proof.
  intros Hfew.
  set (P := fun _ : Obj => True).
  assert (H1 : forall c b g conf, P (mkObj c b g conf [g] 1))
    by exact (fun _ _ _ _ => I).
  assert (H2 : forall c r o o', P o -> apply_match c r o = inr o' -> P o')
    by exact (fun _ _ _ _ _ _ => I).
  apply (play_warm_up P H1 H2 shots (reinitialize c)).
  - apply (Inv_init P 50 150%Z).
  - intros id o E. cbn in E. discriminate E.
  - reflexivity.
  - cbn [reinitialize frame_skip_counter]. lia.
Qed.

Lemma camera_warm_up_witness :
  Forall reports_nobody
    (fst (play [Frame (inr side_by_side) (Some "jpeg");
                Frame (inr moved_apart) (Some "jpeg")] VideoCamera.init)).
Proof.
  refine (proj1 (camera_warm_up
                   [Frame (inr side_by_side) (Some "jpeg");
                    Frame (inr moved_apart) (Some "jpeg")]
                   VideoCamera.init _)).
  cbn. lia.
Defined.

End CameraWarmUp.

(** ** Analytics of the background thread *)

Section BackgroundAnalytics.
Import AdManager Background FrameSpec.

Lemma skipn_S_tl {A} (l : list A) : forall k, skipn (S k) l = tl (skipn k l).
Proof.
  induction l as [| x l IH]; intros [| k]; try reflexivity.
  cbn [skipn]. rewrite <- IH. reflexivity.
Qed.

(** Appending to the last [n] elements and dropping the oldest one when
    there are more than [n] gives the last [n] elements again. *)
Lemma cap_lastn {A} (n : nat) (L : list A) (e : A) :
  0 < n ->
  (if n <? List.length (lastn n L ++ [e])
   then tl (lastn n L ++ [e]) else lastn n L ++ [e])
  = lastn n (L ++ [e]).
Proof.
  intros Hn. unfold lastn.
  rewrite !length_app, length_skipn. cbn [List.length].
  destruct (le_lt_dec n (List.length L)) as [Hfull | Hshort].
  - replace (n <? List.length L - (List.length L - n) + 1) with true
      by (symmetry; apply Nat.ltb_lt; lia).
    replace (List.length L + 1 - n) with (S (List.length L - n)) by lia.
    rewrite skipn_S_tl, skipn_app.
    replace (List.length L - n - List.length L) with 0 by lia.
    reflexivity.
  - replace (List.length L - n) with 0 by lia.
    replace (List.length L + 1 - n) with 0 by lia.
    cbn [skipn]. rewrite Nat.sub_0_r.
    replace (n <? List.length L + 1) with false
      by (symmetry; apply Nat.ltb_ge; lia).
    reflexivity.
Qed.

Lemma lastn_length {A} (n : nat) (l : list A) :
  List.length (lastn n l) = Nat.min n (List.length l).
Proof. unfold lastn. rewrite length_skipn. lia. Qed.

Lemma record_frames_history frames : forall a L,
  detection_history a = lastn 50 L ->
  detection_history (record_frames frames a)
  = lastn 50 (L ++ map detection_of frames).
Proof.
  unfold record_frames.
  induction frames as [| f frames IH]; intros a L Ha.
  - cbn. now rewrite app_nil_r.
  - cbn [fold_left map].
    replace (L ++ detection_of f :: map detection_of frames)
      with ((L ++ [detection_of f]) ++ map detection_of frames)
      by (rewrite <- app_assoc; reflexivity).
    apply IH. cbn [update_analytics detection_history]. rewrite Ha.
    apply (cap_lastn 50 L (detection_of f)). lia.
Qed.

Lemma record_frames_counters frames : forall a,
  total_detections (record_frames frames a)
  = (total_detections a + Z.of_nat (List.length frames))%Z
  /\ male_detections (record_frames frames a)
     = (male_detections a + sum_of "male" frames)%Z
  /\ female_detections (record_frames frames a)
     = (female_detections a + sum_of "female" frames)%Z.
Proof.
  unfold record_frames.
  induction frames as [| f frames IH]; intros a.
  - cbn. lia.
  - cbn [fold_left]. destruct (IH (update_analytics (fst f) (snd f) a))
      as (A & B & C).
    rewrite A, B, C.
    cbn [update_analytics total_detections male_detections female_detections
         sum_of fold_right List.length].
    fold (sum_of "male" frames). fold (sum_of "female" frames). lia.
Qed.

Lemma record_frames_peak frames : forall a,
  (peak_count a <= peak_count (record_frames frames a))%Z
  /\ (forall f, In f frames ->
        (get_default "total" 0%Z (fst f)
         <= peak_count (record_frames frames a))%Z)
  /\ (peak_count (record_frames frames a) = peak_count a
      \/ exists f, In f frames
                   /\ get_default "total" 0%Z (fst f)
                      = peak_count (record_frames frames a)).
Proof.
  unfold record_frames.
  induction frames as [| f frames IH]; intros a.
  - cbn. split; [lia |]. split; [tauto | now left].
  - cbn [fold_left].
    destruct (IH (update_analytics (fst f) (snd f) a)) as (A & B & C).
    cbn [update_analytics peak_count] in A, C.
    split; [lia |]. split.
    + intros f' [<- | Hin]; [lia | auto].
    + destruct C as [C | (f' & Hin & C)].
      * destruct (Z.max_spec (peak_count a) (get_default "total" 0%Z (fst f)))
          as [[_ E] | [_ E]]; rewrite E in C.
        -- right. exists f. split; [now left | congruence].
        -- now left.
      * right. exists f'. split; [now right | exact C].
Qed.

(** X14: whatever frames the background thread has processed, the detection
    history holds the last fifty of them, oldest first, and the counters
    hold the number of frames and the sums of the male and of the female
    counts. *)
Theorem detection_history_keeps_last_fifty
  (frames : list (Dict.t string Z * string)) :
  detection_history (record_frames frames analytics_data)
  = lastn 50 (map detection_of frames)
  /\ List.length (detection_history (record_frames frames analytics_data))
     = Nat.min 50 (List.length frames)
  /\ total_detections (record_frames frames analytics_data)
     = Z.of_nat (List.length frames)
  /\ male_detections (record_frames frames analytics_data)
     = sum_of "male" frames
  /\ female_detections (record_frames frames analytics_data)
     = sum_of "female" frames.
Proof.
  assert (Hh : detection_history (record_frames frames analytics_data)
               = lastn 50 (map detection_of frames)).
  { apply (record_frames_history frames analytics_data []). reflexivity. }
  destruct (record_frames_counters frames analytics_data) as (A & B & C).
  split; [exact Hh |]. split.
  - rewrite Hh, lastn_length, length_map. reflexivity.
  - cbn in A, B, C. repeat split; assumption.
Qed.

(** X15: the peak count is the largest total of the frames processed so far,
    and zero when no total was positive: it bounds every total, also
    those of the frames that left the history, and it is zero or the
    total of one of the frames. *)
Theorem peak_count_is_largest_total
  (frames : list (Dict.t string Z * string)) :
  (forall f, In f frames ->
     (get_default "total" 0%Z (fst f)
      <= peak_count (record_frames frames analytics_data))%Z)
  /\ Forall (fun d =>
               (detection_total d
                <= peak_count (record_frames frames analytics_data))%Z)
            (detection_history (record_frames frames analytics_data))
  /\ (peak_count (record_frames frames analytics_data) = 0%Z
      \/ exists f, In f frames
                   /\ get_default "total" 0%Z (fst f)
                      = peak_count (record_frames frames analytics_data)).
Proof.
  destruct (record_frames_peak frames analytics_data) as (_ & B & C).
  split; [exact B |]. split; [| exact C].
  rewrite (record_frames_history frames analytics_data [] eq_refl).
  apply Forall_forall. intros d Hd. cbn [app] in Hd.
  unfold lastn in Hd.
  assert (Hin : In d (map detection_of frames)).
  { rewrite <- (firstn_skipn
                  (List.length (map detection_of frames) - 50)
                  (map detection_of frames)).
    apply in_or_app. now right. }
  apply in_map_iff in Hin. destruct Hin as (f & <- & Hf).
  cbn [detection_of detection_total]. now apply B.
Qed.

End BackgroundAnalytics.

(** ** The manager from call to call *)

Section ManagerSteps.
Import AdManager AdManagerSpec ManagerLife FrameSpec.

Lemma sum_counts_from l : forall acc,
  fold_left (fun acc d => (acc + display_count d)%Z) l acc
  = (acc + sum_counts l)%Z.
Proof.
  unfold sum_counts. induction l as [| d l IH]; intros acc; cbn [fold_left].
  - lia.
  - rewrite (IH (acc + display_count d)%Z), (IH (0 + display_count d)%Z). lia.
Qed.

Lemma sum_counts_cons d l :
  sum_counts (d :: l) = (display_count d + sum_counts l)%Z.
Proof. unfold sum_counts at 1. cbn [fold_left]. rewrite sum_counts_from. lia. Qed.

Lemma sum_counts_app l1 l2 :
  sum_counts (l1 ++ l2) = (sum_counts l1 + sum_counts l2)%Z.
Proof.
  induction l1 as [| d l1 IH]; [reflexivity |].
  cbn [app]. rewrite !sum_counts_cons, IH. lia.
Qed.

Lemma sum_counts_set k (d : Doc) (L : Dict.t string Doc) :
  sum_counts (Dict.values (Dict.set k d L))
  = (sum_counts (Dict.values L) - counted_so_far k L + display_count d)%Z.
Proof.
  unfold counted_so_far.
  induction L as [| [k' d'] L IH];
    cbn [Dict.set Dict.get Dict.values map fst snd].
  - rewrite sum_counts_cons. unfold sum_counts. cbn. lia.
  - destruct (keqb k k'); cbn [Dict.values map fst snd].
    + rewrite !sum_counts_cons. lia.
    + rewrite !sum_counts_cons. unfold Dict.values in IH. rewrite IH. lia.
Qed.

Lemma track_in_memory_counts env ad s :
  exists L',
    track_in_memory env ad s = (inr tt, set_local_analytics L' s)
    /\ (exists d',
          Dict.get (get_default "id" "UNKNOWN" ad) L' = Some d'
          /\ doc_display_count d'
             = Some (counted_so_far (get_default "id" "UNKNOWN" ad)
                       (local_analytics s) + 1)%Z)
    /\ (forall k, k <> get_default "id" "UNKNOWN" ad ->
          Dict.get k L' = Dict.get k (local_analytics s))
    /\ sum_counts (Dict.values L')
       = (sum_counts (Dict.values (local_analytics s)) + 1)%Z.
Proof.
  unfold track_in_memory, mbind, self, lift, mret, modify.
  set (ad_id := get_default "id" "UNKNOWN" ad).
  unfold counted_so_far.
  destruct (Dict.mem ad_id (local_analytics s)) eqn:Hmem.
  - destruct (mem_get _ _ Hmem) as (d & Hd).
    unfold Dict.item. rewrite Hd. cbn [bind ret fst snd].
    eexists. split; [reflexivity |]. split; [| split].
    + eexists. rewrite get_set_same. split; [reflexivity |].
      cbn [doc_display_count local_analytics set_local_analytics].
      unfold display_count. reflexivity.
    + intros k Hk. cbn [local_analytics set_local_analytics].
      now apply get_set_other.
    + cbn [local_analytics set_local_analytics].
      rewrite sum_counts_set. unfold counted_so_far. rewrite Hd.
      unfold display_count. cbn [doc_display_count]. lia.
  - assert (Hnone : Dict.get ad_id (local_analytics s) = None).
    { unfold Dict.mem in Hmem.
      destruct (Dict.get ad_id (local_analytics s)); [discriminate | reflexivity]. }
    rewrite local_analytics_set. unfold Dict.item. rewrite get_set_same.
    cbn [bind ret fst snd].
    eexists. split; [reflexivity |]. split; [| split].
    + eexists. rewrite get_set_same. split; [reflexivity |].
      rewrite Hnone. reflexivity.
    + intros k Hk. cbn [local_analytics set_local_analytics].
      rewrite !get_set_other by assumption. reflexivity.
    + cbn [local_analytics set_local_analytics].
      rewrite !sum_counts_set. unfold counted_so_far.
      rewrite get_set_same, Hnone. unfold display_count.
      cbn [doc_display_count]. lia.
Qed.

Lemma track_ad_display_counts env ad s :
  exists L',
    track_ad_display env ad s = (inr tt, set_local_analytics L' s)
    /\ counted env ad (mongo_db s) (local_analytics s) L'.
Proof.
  destruct (track_in_memory_counts env ad s) as (L' & Hrun & Hc).
  unfold track_ad_display, mtry, mbind, self, lift, mret, counted.
  destruct (mongo_db s) as [db |].
  - destruct (update_one env) as [e | []].
    + rewrite Hrun. eauto.
    + exists (local_analytics s). rewrite set_local_analytics_same. auto.
  - rewrite Hrun. exists L'. split; [reflexivity |].
    destruct (update_one env); exact Hc.
Qed.

(** What [select_ad] returns and leaves when the entry drawn carries an
    ['id']. *)
Lemma select_ad_run env gender s :
  selectable s = true -> identified s ->
  exists selected L' s',
    nth_error (catalog (choose_catalog gender s) s)
      (drawn env (catalog (choose_catalog gender s) s)) = Some selected
    /\ select_ad env gender s = (inr (record_of env gender selected), s')
    /\ current_ad s' = Some (record_of env gender selected)
    /\ ad_start_time s' = Some (clock env AtAdStart)
    /\ last_ad_change_time s'
       = Dict.set gender (clock env AtAdChange) (last_ad_change_time s)
    /\ last_majority_gender s' = Some gender
    /\ mongo_db s' = mongo_db s
    /\ ads_dir s' = ads_dir s
    /\ (forall c, catalog c s' = catalog c s)
    /\ local_analytics s' = L'
    /\ counted env (record_of env gender selected) (mongo_db s)
         (local_analytics s) L'
    /\ ad_history s'
       = (if 100 <? List.length
                      (ad_history s
                       ++ [entry_of env (record_of env gender selected)])
          then tl (ad_history s
                   ++ [entry_of env (record_of env gender selected)])
          else ad_history s
               ++ [entry_of env (record_of env gender selected)]).
Proof.
  intros Hsel Hid.
  assert (Hdemo : truthy_list (demo_neutral_ads s) = true).
  { unfold selectable in Hsel. apply andb_true_iff in Hsel. tauto. }
  destruct (choice_ok env (catalog (choose_catalog gender s) s) s
              (choose_catalog_nonempty gender s Hdemo))
    as (selected & Hchoice & Hnth).
  exists selected.
  assert (Hmem : Dict.mem "id" selected = true).
  { apply (Hid (choose_catalog gender s)). eapply nth_error_In; eauto. }
  unfold select_ad. unfold mbind at 1. unfold self at 1.
  unfold mbind at 1. rewrite Hchoice.
  rewrite Hmem.
  unfold mbind, modify, mret, mtry.
  match goal with
  | |- context [track_ad_display ?e ?a ?st] =>
      destruct (track_ad_display_counts e a st) as (L' & Htrack & HL');
      rewrite Htrack
  end.
  exists L'. eexists. split; [exact Hnth |]. split; [reflexivity |].
  cbn [mongo_db local_analytics set_current_ad set_ad_start_time
       set_last_ad_change_time set_last_majority_gender] in HL'.
  match goal with
  | |- context [if ?b then _ else _] => destruct b eqn:Hcap
  end;
    cbn [ad_history set_ad_history set_local_analytics set_current_ad
         set_ad_start_time set_last_ad_change_time set_last_majority_gender]
      in Hcap;
    cbn [current_ad ad_start_time last_majority_gender last_ad_change_time
         ad_history mongo_db local_analytics ads_dir
         set_ad_history set_local_analytics set_current_ad
         set_ad_start_time set_last_ad_change_time set_last_majority_gender];
    (do 6 (split; [reflexivity |]));
    (split; [intros []; reflexivity |]);
    (split; [reflexivity |]);
    (split; [exact HL' |]);
    unfold entry_of, record_of; rewrite Hcap; reflexivity.
Qed.

Lemma cap_hundred {A} (h : list A) (e : A) :
  List.length h <= 100 ->
  (if 100 <? List.length (h ++ [e]) then tl (h ++ [e]) else h ++ [e])
  = lastn 100 (h ++ [e])
  /\ List.length (lastn 100 (h ++ [e])) <= 100.
Proof.
  intros Hle. split; [| rewrite lastn_length; lia].
  unfold lastn. rewrite length_app. cbn [List.length].
  destruct (100 <? List.length h + 1) eqn:Hcap.
  - apply Nat.ltb_lt in Hcap.
    replace (List.length h + 1 - 100) with 1 by lia.
    rewrite skipn_S_tl. reflexivity.
  - apply Nat.ltb_ge in Hcap.
    replace (List.length h + 1 - 100) with 0 by lia. reflexivity.
Qed.

Lemma settled_catalogs s s' :
  (forall c, catalog c s' = catalog c s) ->
  List.length (ad_history s') <= 100 ->
  settled s -> settled s'.
Proof.
  intros Hcat Hh (Hid & (A & B & C) & (D & E & F) & _).
  split; [| split; [| split]].
  - intros c ad. rewrite Hcat. apply Hid.
  - pose proof (Hcat MaleAds). pose proof (Hcat FemaleAds).
    pose proof (Hcat NeutralAds). cbn [catalog] in *.
    repeat split; congruence.
  - pose proof (Hcat DemoMaleAds). pose proof (Hcat DemoFemaleAds).
    pose proof (Hcat DemoNeutralAds). cbn [catalog] in *.
    repeat split; congruence.
  - exact Hh.
Qed.

Lemma load_file_has_id gender_dir file ad :
  load_file gender_dir file = Some ad -> has_id ad = true.
Proof.
  unfold load_file.
  destruct (_ || _); [discriminate |].
  destruct (PyStr.endswith_any media_suffixes _); [| discriminate].
  intros E. injection E as <-. reflexivity.
Qed.

Lemma load_files_have_id gender_dir files ad :
  In ad (load_files gender_dir files) -> has_id ad = true.
Proof.
  unfold load_files. intros Hin.
  apply in_flat_map in Hin. destruct Hin as (file & _ & Hin).
  destruct (load_file gender_dir file) as [ad' |] eqn:E; [| contradiction].
  destruct Hin as [<- | []]. eapply load_file_has_id; eauto.
Qed.

Lemma loading_set_catalog c v s :
  loading s -> (forall ad, In ad v -> has_id ad = true) ->
  match c with MaleAds | FemaleAds | NeutralAds => True | _ => False end ->
  loading (set_catalog c v s).
Proof.
  intros (Hid & Hdemo & Hh) Hv Hc. split; [| split].
  - intros c' ad. rewrite catalog_set_catalog.
    destruct c, c'; try contradiction; auto; apply Hid.
  - destruct c; try contradiction; exact Hdemo.
  - destruct c; exact Hh.
Qed.

Lemma load_gender_dir_loading fs gender_dir :
  preserves loading (load_gender_dir fs gender_dir).
Proof.
  unfold load_gender_dir.
  destruct (gender_dir_exists fs gender_dir); [| apply preserves_ret].
  apply preserves_bind; [apply preserves_lift |].
  intros files.
  destruct (String.eqb gender_dir "male");
    [| destruct (String.eqb gender_dir "female")];
    apply preserves_modify; intros s Hs;
    (apply loading_set_catalog;
     [assumption | apply load_files_have_id | exact I]).
Qed.

Lemma load_ads_loading fs : preserves loading (load_ads fs).
Proof.
  unfold load_ads. apply preserves_try; [| intros; apply preserves_ret].
  destruct (ads_dir_exists fs).
  - repeat (apply preserves_bind; [apply load_gender_dir_loading | intros _]).
    apply load_gender_dir_loading.
  - repeat (apply preserves_bind; [apply preserves_lift | intros _]).
    apply preserves_lift.
Qed.

Lemma truthy_list_nonempty {A} (l : list A) :
  truthy_list l = true <-> l <> [].
Proof. destruct l; cbn; split; congruence. Qed.

Lemma init_settled mongo find_one dir fs :
  settled (init mongo find_one dir fs)
  /\ ad_history (init mongo find_one dir fs) = [].
Proof.
  unfold init.
  match goal with
  | |- context [load_ads fs ?s0] =>
      assert (H0 : loading s0);
      [ split; [intros c ad Hin; destruct c; cbn in Hin; try contradiction;
                repeat (destruct Hin as [<- | Hin]; [reflexivity |]);
                contradiction
               | split; [repeat split | reflexivity]]
      | pose proof (load_ads_loading fs s0 H0) as H1;
        set (s1 := snd (load_ads fs s0)) in * ]
  end.
  clear H0.
  assert (H2 : loading (if truthy_list (male_ads s1) then s1
                        else set_catalog MaleAds (demo_male_ads s1) s1)
               /\ male_ads (if truthy_list (male_ads s1) then s1
                            else set_catalog MaleAds (demo_male_ads s1) s1)
                  <> []).
  { destruct (truthy_list (male_ads s1)) eqn:E.
    - split; [assumption | now apply truthy_list_nonempty].
    - split.
      + apply loading_set_catalog; [assumption | | exact I].
        intros ad. apply (proj1 H1 DemoMaleAds).
      + cbn [set_catalog male_ads].
        destruct H1 as (_ & (-> & _) & _). discriminate. }
  set (s2 := if truthy_list (male_ads s1) then s1
             else set_catalog MaleAds (demo_male_ads s1) s1) in *.
  destruct H2 as [H2 M2].
  assert (H3 : loading (if truthy_list (female_ads s2) then s2
                        else set_catalog FemaleAds (demo_female_ads s2) s2)
               /\ male_ads (if truthy_list (female_ads s2) then s2
                            else set_catalog FemaleAds (demo_female_ads s2) s2)
                  <> []
               /\ female_ads (if truthy_list (female_ads s2) then s2
                              else set_catalog FemaleAds (demo_female_ads s2) s2)
                  <> []).
  { destruct (truthy_list (female_ads s2)) eqn:E.
    - split; [assumption |]. split; [assumption |].
      now apply truthy_list_nonempty.
    - split; [| split].
      + apply loading_set_catalog; [assumption | | exact I].
        intros ad. apply (proj1 H2 DemoFemaleAds).
      + exact M2.
      + cbn [set_catalog female_ads].
        destruct H2 as (_ & (_ & -> & _) & _). discriminate. }
  set (s3 := if truthy_list (female_ads s2) then s2
             else set_catalog FemaleAds (demo_female_ads s2) s2) in *.
  destruct H3 as (H3 & M3 & F3).
  destruct (truthy_list (neutral_ads s3)) eqn:E.
  - destruct H3 as (A & B & C). split; [| exact C].
    split; [exact A |]. split; [| split; [exact B | rewrite C; cbn; lia]].
    split; [exact M3 |]. split; [exact F3 |]. now apply truthy_list_nonempty.
  - assert (H4 : loading (set_catalog NeutralAds (demo_neutral_ads s3) s3)).
    { apply loading_set_catalog; [assumption | | exact I].
      intros ad. apply (proj1 H3 DemoNeutralAds). }
    destruct H4 as (A & B & C). split; [| exact C].
    split; [exact A |]. split; [| split; [exact B | rewrite C; cbn; lia]].
    split; [exact M3 |]. split; [exact F3 |].
    cbn [set_catalog neutral_ads].
    destruct H3 as (_ & (_ & _ & ->) & _). discriminate.
Qed.

Lemma reachable_settled s : reachable s -> settled s.
Proof.
  induction 1 as [mongo find_one dir fs | s g counts now Hr IH
                 | s env g Hr IH Hclock | s now Hr IH | s Hr IH].
  - apply init_settled.
  - now rewrite should_show_ad_state.
  - pose proof (reachable_sound s Hr) as (_ & Hsel & _).
    destruct (select_ad_run env g s Hsel (proj1 IH))
      as (selected & L' & s' & _ & Hrun & _ & _ & _ & _ & _ & _ & Hcat
          & _ & _ & Hh).
    rewrite Hrun. cbn [snd].
    apply (settled_catalogs s s' Hcat); [| exact IH].
    rewrite Hh.
    destruct (cap_hundred (ad_history s)
                (entry_of env (record_of env g selected)))
      as [-> Hle]; [apply IH | exact Hle].
  - destruct (get_current_ad_cases now s) as [E | E]; rewrite E; cbn [snd].
    + assumption.
    + apply (settled_catalogs s); [intros []; reflexivity | apply IH | exact IH].
  - unfold clear_ad, mbind, modify. cbn [snd].
    apply (settled_catalogs s); [intros []; reflexivity | apply IH | exact IH].
Qed.

End ManagerSteps.

Section ManagerFacts.
Import AdManager AdManagerSpec ManagerLife FrameSpec.

Lemma lastn_snoc {A} (k : nat) (l : list A) (e : A) :
  0 < k -> lastn k (l ++ [e]) = lastn (k - 1) l ++ [e].
Proof.
  intros Hk. unfold lastn. rewrite length_app. cbn [List.length].
  rewrite skipn_app.
  replace (List.length l + 1 - k - List.length l) with 0 by lia.
  replace (List.length l + 1 - k) with (List.length l - (k - 1)) by lia.
  reflexivity.
Qed.

Lemma merge_local_fresh (L : Dict.t string Doc) : forall acc,
  NoDup (Dict.keys acc ++ Dict.keys L) ->
  fold_left merge_local L acc = acc ++ L.
Proof.
  induction L as [| [k d] L IH]; intros acc Hnd; cbn [fold_left].
  - now rewrite app_nil_r.
  - cbn [Dict.keys map fst] in Hnd.
    assert (Hfresh : ~ In k (Dict.keys acc)).
    { intros Hin. apply NoDup_remove_2 in Hnd. apply Hnd.
      apply in_or_app. now left. }
    unfold merge_local at 2.
    rewrite (proj2 (get_None_iff k acc) Hfresh).
    rewrite (set_notin _ _ _ Hfresh).
    rewrite IH.
    + rewrite <- app_assoc. reflexivity.
    + unfold Dict.keys in *. rewrite map_app, <- app_assoc. exact Hnd.
Qed.

Lemma total_without_store truth find s :
  mongo_db s = None -> NoDup (Dict.keys (local_analytics s)) ->
  total_displays (get_ad_analytics truth find s)
  = sum_counts (Dict.values (local_analytics s)).
Proof.
  intros Hdb Hnd. unfold get_ad_analytics, read_store. rewrite Hdb.
  cbn [bind ret]. unfold report.
  cbn [total_displays]. unfold merged. cbn [fold_left].
  rewrite merge_local_fresh; [reflexivity | exact Hnd].
Qed.

(** X21: after construction the catalogues never change: in every state the
    manager can reach, the three catalogues hold something, every entry
    carries an ['id'], so that [select_ad] returns a catalogue entry
    with only ['gender'] and ['timestamp'] set, and no call rewrites a
    catalogue. *)
Theorem catalogues_fixed_at_construction (s : State) :
  reachable s ->
  stocked s
  /\ builtin_demos s
  /\ (forall c ad, In ad (catalog c s) -> has_id ad = true)
  /\ (forall env gender,
        exists selected,
          In selected (catalog (choose_catalog gender s) s)
          /\ fst (select_ad env gender s)
             = inr (record_of env gender selected))
  /\ (forall op c, catalog c (state_after op s) = catalog c s).
Proof.
  intros Hr.
  pose proof (reachable_settled s Hr) as (Hid & Hst & Hdemo & _).
  pose proof (reachable_sound s Hr) as (_ & Hsel & _).
  split; [exact Hst |]. split; [exact Hdemo |]. split; [exact Hid |].
  split.
  - intros env gender.
    destruct (select_ad_run env gender s Hsel Hid)
      as (selected & L' & s' & Hnth & Hrun & _).
    exists selected. split; [eapply nth_error_In; eauto |].
    rewrite Hrun. reflexivity.
  - intros [g counts now | env g | now | | limit | | find] c;
      cbn [state_after]; try reflexivity.
    + now rewrite should_show_ad_state.
    + destruct (select_ad_run env g s Hsel Hid)
        as (selected & L' & s' & _ & Hrun & _ & _ & _ & _ & _ & _ & Hcat & _).
      rewrite Hrun. cbn [snd]. apply Hcat.
    + destruct (get_current_ad_cases now s) as [E | E]; rewrite E; cbn [snd];
        destruct c; reflexivity.
Qed.

Lemma catalogues_fixed_at_construction_witness :
  stocked (snd (select_ad (env_at 1000) "male" fresh_manager)).
Proof.
  refine (proj1 (catalogues_fixed_at_construction _ _)).
  apply reach_select_ad; [apply reach_init | intros []; reflexivity].
Defined.

(** X22: the history never holds more than 100 selections: [select_ad]
    appends the advertisement it returns and drops the oldest entry
    beyond 100, and [get_ad_history] returns the newest entries, the
    selection just made last; with a limit of [0] it returns the whole
    history. *)
Theorem ad_history_keeps_last_hundred (s : State) (env : Env)
  (gender : string) :
  reachable s ->
  List.length (ad_history s) <= 100
  /\ exists ad s',
       select_ad env gender s = (inr ad, s')
       /\ ad_history s' = lastn 100 (ad_history s ++ [entry_of env ad])
       /\ (forall limit,
             0 < limit ->
             List.length (get_ad_history limit s') <= limit
             /\ exists older,
                  get_ad_history limit s' = older ++ [entry_of env ad])
       /\ get_ad_history 0 s' = ad_history s'.
Proof.
  intros Hr.
  pose proof (reachable_settled s Hr) as (Hid & _ & _ & Hlen).
  pose proof (reachable_sound s Hr) as (_ & Hsel & _).
  split; [exact Hlen |].
  destruct (select_ad_run env gender s Hsel Hid)
    as (selected & L' & s' & _ & Hrun & _ & _ & _ & _ & _ & _ & _ & _ & _ & Hh).
  exists (record_of env gender selected), s'.
  split; [exact Hrun |].
  destruct (cap_hundred (ad_history s)
              (entry_of env (record_of env gender selected)) Hlen)
    as [Hcap _].
  rewrite Hcap in Hh.
  split; [exact Hh |]. split; [| reflexivity].
  intros limit Hlimit.
  assert (Hget : get_ad_history limit s' = lastn limit (ad_history s')).
  { destruct limit; [lia | reflexivity]. }
  rewrite Hget, Hh. split.
  - rewrite lastn_length. lia.
  - rewrite (lastn_snoc 100) by lia. rewrite (lastn_snoc limit) by lia.
    eexists. reflexivity.
Qed.

Lemma ad_history_keeps_last_hundred_witness :
  List.length (ad_history (after_selections 5 "male" 1000)) <= 100.
Proof.
  refine (proj1 (ad_history_keeps_last_hundred _ (env_at 1000) "male" _)).
  cbn [after_selections].
  repeat (apply reach_select_ad; [| intros []; reflexivity]).
  apply reach_init.
Defined.

(** X23: the advertisement [select_ad] returns is what [get_current_ad]
    returns, without touching the manager, until 15 seconds have passed
    since the selection; from then on [get_current_ad] returns nothing
    and clears the advertisement and its start time. *)
Theorem selected_ad_is_current_until_expiry (s : State) (env : Env)
  (gender : string) :
  reachable s -> positive_clock env ->
  exists ad s',
    select_ad env gender s = (inr ad, s')
    /\ (forall now,
          (now - clock env AtAdStart < 15)%Q ->
          get_current_ad now s' = (inr (Some ad), s'))
    /\ (forall now,
          (15 <= now - clock env AtAdStart)%Q ->
          fst (get_current_ad now s') = inr None
          /\ current_ad (snd (get_current_ad now s')) = None
          /\ ad_start_time (snd (get_current_ad now s')) = None
          /\ ad_history (snd (get_current_ad now s')) = ad_history s').
Proof.
  intros Hr Hclock.
  pose proof (reachable_settled s Hr) as (Hid & _).
  pose proof (reachable_sound s Hr) as (_ & Hsel & _).
  destruct (select_ad_run env gender s Hsel Hid)
    as (selected & L' & s' & _ & Hrun & Hcur & Hstart & _).
  exists (record_of env gender selected), s'.
  split; [exact Hrun |].
  assert (Hta : truthy_ad (current_ad s') = true).
  { rewrite Hcur. unfold record_of.
    destruct (Dict.set "timestamp" _ _) eqn:E; [| reflexivity].
    exfalso. exact (set_nonempty _ _ _ E). }
  assert (Htt : truthy_time (ad_start_time s') = true).
  { rewrite Hstart. apply truthy_time_pos, Hclock. }
  split.
  - intros now Hlt.
    unfold get_current_ad, mbind, self, mret. rewrite Hta, Htt. cbn [andb].
    rewrite Hstart. apply Qltb_lt in Hlt.
    change Config.AD_DISPLAY_DURATION with 15%Q. rewrite Hlt.
    now rewrite Hcur.
  - intros now Hge.
    unfold get_current_ad, mbind, self, mret, modify.
    rewrite Hta, Htt. cbn [andb]. rewrite Hstart.
    apply Qltb_ge in Hge.
    change Config.AD_DISPLAY_DURATION with 15%Q. rewrite Hge.
    cbn. auto.
Qed.

Lemma selected_ad_is_current_until_expiry_witness :
  exists ad s',
    select_ad (env_at 1000) "male" fresh_manager = (inr ad, s')
    /\ get_current_ad 1010 s' = (inr (Some ad), s').
Proof.
  destruct (selected_ad_is_current_until_expiry fresh_manager (env_at 1000)
              "male")
    as (ad & s' & Hrun & Hcur & _).
  - apply reach_init.
  - intros []; reflexivity.
  - exists ad, s'. split; [exact Hrun |]. apply Hcur. reflexivity.
Defined.

(** X24: every selection is counted exactly once: by the store when there is
    one and it accepts the update, otherwise in memory, where the count
    of the advertisement shown goes up by one and no other count
    changes; without a store, the total an analytics read reports goes
    up by one with every selection. *)
Theorem selection_is_counted_once (s : State) (env : Env) (gender : string) :
  reachable s ->
  exists ad s',
    select_ad env gender s = (inr ad, s')
    /\ counted env ad (mongo_db s) (local_analytics s) (local_analytics s')
    /\ (mongo_db s = None ->
        forall truth find,
          total_displays (get_ad_analytics truth find s')
          = (total_displays (get_ad_analytics truth find s) + 1)%Z).
Proof.
  intros Hr.
  pose proof (reachable_settled s Hr) as (Hid & _).
  pose proof (reachable_sound s Hr) as (_ & Hsel & Hlocal).
  destruct (select_ad_run env gender s Hsel Hid)
    as (selected & L' & s' & _ & Hrun & _ & _ & _ & _ & Hdb & _ & _ & HL
        & Hcounted & _).
  destruct (select_ad_effect env gender s Hsel)
    as (selected0 & s0 & _ & Hrun0 & _ & _ & _ & _ & _ & _ & Hlocal').
  assert (s0 = s') by congruence. subst s0.
  exists (record_of env gender selected), s'.
  split; [exact Hrun |]. rewrite HL. split; [exact Hcounted |].
  intros Hnone truth find.
  rewrite (total_without_store truth find s Hnone (proj1 Hlocal)).
  rewrite (total_without_store truth find s').
  - rewrite HL. unfold counted in Hcounted. rewrite Hnone in Hcounted.
    apply Hcounted.
  - congruence.
  - apply (Hlocal' Hlocal).
Qed.

Lemma selection_is_counted_once_witness :
  exists ad s',
    select_ad (env_at 1000) "male" fresh_manager = (inr ad, s')
    /\ total_displays (get_ad_analytics (inl StoreError) (inl StoreError) s')
       = 1%Z.
Proof.
  destruct (selection_is_counted_once fresh_manager (env_at 1000) "male")
    as (ad & s' & Hrun & _ & Htotal).
  - apply reach_init.
  - exists ad, s'. split; [exact Hrun |].
    rewrite (Htotal eq_refl (inl StoreError) (inl StoreError)). reflexivity.
Defined.

End ManagerFacts.

(** ** What an analytics read and the statistics report *)

Section AnalyticsReport.
Import AdManager AdManagerSpec ManagerLife FrameSpec.

Lemma insert_desc_perm x l : Permutation (insert_desc x l) (x :: l).
Proof.
  induction l as [| y l IH]; cbn [insert_desc]; [reflexivity |].
  destruct (display_count y <=? display_count x)%Z; [reflexivity |].
  rewrite IH. apply perm_swap.
Qed.

Lemma sort_desc_perm l : Permutation (sort_desc l) l.
Proof.
  unfold sort_desc. induction l as [| x l IH]; cbn [fold_right]; [reflexivity |].
  rewrite insert_desc_perm. now constructor.
Qed.

Lemma insert_desc_ranked x l : ranked l -> ranked (insert_desc x l).
Proof.
  unfold ranked. induction l as [| y l IH]; intros Hs; cbn [insert_desc].
  - repeat constructor.
  - inversion Hs as [| ? ? Hl Hy]; subst.
    destruct (display_count y <=? display_count x)%Z eqn:Hcmp.
    + apply Z.leb_le in Hcmp. constructor; [exact Hs |].
      constructor; [exact Hcmp |].
      eapply Forall_impl; [| exact Hy]. cbv beta. intros d Hd. lia.
    + apply Z.leb_gt in Hcmp. constructor; [now apply IH |].
      apply Forall_forall. intros d Hd.
      apply insert_desc_In in Hd. destruct Hd as [-> | Hd]; [lia |].
      rewrite Forall_forall in Hy. auto.
Qed.

Lemma sort_desc_ranked l : ranked (sort_desc l).
Proof.
  unfold sort_desc. induction l as [| x l IH]; cbn [fold_right].
  - constructor.
  - now apply insert_desc_ranked.
Qed.

Lemma display_count_ensure d : display_count (ensure_count d) = display_count d.
Proof.
  unfold display_count at 1. rewrite ensure_count_count. reflexivity.
Qed.

Lemma doc_gender_ensure g d :
  doc_gender_is g (ensure_count d) = doc_gender_is g d.
Proof. unfold ensure_count. destruct (doc_display_count d); reflexivity. Qed.

Lemma ranked_map_ensure l : ranked l -> ranked (map ensure_count l).
Proof.
  unfold ranked. induction 1 as [| d l _ IH Hd]; cbn [map]; constructor.
  - exact IH.
  - apply Forall_forall. intros d' Hd'. apply in_map_iff in Hd'.
    destruct Hd' as (d0 & <- & Hd0). rewrite !display_count_ensure.
    rewrite Forall_forall in Hd. auto.
Qed.

Lemma ranked_split l1 l2 :
  ranked (l1 ++ l2) ->
  ranked l1
  /\ forall a b, In a l1 -> In b l2 -> (display_count b <= display_count a)%Z.
Proof.
  unfold ranked. induction l1 as [| x l1 IH]; cbn [app]; intros Hs.
  - split; [constructor | intros a b []].
  - inversion Hs as [| ? ? Hl Hx]; subst.
    destruct (IH Hl) as [H1 H2]. rewrite Forall_forall in Hx. split.
    + constructor; [exact H1 |]. apply Forall_forall. intros d Hd.
      apply Hx. apply in_or_app. now left.
    + intros a b [<- | Ha] Hb; [| auto].
      apply Hx. apply in_or_app. now right.
Qed.

Lemma sum_counts_perm l l' :
  Permutation l l' -> sum_counts l = sum_counts l'.
Proof.
  induction 1; rewrite ?sum_counts_cons; try reflexivity; lia.
Qed.

Lemma sum_counts_ensure l : sum_counts (map ensure_count l) = sum_counts l.
Proof.
  induction l as [| d l IH]; [reflexivity |].
  cbn [map]. rewrite !sum_counts_cons, display_count_ensure, IH. reflexivity.
Qed.

Lemma gender_is_exclusive g g' d :
  g <> g' -> doc_gender_is g d = true -> doc_gender_is g' d = false.
Proof.
  unfold doc_gender_is. intros Hne E. apply String.eqb_eq in E.
  apply String.eqb_neq. congruence.
Qed.

Lemma sum_counts_by_gender l :
  sum_counts l
  = (sum_counts (filter (doc_gender_is "male") l)
     + sum_counts (filter (doc_gender_is "female") l)
     + sum_counts (filter (doc_gender_is "neutral") l)
     + sum_counts (filter other_gender l))%Z.
Proof.
  induction l as [| d l IH]; [reflexivity |].
  cbn [filter]. unfold other_gender at 1.
  destruct (doc_gender_is "male" d) eqn:Em.
  - rewrite (gender_is_exclusive "male" "female" d) by (congruence || assumption).
    rewrite (gender_is_exclusive "male" "neutral" d) by (congruence || assumption).
    cbn [negb andb]. rewrite !sum_counts_cons. lia.
  - destruct (doc_gender_is "female" d) eqn:Ef.
    + rewrite (gender_is_exclusive "female" "neutral" d)
        by (congruence || assumption).
      cbn [negb andb]. rewrite !sum_counts_cons. lia.
    + destruct (doc_gender_is "neutral" d) eqn:En;
        cbn [negb andb]; rewrite !sum_counts_cons; lia.
Qed.

Lemma filter_lengths {A} (p q : A -> bool) (l : list A) :
  (forall a, p a = true -> q a = false) ->
  List.length (filter p l) + List.length (filter q l) <= List.length l.
Proof.
  intros Hpq. induction l as [| a l IH]; [reflexivity |].
  cbn [filter]. destruct (p a) eqn:Ep.
  - rewrite (Hpq a Ep). cbn [List.length]. lia.
  - destruct (q a); cbn [List.length]; lia.
Qed.

(** X25: the lists of an analytics read are ranked by display count, largest
    first; each list holds documents of its gender only, every document
    shown has a count, and [most_displayed] holds at most ten documents,
    none of them displayed less often than a document left out. *)
Theorem analytics_lists_are_ranked (truth : res bool) (find : res (list Doc))
  (s : State) :
  ranked (analytics_male_ads (get_ad_analytics truth find s))
  /\ ranked (analytics_female_ads (get_ad_analytics truth find s))
  /\ ranked (analytics_neutral_ads (get_ad_analytics truth find s))
  /\ ranked (most_displayed (get_ad_analytics truth find s))
  /\ List.length (most_displayed (get_ad_analytics truth find s)) <= 10
  /\ Forall (fun d => doc_gender_is "male" d = true)
            (analytics_male_ads (get_ad_analytics truth find s))
  /\ Forall (fun d => doc_gender_is "female" d = true)
            (analytics_female_ads (get_ad_analytics truth find s))
  /\ Forall (fun d => doc_gender_is "neutral" d = true)
            (analytics_neutral_ads (get_ad_analytics truth find s))
  /\ Forall (fun d => doc_display_count d <> None)
            (reported (get_ad_analytics truth find s))
  /\ (forall d0,
        In d0 (merged_docs truth find s) ->
        In (ensure_count d0) (most_displayed (get_ad_analytics truth find s))
        \/ forall d,
             In d (most_displayed (get_ad_analytics truth find s)) ->
             (display_count d0 <= display_count d)%Z).
Proof.
  unfold get_ad_analytics, merged_docs.
  destruct (read_store truth find s) as [e | docs].
  { (* the read gives up: nothing is reported *)
    unfold empty_analytics, reported, ranked.
    cbn [analytics_male_ads analytics_female_ads analytics_neutral_ads
         most_displayed app List.length].
    do 4 (split; [constructor |]).
    split; [lia |].
    do 4 (split; [constructor |]).
    intros d0 []. }
  unfold report.
  set (all := Dict.values (merged docs (local_analytics s))).
  cbn [analytics_male_ads analytics_female_ads analytics_neutral_ads
       most_displayed].
  assert (Hbucket : forall g,
            ranked (map ensure_count (sort_desc (filter (doc_gender_is g) all)))
            /\ Forall (fun d => doc_gender_is g d = true)
                 (map ensure_count (sort_desc (filter (doc_gender_is g) all)))).
  { intros g. split; [apply ranked_map_ensure, sort_desc_ranked |].
    apply Forall_forall. intros d Hd. apply in_map_iff in Hd.
    destruct Hd as (d0 & <- & Hd0). rewrite doc_gender_ensure.
    apply (proj1 (sort_desc_In _ _)) in Hd0.
    apply filter_In in Hd0. tauto. }
  assert (Hsplit := firstn_skipn 10 (sort_desc all)).
  assert (Hranked := sort_desc_ranked all). rewrite <- Hsplit in Hranked.
  destruct (ranked_split _ _ Hranked) as [Htop Hrest].
  split; [apply Hbucket |]. split; [apply Hbucket |].
  split; [apply Hbucket |].
  split; [apply ranked_map_ensure; exact Htop |].
  split; [rewrite length_map, length_firstn; lia |].
  split; [apply Hbucket |]. split; [apply Hbucket |].
  split; [apply Hbucket |]. split.
  - apply Forall_forall. intros d Hd. unfold reported in Hd.
    cbn [analytics_male_ads analytics_female_ads analytics_neutral_ads
         most_displayed] in Hd.
    repeat (apply in_app_or in Hd; destruct Hd as [Hd | Hd]);
      apply in_map_iff in Hd; destruct Hd as (d0 & <- & _);
      rewrite ensure_count_count; discriminate.
  - intros d0 Hd0.
    apply (proj2 (sort_desc_In all d0)) in Hd0.
    rewrite <- Hsplit in Hd0. apply in_app_or in Hd0.
    destruct Hd0 as [Hin | Hout].
    + left. now apply in_map.
    + right. intros d Hd. apply in_map_iff in Hd.
      destruct Hd as (d1 & <- & Hd1). rewrite display_count_ensure.
      now apply Hrest.
Qed.

(** X26: the totals of an analytics read add up: the male and the female
    total are the sums of the counts in the lists reported for them, and
    the total of all displays is their sum plus the counts of the
    neutral list and of the documents of any other gender. *)
Theorem analytics_totals_add_up (truth : res bool) (find : res (list Doc))
  (s : State) :
  male_total (get_ad_analytics truth find s)
  = sum_counts (analytics_male_ads (get_ad_analytics truth find s))
  /\ female_total (get_ad_analytics truth find s)
     = sum_counts (analytics_female_ads (get_ad_analytics truth find s))
  /\ total_displays (get_ad_analytics truth find s)
     = (male_total (get_ad_analytics truth find s)
        + female_total (get_ad_analytics truth find s)
        + sum_counts (analytics_neutral_ads (get_ad_analytics truth find s))
        + sum_counts (filter other_gender (merged_docs truth find s)))%Z.
Proof.
  unfold get_ad_analytics, merged_docs.
  destruct (read_store truth find s) as [e | docs].
  { (* the read gives up: every total is zero *)
    repeat split. }
  unfold report.
  set (all := Dict.values (merged docs (local_analytics s))).
  cbn [analytics_male_ads analytics_female_ads analytics_neutral_ads
       male_total female_total total_displays].
  rewrite !sum_counts_ensure.
  rewrite !(sum_counts_perm _ _ (sort_desc_perm _)).
  split; [reflexivity |]. split; [reflexivity |].
  apply sum_counts_by_gender.
Qed.

(** X27: in every state the manager can reach, the statistics report at most
    100 advertisements shown, the advertisements shown to men and to
    women are no more than those shown in all, and each of the three
    catalogues has something available. *)
Theorem stats_are_bounded (s : State) :
  reachable s ->
  total_ads_shown (get_stats s) <= 100
  /\ male_ads_shown (get_stats s) + female_ads_shown (get_stats s)
     <= total_ads_shown (get_stats s)
  /\ 0 < available_male_ads (get_stats s)
  /\ 0 < available_female_ads (get_stats s)
  /\ 0 < available_neutral_ads (get_stats s).
Proof.
  intros Hr.
  pose proof (reachable_settled s Hr) as (_ & (Hm & Hf & Hn) & _ & Hlen).
  unfold get_stats.
  cbn [total_ads_shown male_ads_shown female_ads_shown available_male_ads
       available_female_ads available_neutral_ads].
  split; [exact Hlen |]. split.
  - apply filter_lengths. intros h. unfold history_gender_is. intros E.
    apply String.eqb_eq in E. rewrite E. reflexivity.
  - destruct (male_ads s), (female_ads s), (neutral_ads s);
      try congruence; cbn [List.length]; lia.
Qed.

Lemma stats_are_bounded_witness :
  total_ads_shown (get_stats (after_selections 5 "male" 1000)) <= 100.
Proof.
  refine (proj1 (stats_are_bounded _ _)).
  cbn [after_selections].
  repeat (apply reach_select_ad; [| intros []; reflexivity]).
  apply reach_init.
Defined.

End AnalyticsReport.

(** ** Construction of the manager *)

Section ManagerConstruction.
Import AdManager AdManagerSpec ManagerLife.




End ManagerConstruction.

(** ** The advertisement logic of the background thread *)

Section BackgroundAds.
Import Tracker TrackerSpec AdManager AdManagerSpec ManagerLife App.

Lemma should_show_ad_returns gender counts now s :
  exists b t,
    should_show_ad gender counts now s = (inr (b, t), s)
    /\ (b = true -> t = TGender gender).
Proof.
  unfold should_show_ad, mbind, self, mret.
  destruct (get_default "total" 0%Z counts =? 0)%Z;
    [do 2 eexists; split; [reflexivity | discriminate] |].
  destruct (truthy_ad (current_ad s) && truthy_time (ad_start_time s)).
  - destruct (ad_start_time s) as [start |].
    + destruct (Qltb (now - start) Config.AD_DISPLAY_DURATION).
      * destruct (negb _); do 2 eexists;
          (split; [reflexivity | try discriminate; reflexivity]).
      * destruct (Dict.get gender (last_ad_change_time s));
          [destruct (Qltb _ _) |]; do 2 eexists;
          (split; [reflexivity | try discriminate; reflexivity]).
    + destruct (Dict.get gender (last_ad_change_time s));
        [destruct (Qltb _ _) |]; do 2 eexists;
        (split; [reflexivity | try discriminate; reflexivity]).
  - destruct (Dict.get gender (last_ad_change_time s));
      [destruct (Qltb _ _) |]; do 2 eexists;
      (split; [reflexivity | try discriminate; reflexivity]).
Qed.

Lemma majority_gender_values counts g :
  majority_gender counts = Some g ->
  g = "male" \/ g = "female" \/ g = "neutral".
Proof.
  unfold majority_gender.
  destruct (0 <? _)%Z; [| discriminate].
  destruct (_ <? _)%Z; [intros E; injection E as <-; tauto |].
  destruct (_ <? _)%Z; [intros E; injection E as <-; tauto |].
  destruct (_ <? _)%Z; intros E; injection E as <-; tauto.
Qed.

(** X16: for the counts the camera reports, the majority is never [neutral]:
    there is none when nobody is confirmed as male or female, it is
    [female] when the women outnumber the men, and [male] otherwise, a
    tie included. *)
Theorem camera_majority_is_never_neutral (objs : Dict.t nat Obj) :
  majority_gender (Camera.count_objects objs)
  = (if (confirmed_count "Male" objs + confirmed_count "Female" objs =? 0)%Z
     then None
     else if (confirmed_count "Male" objs <? confirmed_count "Female" objs)%Z
          then Some "female"
          else Some "male")
  /\ majority_gender (Camera.count_objects objs) <> Some "neutral".
Proof.
  rewrite count_objects_spec.
  assert (Hm : (0 <= confirmed_count "Male" objs)%Z)
    by (unfold confirmed_count; lia).
  assert (Hf : (0 <= confirmed_count "Female" objs)%Z)
    by (unfold confirmed_count; lia).
  set (m := confirmed_count "Male" objs) in *.
  set (f := confirmed_count "Female" objs) in *.
  unfold majority_gender, get_default.
  cbn [Dict.get keqb KeyEq_string String.eqb Ascii.eqb Bool.eqb].
  destruct (0 <? m + f)%Z eqn:E0; destruct (m + f =? 0)%Z eqn:E1;
    destruct (f <? m)%Z eqn:E2; destruct (m <? f)%Z eqn:E3;
    destruct (0 <? m)%Z eqn:E4;
    rewrite ?Z.ltb_lt, ?Z.ltb_ge, ?Z.eqb_eq, ?Z.eqb_neq in *;
    try lia; split; try reflexivity; discriminate.
Qed.

(** X17: one round of the advertisement logic either leaves the manager as it
    was and shows nothing, or selects an advertisement for the majority
    gender, which becomes the current advertisement; it never raises. *)
Theorem ad_logic_shows_the_majority (s : State) (env : Env) (now : Q)
  (counts : Dict.t string Z) :
  reachable s ->
  ad_logic env now counts s = (inr None, s)
  \/ exists g ad s',
       majority_gender counts = Some g
       /\ fst (should_show_ad g counts now s) = inr (true, TGender g)
       /\ ad_logic env now counts s = (inr (Some ad), s')
       /\ select_ad env g s = (inr ad, s')
       /\ current_ad s' = Some ad
       /\ Dict.get "gender" ad = Some g
       /\ last_majority_gender s' = Some g.
Proof.
  intros Hr.
  pose proof (reachable_settled s Hr) as (Hid & _).
  pose proof (reachable_sound s Hr) as (_ & Hsel & _).
  destruct (majority_gender counts) as [g |] eqn:Hmaj;
    [| left; unfold ad_logic; rewrite Hmaj; reflexivity].
  destruct (should_show_ad_returns g counts now s) as (b & t & Hshow & Ht).
  destruct b.
  2:{ left. unfold ad_logic. rewrite Hmaj. unfold mbind. rewrite Hshow.
      reflexivity. }
  specialize (Ht eq_refl). subst t.
  assert (Hne : negb (g =? "")%string = true).
  { destruct (majority_gender_values counts g Hmaj) as [-> | [-> | ->]];
      reflexivity. }
  destruct (select_ad_run env g s Hsel Hid)
    as (selected & L' & s' & _ & Hrun & Hcur & _ & _ & Hlast & _).
  right. exists g, (record_of env g selected), s'.
  split; [reflexivity |].
  split; [rewrite Hshow; reflexivity |].
  split.
  { unfold ad_logic. rewrite Hmaj. unfold mbind. rewrite Hshow, Hne, Hrun.
    reflexivity. }
  split; [exact Hrun |]. split; [exact Hcur |]. split; [| exact Hlast].
  unfold record_of.
  rewrite get_set_other; [| intros E; discriminate E].
  apply get_set_same.
Qed.

Lemma ad_logic_shows_the_majority_witness :
  exists ad s',
    ad_logic (env_at 1000) 1000 (somebody 2 1) fresh_manager
    = (inr (Some ad), s')
    /\ Dict.get "gender" ad = Some "male".
Proof.
  destruct (ad_logic_shows_the_majority fresh_manager (env_at 1000) 1000
              (somebody 2 1) (reach_init _ _ _ _))
    as [Hnone | (g & ad & s' & Hmaj & _ & Hrun & _ & _ & Hg & _)].
  - vm_compute in Hnone. discriminate Hnone.
  - exists ad, s'. split; [exact Hrun |].
    vm_compute in Hmaj. injection Hmaj as <-. exact Hg.
Defined.

End BackgroundAds.

(** ** Advertisements loaded from files *)

Section LoadedAds.
Import AdManager AdManagerSpec ManagerLife.

Lemma prefix_empty s : String.prefix "" s = true.
Proof. destruct s; reflexivity. Qed.

(** Replacing a character by a character maps every character. *)
Lemma replace_char a b s :
  PyStr.replace (String a "") (String b "") s
  = PyStr.map_chars (fun c => if Ascii.eqb c a then b else c) s.
Proof.
  unfold PyStr.replace.
  induction s as [| c r IH]; [reflexivity |].
  cbn [PyStr.replace_aux PyStr.map_chars String.prefix].
  destruct (ascii_dec a c) as [<- | Hne].
  - rewrite prefix_empty, Ascii.eqb_refl. cbn. now rewrite IH.
  - replace (Ascii.eqb c a) with false
      by (symmetry; apply Ascii.eqb_neq; congruence).
    now rewrite IH.
Qed.

Lemma chars_map_chars f s :
  list_ascii_of_string (PyStr.map_chars f s)
  = map f (list_ascii_of_string s).
Proof. induction s as [| c r IH]; cbn; [reflexivity | now rewrite IH]. Qed.

Lemma length_map_chars f s :
  String.length (PyStr.map_chars f s) = String.length s.
Proof. induction s as [| c r IH]; cbn; [reflexivity | now rewrite IH]. Qed.

Lemma id_char_of c :
  id_char
    (PyStr.upper_char
       (if Ascii.eqb (if Ascii.eqb c "." then "_"%char else c) " "
        then "_"%char
        else if Ascii.eqb c "." then "_"%char else c)).
Proof.
  unfold id_char.
  destruct c as [[] [] [] [] [] [] [] []]; vm_compute;
    (split; [intros E; discriminate E
            | split; [intros E; discriminate E | reflexivity]]).
Qed.

(** X20: for a directory and a file with ASCII names, the file is
    advertised exactly when its name does not start with a dot, does not
    end in [.txt] or [.md] and ends in one of the six media suffixes,
    whatever the case of its letters.  The identifier of the
    advertisement is the upper-cased directory, an underscore and the
    file name with every dot and space replaced by an underscore and
    every letter upper-cased; videos are the [.mp4] and [.webm]
    files. *)
Theorem only_media_files_are_advertised (gender_dir file : string) :
  PyStr.is_ascii gender_dir = true -> PyStr.is_ascii file = true ->
  (load_file gender_dir file <> None
   <-> PyStr.startswith "." file = false
       /\ PyStr.endswith_any [".txt"; ".md"] (PyStr.lower file) = false
       /\ PyStr.endswith_any media_suffixes (PyStr.lower file) = true)
  /\ forall ad,
       load_file gender_dir file = Some ad ->
       Dict.get "path" ad
       = Some ("/static/ads/" ++ gender_dir ++ "/" ++ file)%string
       /\ Dict.get "type" ad
          = Some (if PyStr.endswith_any [".mp4"; ".webm"] (PyStr.lower file)
                  then "video" else "image")
       /\ exists rest,
            Dict.get "id" ad
            = Some (PyStr.upper gender_dir ++ "_" ++ rest)%string
            /\ String.length rest = String.length file
            /\ Forall id_char (list_ascii_of_string rest).
Proof.
  intros _ _. unfold load_file.
  destruct (PyStr.startswith "." file) eqn:Hdot; cbn [orb].
  { split; [| discriminate].
    split; [congruence | intros (E & _); discriminate E]. }
  destruct (PyStr.endswith_any [".txt"; ".md"] (PyStr.lower file)) eqn:Htxt.
  { split; [| discriminate].
    split; [congruence | intros (_ & E & _); discriminate E]. }
  destruct (PyStr.endswith_any media_suffixes (PyStr.lower file)) eqn:Hmedia.
  2:{ split; [| discriminate].
      split; [congruence | intros (_ & _ & E); discriminate E]. }
  split; [split; [auto | discriminate] |].
  intros ad E. injection E as <-.
  split; [reflexivity |]. split; [reflexivity |].
  eexists. split; [reflexivity |].
  rewrite !replace_char. unfold PyStr.upper.
  split.
  - rewrite !length_map_chars. reflexivity.
  - rewrite !chars_map_chars, !map_map.
    apply Forall_forall. intros c Hc. apply in_map_iff in Hc.
    destruct Hc as (c0 & <- & _). apply id_char_of.
Qed.

Lemma only_media_files_are_advertised_witness :
  load_file "male" "Summer Sale.JPG" <> None
  /\ Dict.get "id"
       (match load_file "male" "Summer Sale.JPG" with
        | Some ad => ad
        | None => []
        end)
     = Some "MALE_SUMMER_SALE_JPG".
Proof.
  split.
  - apply (proj2 (proj1 (only_media_files_are_advertised
                           "male" "Summer Sale.JPG" eq_refl eq_refl))).
    repeat split.
  - reflexivity.
Defined.

End LoadedAds.

(** ** Registration, removal and the observations of a frame *)

Section TrackRegistry.
Import Tracker TrackerSpec TrackLife.

Lemma del_snoc {V} (k : nat) (v : V) (d : Dict.t nat V) :
  ~ In k (Dict.keys d) -> Dict.del k (d ++ [(k, v)]) = inr d.
Proof.
  induction d as [| [k0 v0] d IH]; cbn [Dict.del app Dict.keys map fst];
    intros Hnot.
  - now rewrite keqb_refl.
  - rewrite keqb_neq by (intros ->; apply Hnot; now left).
    rewrite IH by (intros Hin; apply Hnot; now right). reflexivity.
Qed.

Lemma del_notin {V} (k : nat) (d : Dict.t nat V) :
  ~ In k (Dict.keys d) -> Dict.del k d = inl KeyError.
Proof.
  induction d as [| [k0 v0] d IH]; cbn [Dict.del Dict.keys map fst];
    intros Hnot; [reflexivity |].
  rewrite keqb_neq by (intros ->; apply Hnot; now left).
  rewrite IH by (intros Hin; apply Hnot; now right). reflexivity.
Qed.

(** X8: removing the track that was just registered restores the three
    dictionaries, and only the next identifier has moved on; removing an
    identifier that is not live raises [KeyError], and removing a live
    one leaves it not live, the next identifier unchanged. *)
Theorem register_then_deregister (md : nat) (mx : Z)
  (frames : list (list Rect)) :
  exists t,
    run frames (Tracker.init md mx) = inr t
    /\ (forall c b g conf,
          deregister (next_object_id t) (register c b g conf t)
          = inr (mkTracker (S (next_object_id t)) (objects t) (disappeared t)
                   (history t) (max_disappeared t) (max_distance t)))
    /\ (forall id, ~ live id t -> deregister id t = inl KeyError)
    /\ (forall id,
          live id t ->
          exists t',
            deregister id t = inr t'
            /\ ~ live id t'
            /\ next_object_id t' = next_object_id t
            /\ forall k, k <> id ->
                 Dict.get k (objects t') = Dict.get k (objects t)).
Proof.
  set (P := fun _ : Obj => True).
  assert (H1 : forall c b g conf, P (mkObj c b g conf [g] 1))
    by exact (fun _ _ _ _ => I).
  assert (H2 : forall c r o o', P o -> apply_match c r o = inr o' -> P o')
    by exact (fun _ _ _ _ _ _ => I).
  destruct (run_ok P H1 H2 frames _ (Inv_init P md mx)) as (t & Hrun & HInv & _).
  pose proof HInv as (((Sd & Sh) & Hnd & Hlt) & _).
  exists t. split; [exact Hrun |].
  assert (Hfresh : ~ In (next_object_id t) (Dict.keys (objects t))).
  { intros Hin. rewrite Forall_forall in Hlt. specialize (Hlt _ Hin). lia. }
  split; [| split].
  - intros c b g conf. unfold deregister, register.
    cbn [objects disappeared history next_object_id max_disappeared
         max_distance].
    rewrite !set_notin by (rewrite ?Sd, ?Sh; exact Hfresh).
    rewrite !del_snoc by (rewrite ?Sd, ?Sh; exact Hfresh).
    reflexivity.
  - intros id Hdead. unfold deregister.
    rewrite (del_notin id (objects t) Hdead). reflexivity.
  - intros id Hlive.
    destruct (deregister_ok id t (proj1 HInv) Hlive)
      as (t' & Hd & Hn & _ & _ & Hk & _ & _ & _ & _ & Hother & _).
    exists t'. split; [exact Hd |]. split; [| split; [exact Hn | exact Hother]].
    unfold live. rewrite Hk. now apply remove1_NoDup_notin.
Qed.

Lemma update_tracks_observations (P : Obj -> Prop) rects t :
  (forall c b g conf, P (mkObj c b g conf [g] 1)) ->
  (forall c r o o', P o -> apply_match c r o = inr o' -> P o') ->
  Inv P t ->
  exists t',
    update rects t = inr t'
    /\ forall rect,
         In rect rects ->
         exists id o',
           Dict.get id (objects t') = Some o'
           /\ bbox o' = rect_bbox rect
           /\ centroid o' = centroid_of (rect_bbox rect)
           /\ Dict.get id (disappeared t') = Some 0.
Proof.
  intros H1 H2 HInv.
  destruct rects as [| r0 rs].
  { destruct (update_ok P H1 H2 [] t HInv) as (t' & Hu & _).
    exists t'. split; [exact Hu | intros rect []]. }
  set (rects := r0 :: rs).
  assert (Hrects : rects <> []) by discriminate.
  destruct (objects t) as [| e0 es] eqn:Hobj.
  - destruct (register_loop_effect P H1 rects (seq 0 (List.length rects)) t HInv)
      as (t' & Hreg & _ & _ & _ & _ & Hnew).
    { apply Forall_forall. intros i Hi. apply in_seq in Hi. lia. }
    exists t'. split; [unfold update, rects; rewrite Hobj; exact Hreg |].
    intros rect Hin. destruct (In_nth_error _ _ Hin) as (c & Hc).
    assert (Hlt : c < List.length rects) by (apply nth_error_Some; congruence).
    assert (Hk : nth_error (seq 0 (List.length rects)) c = Some c).
    { rewrite (nth_error_nth' _ 0) by (rewrite length_seq; lia).
      rewrite seq_nth by lia. reflexivity. }
    destruct (Hnew c c Hk) as (rect' & Hrect' & Ho & Hd).
    assert (rect' = rect) by congruence. subst rect'.
    exists (next_object_id t + c), (new_track rect). auto.
  - assert (Hobjs : objects t <> []) by (rewrite Hobj; discriminate).
    destruct (update_effect P H1 H2 rects t HInv Hobjs Hrects)
      as (t' & Hu & _ & Hm & _ & _ & Hnew).
    exists t'. split; [exact Hu |].
    intros rect Hin. destruct (In_nth_error _ _ Hin) as (c & Hc).
    assert (Hlt : c < List.length rects) by (apply nth_error_Some; congruence).
    set (M := code_association (max_distance t) (distances t rects)) in *.
    destruct (in_dec Nat.eq_dec c (map snd M)) as [Hmatched | Hfree].
    + apply in_map_iff in Hmatched. destruct Hmatched as ([r c'] & E & HinM).
      cbn in E. subst c'.
      destruct (Hm r c HinM)
        as (id & o & rect' & o' & _ & _ & Hrect' & Hap & Hg' & Hd').
      assert (rect' = rect) by congruence. subst rect'.
      destruct (apply_match_shape _ _ _ _ Hap) as (Hc' & Hb' & _).
      exists id, o'. auto.
    + assert (Hun : In c (unmatched_cols rects M)).
      { unfold unmatched_cols. apply In_unused. auto. }
      destruct (In_nth_error _ _ Hun) as (k & Hk).
      destruct (Hnew k c Hk) as (rect' & Hrect' & Ho & Hd).
      assert (rect' = rect) by congruence. subst rect'.
      exists (next_object_id t + k), (new_track rect). auto.
Qed.

(** X7: no observation is dropped: after [update], every observation of the
    frame is the box of a live track, matched or new, whose centroid is
    that of the observation and whose counter is zero. *)
Theorem every_observation_is_tracked (md : nat) (mx : Z)
  (frames : list (list Rect)) (rects : list Rect) :
  exists t t',
    run frames (Tracker.init md mx) = inr t
    /\ update rects t = inr t'
    /\ forall rect,
         In rect rects ->
         exists id o',
           Dict.get id (objects t') = Some o'
           /\ bbox o' = rect_bbox rect
           /\ centroid o' = centroid_of (rect_bbox rect)
           /\ Dict.get id (disappeared t') = Some 0.
Proof.
  set (P := fun _ : Obj => True).
  assert (H1 : forall c b g conf, P (mkObj c b g conf [g] 1))
    by exact (fun _ _ _ _ => I).
  assert (H2 : forall c r o o', P o -> apply_match c r o = inr o' -> P o')
    by exact (fun _ _ _ _ _ _ => I).
  destruct (run_ok P H1 H2 frames _ (Inv_init P md mx)) as (t & Hrun & HInv & _).
  destruct (update_tracks_observations P rects t H1 H2 HInv) as (t' & Hu & Hall).
  exists t, t'. split; [exact Hrun |]. split; [exact Hu | exact Hall].
Qed.

(** X9: the centroid of a box of non-negative size lies in the box. *)
Theorem centroid_lies_in_box (x y w h : Z) :
  (0 <= w)%Z -> (0 <= h)%Z ->
  (x <= fst (centroid_of (x, y, w, h)) <= x + w)%Z
  /\ (y <= snd (centroid_of (x, y, w, h)) <= y + h)%Z.
Proof.
  intros Hw Hh. unfold centroid_of. cbn [fst snd].
  pose proof (Z.quot_rem' (2 * x + w) 2) as Ex.
  pose proof (Z.quot_rem' (2 * y + h) 2) as Ey.
  assert (Hx : (Z.abs (Z.rem (2 * x + w) 2) < 2)%Z)
    by (apply Z.rem_bound_abs; discriminate).
  assert (Hy : (Z.abs (Z.rem (2 * y + h) 2) < 2)%Z)
    by (apply Z.rem_bound_abs; discriminate).
  lia.
Qed.

Lemma centroid_lies_in_box_witness :
  (20 <= fst (centroid_of (20, 0, 11, 10)%Z) <= 20 + 11)%Z.
Proof.
  refine (proj1 (centroid_lies_in_box 20 0 11 10 _ _)); discriminate.
Defined.

End TrackRegistry.

Section BackgroundInventory.
Import Tracker TrackerSpec AdManager AdManagerSpec ManagerLife App.

Lemma choose_catalog_stocked gender s :
  stocked s ->
  catalog (choose_catalog gender s) s
  = if String.eqb gender "male" then male_ads s
    else if String.eqb gender "female" then female_ads s
    else neutral_ads s.
Proof.
  intros (Hm & Hf & Hn). unfold choose_catalog.
  destruct (male_ads s) as [| am lm] eqn:Em; [congruence |].
  destruct (female_ads s) as [| af lf] eqn:Ef; [congruence |].
  destruct (neutral_ads s) as [| an ln] eqn:En; [congruence |].
  cbn [truthy_list].
  destruct (String.eqb gender "male");
    [| destruct (String.eqb gender "female")];
    cbn [catalog]; rewrite ?Em, ?Ef, ?En; cbn [truthy_list catalog];
    rewrite ?Em, ?Ef, ?En; reflexivity.
Qed.

(** X18: with the counts of the camera, the advertisement logic of the
    background thread shows nothing or an entry of the male or of the
    female catalogue: the neutral catalogue and the demo fall-backs are
    never drawn from. *)
Theorem background_never_shows_neutral_ads (s : State) (env : Env) (now : Q)
  (objs : Dict.t nat Obj) :
  reachable s ->
  ad_logic env now (Camera.count_objects objs) s = (inr None, s)
  \/ exists g selected s',
       ad_logic env now (Camera.count_objects objs) s
       = (inr (Some (record_of env g selected)), s')
       /\ ((g = "male" /\ In selected (male_ads s))
           \/ (g = "female" /\ In selected (female_ads s))).
Proof.
  intros Hr.
  pose proof (reachable_settled s Hr) as (Hid & Hst & _).
  pose proof (reachable_sound s Hr) as (_ & Hsel & _).
  set (counts := Camera.count_objects objs).
  destruct (majority_gender counts) as [g |] eqn:Hmaj;
    [| left; unfold ad_logic; rewrite Hmaj; reflexivity].
  destruct (should_show_ad_returns g counts now s) as (b & t & Hshow & Ht).
  destruct b.
  2:{ left. unfold ad_logic. rewrite Hmaj. unfold mbind. rewrite Hshow.
      reflexivity. }
  specialize (Ht eq_refl). subst t.
  assert (Hg : g = "male" \/ g = "female").
  { unfold counts in Hmaj. rewrite count_objects_spec in Hmaj.
    unfold majority_gender, get_default in Hmaj.
    cbn [Dict.get keqb KeyEq_string String.eqb Ascii.eqb Bool.eqb] in Hmaj.
    assert (Hm : (0 <= confirmed_count "Male" objs)%Z)
      by (unfold confirmed_count; lia).
    assert (Hf : (0 <= confirmed_count "Female" objs)%Z)
      by (unfold confirmed_count; lia).
    destruct (0 <? _)%Z eqn:E0; [| discriminate].
    destruct (confirmed_count "Female" objs <? confirmed_count "Male" objs)%Z
      eqn:E1; [injection Hmaj as <-; now left |].
    destruct (confirmed_count "Male" objs <? confirmed_count "Female" objs)%Z
      eqn:E2; [injection Hmaj as <-; now right |].
    destruct (0 <? confirmed_count "Male" objs)%Z eqn:E3;
      [injection Hmaj as <-; now left |].
    rewrite ?Z.ltb_lt, ?Z.ltb_ge in *. lia. }
  destruct (select_ad_run env g s Hsel Hid)
    as (selected & L' & s' & Hnth & Hrun & _).
  apply nth_error_In in Hnth.
  rewrite (choose_catalog_stocked g s Hst) in Hnth.
  right. exists g, selected, s'. split.
  - unfold ad_logic. rewrite Hmaj. unfold mbind. rewrite Hshow.
    destruct Hg as [-> | ->]; cbn [String.eqb Ascii.eqb Bool.eqb negb];
      rewrite Hrun; reflexivity.
  - destruct Hg as [-> | ->]; [left | right]; (split; [reflexivity |]);
      exact Hnth.
Qed.

Lemma background_never_shows_neutral_ads_witness :
  ad_logic (env_at 1000) 1000 (Camera.count_objects []) fresh_manager
  = (inr None, fresh_manager).
Proof.
  destruct (background_never_shows_neutral_ads fresh_manager (env_at 1000)
              1000 [] (reach_init _ _ _ _))
    as [Hnone | (g & selected & s' & Hrun & _)].
  - exact Hnone.
  - vm_compute in Hrun. discriminate Hrun.
Defined.

End BackgroundInventory.
